(** * Howl: the playback orchestration engine of angular-howler

    Shallow embedding of [src/module/howler/class/howl.ts] (the [Howl] group
    with its legacy method block), of the [Sound] constructor and of the
    [Howler] registry flags it reads.

    Conventions of the embedding.
    - JavaScript numbers that carry time or volume are exact rationals [Q];
      sound ids, array indexes and lengths are [nat]; the pool limit is [Z].
    - [Sound] objects live in a store ([heap]); the group's array [_sounds]
      holds addresses, so that a closure or a local variable keeps denoting
      the same object after [splice] has shifted the array.
    - Methods run in a state-and-exception monad over the group.  A method
      that calls back into the group (through [_emit], [_loadQueue] and the
      queued closures) receives the dispatcher [rec] as an argument; the
      dispatcher [exec] ties the knot with a fuel counter.
    - Work handed to the host (timers, listeners, promises) is recorded in
      [pending] and [_endTimers]; backend calls are recorded in [backend];
      emitted events are recorded in [emitted].
    - The class is half way through its port: the new part writes
      [_soundArray], [emit], [loadQueue] and [Sound.id] where the legacy
      method block writes [_sounds], [_emit], [_loadQueue] and [sound._id].
      Each pair is one thing here, under the legacy name. *)

From Stdlib Require Import ZArith QArith Qround Qabs List String Ascii Bool Lia Lqa.
From stdpp Require Import base option list strings gmap sorting.

Local Open Scope Q_scope.
Local Open Scope nat_scope.

(** ** Event names used as string tags in the source *)

Inductive EventName : Type :=
| Eload | Eloaderror | Eplay | Eplayerror | Epause | Estop | Emute
| Evolume | Erate | Eseek | Efade | Eend | Eunlock | Eresume.

#[global] Instance EventName_eq_dec : EqDecision EventName.
Proof. solve_decision. Defined.

(** ** Sprites: [name -> [offsetMs, durationMs, loop]] *)

Record Sprite : Type := mkSprite {
  sp_offset : Q;          (* self._sprite[name][0] *)
  sp_length : Q;          (* self._sprite[name][1] *)
  sp_loop : bool          (* !!self._sprite[name][2] *)
}.

(** ** The fade timer closure of [_startFadeInterval] *)

Record Fade : Type := mkFade {
  fd_from : Q;
  fd_to : Q;
  fd_len : Q;
  fd_vol : Q;             (* the closure variable [vol] *)
  fd_isGroup : bool;
  fd_stepLen : Q          (* the interval period handed to setInterval *)
}.

(** ** The audio node of a sound, as far as the group inspects it *)

Record Node : Type := mkNode {
  bufferSource : bool;    (* node.bufferSource is set (Web Audio) *)
  nd_paused : bool;       (* node.paused (HTML5) *)
  nd_ended : bool;        (* node.ended (HTML5) *)
  currentTime : Q;        (* node.currentTime (HTML5) *)
  hasDuration : bool;     (* !isNaN(node.duration) || node.duration === Infinity *)
  isReady : bool          (* node.readyState >= 3 || loadedNoReadyState *)
}.

(** The parameter snapshot a [Sound] is constructed from and reset to
    ([configCopy] in the constructor, [reset()]). *)
Record SoundConfig : Type := mkSoundConfig {
  cfg_paused : bool;
  cfg_ended : bool;
  cfg_sprite : option string;
  cfg_seek : Q;
  cfg_rateSeek : Q;
  cfg_loop : bool;
  cfg_rate : Q;
  cfg_volume : Q;
  cfg_muted : bool
}.

(** ** Sound: one playback instance *)

Record Sound : Type := mkSound {
  _id : nat;
  _paused : bool;
  _ended : bool;
  _sprite : option string;
  _seek : option Q;       (* None: the property holds a non-number *)
  _rateSeek : option Q;   (* None: the property holds a non-number *)
  _start : Q;             (* undefined reads as 0, as in [sound._start || 0] *)
  _stop : Q;
  _loop : bool;
  _rate : Q;
  _volume : Q;
  _muted : bool;
  _interval : option Fade;
  _fadeTo : option Q;
  _playStart : Q;
  _node : Node;
  configCopy : SoundConfig
}.

(** ** Deferred commands: the closures pushed on [_queue]

    Every [_queue.push] in the source pairs a fixed event tag with a closure
    that re-issues one public call on captured arguments; the closure is
    represented by the call and its arguments. *)

Inductive PlayArg : Type :=
| PNone                          (* play() *)
| PId (id : nat)                 (* play(7) *)
| PSprite (name : string).       (* play("foo") *)

(** The arguments of [seek]: [seek()], [seek(x)], [seek(x, id)]. *)
Inductive SeekArgs : Type :=
| Seek0
| Seek1 (x : Q)
| Seek2 (x : Q) (id : nat).

Inductive Action : Type :=
| APlay (arg : PlayArg)                           (* self.play(soundId) / self.play() *)
| APause (id : option nat)                        (* self.pause(id) *)
| AStop (id : option nat)                         (* self.stop(id) *)
| AMute (muted : option bool) (id : option nat)   (* self.mute(muted, id) *)
| AVolume (vol : option Q) (id : option nat) (keepFade : bool)
                                                  (* self.volume.apply(self, args) *)
| ARate (rate : Q) (id : option nat)              (* self.rate.apply(self, args) *)
| ASeek (args : SeekArgs)                         (* self.seek.apply(self, args) *)
| AFade (from to len : Q) (id : option nat).      (* self.fade(from, to, len, id) *)

(** The [event] field stored next to each closure. *)
Definition action_event (a : Action) : EventName :=
  match a with
  | APlay _ => Eplay
  | APause _ => Epause
  | AStop _ => Estop
  | AMute _ _ => Emute
  | AVolume _ _ _ => Evolume
  | ARate _ _ => Erate
  | ASeek _ => Eseek
  | AFade _ _ _ _ => Efade
  end.

(** A queue entry [{event, action}].  The tag is fixed by the push site,
    hence by the closure.  [stamp] is a ghost enqueue counter: it is not in
    the source and no definition below branches on it; it only lets the
    ordering theorems name a task. *)
Record Task : Type := mkTask {
  action : Action;
  stamp : nat
}.

Definition event (t : Task) : EventName := action_event (action t).

(** ** Host-side bookkeeping *)

(** A timer delay as JavaScript computes it: dividing by a zero rate gives
    [Infinity], or [NaN] when the dividend is zero too. *)
Inductive Delay : Type :=
| Finite (ms : Q)
| Infinity
| NotANumber.

Inductive Timer : Type :=
| TimeoutTimer (sound : nat) (delay : Delay)      (* setTimeout(_ended.bind(self, sound), timeout) *)
| EndedListener (sound : nat).                    (* node.addEventListener('ended', ...) *)

(** The closure variables shared by [playWebAudio] and [playHtml5]. *)
Record PlayClosure : Type := mkPlayClosure {
  pc_sound : nat;
  pc_sprite : option string;
  pc_seek : Q;
  pc_duration : Q;
  pc_timeout : Delay;
  pc_start : Q;
  pc_stop : Q;
  pc_internal : bool
}.

Inductive Callback : Type :=
| CbResume (c : PlayClosure)          (* self.once('resume', playWebAudio) *)
| CbCanPlay (c : PlayClosure)         (* node.addEventListener(canPlayEvent, listener) *)
| CbPromise (c : PlayClosure)         (* play.then(...).catch(...) *)
| CbEmitPlay (id : nat)               (* setTimeout(() => { _emit('play'); _loadQueue() }, 0) *)
| CbEndedRetry (sound : nat)          (* setTimeout(_ended.bind(self, sound), 100) *)
| CbEmitSeek (id : nat) (playing : bool). (* setTimeout(emitSeek, 0) *)

Inductive BackendOp : Type :=
| BStart (sound : nat) (seek : Q) (duration : Q) (* bufferSource.start / noteGrainOn *)
| BNodePlay (sound : nat)                               (* node.play() *)
| BStopSource (sound : nat)                             (* bufferSource.stop / noteOff *)
| BNodePause (sound : nat)                              (* node.pause() *)
| BGain (sound : nat) (v : Q)                           (* gain.setValueAtTime / node.volume *)
| BRamp (sound : nat) (v : Q) (len : Q)                 (* gain.linearRampToValueAtTime *)
| BCancelRamp (sound : nat)                             (* gain.cancelScheduledValues *)
| BRate (sound : nat) (v : Q)                           (* playbackRate *)
| BMute (sound : nat) (m : bool)                        (* node.muted *)
| BDisconnect (sound : nat)                             (* node.disconnect(0) *)
| BAutoResume                                           (* Howler._autoResume() *)
| BAutoSuspend                                          (* Howler._autoSuspend() *)
| BLoadBuffer.                                          (* loadBuffer(self) *)

Inductive Message : Type :=
| MsgNone
| MsgNoAudio            (* 'No audio support.' *)
| MsgNonString          (* 'Non-string found in selected audio sources - ignoring.' *)
| MsgNoCodec            (* 'No codec support for selected audio sources.' *)
| MsgPlayback           (* 'Playback was unable to start. ...' *)
| MsgException.         (* the caught exception object *)

Record Emitted : Type := mkEmitted {
  em_event : EventName;
  em_id : option nat;
  em_msg : Message
}.

Inductive LoadState : Type := unloaded | loading | loaded.

#[global] Instance LoadState_eq_dec : EqDecision LoadState.
Proof. solve_decision. Defined.

(** How [node.play()] answers on this host. *)
Inductive NodePlay : Type :=
| PlayThrows       (* throws synchronously *)
| PlayPromise      (* returns a promise *)
| PlayPlain.       (* returns undefined (no promise support) *)

(** A source candidate of [load]: [_format[i]] and [_src[i]]. *)
Record Source : Type := mkSource {
  src_format : option string;
  src_url : option string        (* None: the entry is not a string *)
}.

(** The flags of the [Howler] registry and of the host that the group reads. *)
Record Howler : Type := mkHowler {
  noAudio : bool;
  codecs : string -> bool;
  ctxRunning : bool;      (* Howler.state === 'running' && ctx.state !== 'interrupted' *)
  ctxTime : Q;            (* Howler.ctx.currentTime *)
  masterVolume : Q;       (* Howler.volume() *)
  masterMuted : bool;     (* Howler._muted *)
  nodePlay : NodePlay;
  playBlocked : bool;     (* node.play() leaves node.paused set *)
  pageIsHttps : bool;     (* windowObject.location.protocol === 'https:' *)
  newSound : SoundConfig  (* the parameters a fresh Sound starts from *)
}.

(** ** Howl: the group *)

Record Howl : Type := mkHowl {
  _state : LoadState;
  heap : list Sound;                 (* every Sound object ever constructed *)
  _sounds : list nat;                (* self._sounds, as addresses into [heap] *)
  _queue : list Task;
  _playLock : bool;
  _webAudio : bool;
  _html5 : bool;
  howl_sprite : gmap string Sprite;  (* self._sprite *)
  _pool : Z;
  howl_volume : Q;                   (* self._volume *)
  howl_rate : Q;                     (* self._rate *)
  howl_muted : bool;                 (* self._muted *)
  howl_loop : bool;                  (* self._loop *)
  _endTimers : gmap nat Timer;
  _src : list Source;                (* self._src with self._format, as load scans them *)
  _url : option string;              (* the url load has picked, if any *)
  howler : Howler;
  pending : list Callback;
  backend : list BackendOp;
  emitted : list Emitted;
  ran : list nat;                    (* ghost: stamps of the closures run so far *)
  nextStamp : nat                    (* ghost: next enqueue stamp *)
}.

(** ** Field updates (JavaScript assignments to one property) *)

Definition set_bufferSource x (n : Node) : Node :=
  mkNode x (nd_paused n) (nd_ended n) (currentTime n) (hasDuration n) (isReady n).

Definition set_nd_paused x (n : Node) : Node :=
  mkNode (bufferSource n) x (nd_ended n) (currentTime n) (hasDuration n) (isReady n).

Definition set_nd_ended x (n : Node) : Node :=
  mkNode (bufferSource n) (nd_paused n) x (currentTime n) (hasDuration n) (isReady n).

Definition set_currentTime x (n : Node) : Node :=
  mkNode (bufferSource n) (nd_paused n) (nd_ended n) x (hasDuration n) (isReady n).

Definition set_hasDuration x (n : Node) : Node :=
  mkNode (bufferSource n) (nd_paused n) (nd_ended n) (currentTime n) x (isReady n).

Definition set_isReady x (n : Node) : Node :=
  mkNode (bufferSource n) (nd_paused n) (nd_ended n) (currentTime n) (hasDuration n) x.

Definition set_paused x (s : Sound) : Sound :=
  mkSound (_id s) x (_ended s) (_sprite s) (_seek s) (_rateSeek s) (_start s) (_stop s) (_loop s) (_rate s) (_volume s) (_muted s) (_interval s) (_fadeTo s) (_playStart s) (_node s) (configCopy s).

Definition set_ended x (s : Sound) : Sound :=
  mkSound (_id s) (_paused s) x (_sprite s) (_seek s) (_rateSeek s) (_start s) (_stop s) (_loop s) (_rate s) (_volume s) (_muted s) (_interval s) (_fadeTo s) (_playStart s) (_node s) (configCopy s).

Definition set_sprite x (s : Sound) : Sound :=
  mkSound (_id s) (_paused s) (_ended s) x (_seek s) (_rateSeek s) (_start s) (_stop s) (_loop s) (_rate s) (_volume s) (_muted s) (_interval s) (_fadeTo s) (_playStart s) (_node s) (configCopy s).

Definition set_seek x (s : Sound) : Sound :=
  mkSound (_id s) (_paused s) (_ended s) (_sprite s) x (_rateSeek s) (_start s) (_stop s) (_loop s) (_rate s) (_volume s) (_muted s) (_interval s) (_fadeTo s) (_playStart s) (_node s) (configCopy s).

Definition set_rateSeek x (s : Sound) : Sound :=
  mkSound (_id s) (_paused s) (_ended s) (_sprite s) (_seek s) x (_start s) (_stop s) (_loop s) (_rate s) (_volume s) (_muted s) (_interval s) (_fadeTo s) (_playStart s) (_node s) (configCopy s).

Definition set_start x (s : Sound) : Sound :=
  mkSound (_id s) (_paused s) (_ended s) (_sprite s) (_seek s) (_rateSeek s) x (_stop s) (_loop s) (_rate s) (_volume s) (_muted s) (_interval s) (_fadeTo s) (_playStart s) (_node s) (configCopy s).

Definition set_stop x (s : Sound) : Sound :=
  mkSound (_id s) (_paused s) (_ended s) (_sprite s) (_seek s) (_rateSeek s) (_start s) x (_loop s) (_rate s) (_volume s) (_muted s) (_interval s) (_fadeTo s) (_playStart s) (_node s) (configCopy s).

Definition set_loop x (s : Sound) : Sound :=
  mkSound (_id s) (_paused s) (_ended s) (_sprite s) (_seek s) (_rateSeek s) (_start s) (_stop s) x (_rate s) (_volume s) (_muted s) (_interval s) (_fadeTo s) (_playStart s) (_node s) (configCopy s).

Definition set_rate x (s : Sound) : Sound :=
  mkSound (_id s) (_paused s) (_ended s) (_sprite s) (_seek s) (_rateSeek s) (_start s) (_stop s) (_loop s) x (_volume s) (_muted s) (_interval s) (_fadeTo s) (_playStart s) (_node s) (configCopy s).

Definition set_volume x (s : Sound) : Sound :=
  mkSound (_id s) (_paused s) (_ended s) (_sprite s) (_seek s) (_rateSeek s) (_start s) (_stop s) (_loop s) (_rate s) x (_muted s) (_interval s) (_fadeTo s) (_playStart s) (_node s) (configCopy s).

Definition set_muted x (s : Sound) : Sound :=
  mkSound (_id s) (_paused s) (_ended s) (_sprite s) (_seek s) (_rateSeek s) (_start s) (_stop s) (_loop s) (_rate s) (_volume s) x (_interval s) (_fadeTo s) (_playStart s) (_node s) (configCopy s).

Definition set_interval x (s : Sound) : Sound :=
  mkSound (_id s) (_paused s) (_ended s) (_sprite s) (_seek s) (_rateSeek s) (_start s) (_stop s) (_loop s) (_rate s) (_volume s) (_muted s) x (_fadeTo s) (_playStart s) (_node s) (configCopy s).

Definition set_fadeTo x (s : Sound) : Sound :=
  mkSound (_id s) (_paused s) (_ended s) (_sprite s) (_seek s) (_rateSeek s) (_start s) (_stop s) (_loop s) (_rate s) (_volume s) (_muted s) (_interval s) x (_playStart s) (_node s) (configCopy s).

Definition set_playStart x (s : Sound) : Sound :=
  mkSound (_id s) (_paused s) (_ended s) (_sprite s) (_seek s) (_rateSeek s) (_start s) (_stop s) (_loop s) (_rate s) (_volume s) (_muted s) (_interval s) (_fadeTo s) x (_node s) (configCopy s).

Definition set_node x (s : Sound) : Sound :=
  mkSound (_id s) (_paused s) (_ended s) (_sprite s) (_seek s) (_rateSeek s) (_start s) (_stop s) (_loop s) (_rate s) (_volume s) (_muted s) (_interval s) (_fadeTo s) (_playStart s) x (configCopy s).

Definition set_state x (h : Howl) : Howl :=
  mkHowl x (heap h) (_sounds h) (_queue h) (_playLock h) (_webAudio h) (_html5 h) (howl_sprite h) (_pool h) (howl_volume h) (howl_rate h) (howl_muted h) (howl_loop h) (_endTimers h) (_src h) (_url h) (howler h) (pending h) (backend h) (emitted h) (ran h) (nextStamp h).

Definition set_heap x (h : Howl) : Howl :=
  mkHowl (_state h) x (_sounds h) (_queue h) (_playLock h) (_webAudio h) (_html5 h) (howl_sprite h) (_pool h) (howl_volume h) (howl_rate h) (howl_muted h) (howl_loop h) (_endTimers h) (_src h) (_url h) (howler h) (pending h) (backend h) (emitted h) (ran h) (nextStamp h).

Definition set_sounds x (h : Howl) : Howl :=
  mkHowl (_state h) (heap h) x (_queue h) (_playLock h) (_webAudio h) (_html5 h) (howl_sprite h) (_pool h) (howl_volume h) (howl_rate h) (howl_muted h) (howl_loop h) (_endTimers h) (_src h) (_url h) (howler h) (pending h) (backend h) (emitted h) (ran h) (nextStamp h).

Definition set_queue x (h : Howl) : Howl :=
  mkHowl (_state h) (heap h) (_sounds h) x (_playLock h) (_webAudio h) (_html5 h) (howl_sprite h) (_pool h) (howl_volume h) (howl_rate h) (howl_muted h) (howl_loop h) (_endTimers h) (_src h) (_url h) (howler h) (pending h) (backend h) (emitted h) (ran h) (nextStamp h).

Definition set_playLock x (h : Howl) : Howl :=
  mkHowl (_state h) (heap h) (_sounds h) (_queue h) x (_webAudio h) (_html5 h) (howl_sprite h) (_pool h) (howl_volume h) (howl_rate h) (howl_muted h) (howl_loop h) (_endTimers h) (_src h) (_url h) (howler h) (pending h) (backend h) (emitted h) (ran h) (nextStamp h).

Definition set_webAudio x (h : Howl) : Howl :=
  mkHowl (_state h) (heap h) (_sounds h) (_queue h) (_playLock h) x (_html5 h) (howl_sprite h) (_pool h) (howl_volume h) (howl_rate h) (howl_muted h) (howl_loop h) (_endTimers h) (_src h) (_url h) (howler h) (pending h) (backend h) (emitted h) (ran h) (nextStamp h).

Definition set_html5 x (h : Howl) : Howl :=
  mkHowl (_state h) (heap h) (_sounds h) (_queue h) (_playLock h) (_webAudio h) x (howl_sprite h) (_pool h) (howl_volume h) (howl_rate h) (howl_muted h) (howl_loop h) (_endTimers h) (_src h) (_url h) (howler h) (pending h) (backend h) (emitted h) (ran h) (nextStamp h).

Definition set_howl_volume x (h : Howl) : Howl :=
  mkHowl (_state h) (heap h) (_sounds h) (_queue h) (_playLock h) (_webAudio h) (_html5 h) (howl_sprite h) (_pool h) x (howl_rate h) (howl_muted h) (howl_loop h) (_endTimers h) (_src h) (_url h) (howler h) (pending h) (backend h) (emitted h) (ran h) (nextStamp h).

Definition set_howl_rate x (h : Howl) : Howl :=
  mkHowl (_state h) (heap h) (_sounds h) (_queue h) (_playLock h) (_webAudio h) (_html5 h) (howl_sprite h) (_pool h) (howl_volume h) x (howl_muted h) (howl_loop h) (_endTimers h) (_src h) (_url h) (howler h) (pending h) (backend h) (emitted h) (ran h) (nextStamp h).

Definition set_howl_muted x (h : Howl) : Howl :=
  mkHowl (_state h) (heap h) (_sounds h) (_queue h) (_playLock h) (_webAudio h) (_html5 h) (howl_sprite h) (_pool h) (howl_volume h) (howl_rate h) x (howl_loop h) (_endTimers h) (_src h) (_url h) (howler h) (pending h) (backend h) (emitted h) (ran h) (nextStamp h).

Definition set_howl_loop x (h : Howl) : Howl :=
  mkHowl (_state h) (heap h) (_sounds h) (_queue h) (_playLock h) (_webAudio h) (_html5 h) (howl_sprite h) (_pool h) (howl_volume h) (howl_rate h) (howl_muted h) x (_endTimers h) (_src h) (_url h) (howler h) (pending h) (backend h) (emitted h) (ran h) (nextStamp h).

Definition set_endTimers x (h : Howl) : Howl :=
  mkHowl (_state h) (heap h) (_sounds h) (_queue h) (_playLock h) (_webAudio h) (_html5 h) (howl_sprite h) (_pool h) (howl_volume h) (howl_rate h) (howl_muted h) (howl_loop h) x (_src h) (_url h) (howler h) (pending h) (backend h) (emitted h) (ran h) (nextStamp h).

(** [self._src = url]: the next [load] scans this one source, under the
    entry 0 of [self._format], which stays. *)
Definition set_url x (h : Howl) : Howl :=
  mkHowl (_state h) (heap h) (_sounds h) (_queue h) (_playLock h) (_webAudio h) (_html5 h) (howl_sprite h) (_pool h) (howl_volume h) (howl_rate h) (howl_muted h) (howl_loop h) (_endTimers h) [mkSource (match _src h with s0 :: _ => src_format s0 | [] => None end) x] x (howler h) (pending h) (backend h) (emitted h) (ran h) (nextStamp h).

Definition set_pending x (h : Howl) : Howl :=
  mkHowl (_state h) (heap h) (_sounds h) (_queue h) (_playLock h) (_webAudio h) (_html5 h) (howl_sprite h) (_pool h) (howl_volume h) (howl_rate h) (howl_muted h) (howl_loop h) (_endTimers h) (_src h) (_url h) (howler h) x (backend h) (emitted h) (ran h) (nextStamp h).

Definition set_backend x (h : Howl) : Howl :=
  mkHowl (_state h) (heap h) (_sounds h) (_queue h) (_playLock h) (_webAudio h) (_html5 h) (howl_sprite h) (_pool h) (howl_volume h) (howl_rate h) (howl_muted h) (howl_loop h) (_endTimers h) (_src h) (_url h) (howler h) (pending h) x (emitted h) (ran h) (nextStamp h).

Definition set_emitted x (h : Howl) : Howl :=
  mkHowl (_state h) (heap h) (_sounds h) (_queue h) (_playLock h) (_webAudio h) (_html5 h) (howl_sprite h) (_pool h) (howl_volume h) (howl_rate h) (howl_muted h) (howl_loop h) (_endTimers h) (_src h) (_url h) (howler h) (pending h) (backend h) x (ran h) (nextStamp h).

Definition set_ran x (h : Howl) : Howl :=
  mkHowl (_state h) (heap h) (_sounds h) (_queue h) (_playLock h) (_webAudio h) (_html5 h) (howl_sprite h) (_pool h) (howl_volume h) (howl_rate h) (howl_muted h) (howl_loop h) (_endTimers h) (_src h) (_url h) (howler h) (pending h) (backend h) (emitted h) x (nextStamp h).

Definition set_nextStamp x (h : Howl) : Howl :=
  mkHowl (_state h) (heap h) (_sounds h) (_queue h) (_playLock h) (_webAudio h) (_html5 h) (howl_sprite h) (_pool h) (howl_volume h) (howl_rate h) (howl_muted h) (howl_loop h) (_endTimers h) (_src h) (_url h) (howler h) (pending h) (backend h) (emitted h) (ran h) x.

(** ** The method monad: state of the group plus JavaScript exceptions *)

Inductive Outcome (A : Type) : Type :=
| Normal (a : A) (h : Howl)      (* the call returned [a] *)
| TypeError (h : Howl)           (* an exception escaped the call *)
| OutOfFuel.                     (* the dispatcher ran out of fuel *)

Arguments Normal {A} a h.
Arguments TypeError {A} h.
Arguments OutOfFuel {A}.

Definition M (A : Type) : Type := Howl -> Outcome A.

Definition ret {A} (a : A) : M A := fun h => Normal a h.

Definition bind {A B} (m : M A) (f : A -> M B) : M B :=
  fun h =>
    match m h with
    | Normal a h' => f a h'
    | TypeError h' => TypeError h'
    | OutOfFuel => OutOfFuel
    end.

Definition get : M Howl := fun h => Normal h h.
Definition modify (f : Howl -> Howl) : M unit := fun h => Normal tt (f h).
Definition throw {A} : M A := fun h => TypeError h.

(** [try { m } catch (err) { handler }] *)
Definition try_catch {A} (m : M A) (handler : M A) : M A :=
  fun h =>
    match m h with
    | TypeError h' => handler h'
    | o => o
    end.

#[global] Instance M_ret : MRet M := @ret.
#[global] Instance M_bind : MBind M := fun A B f m => bind m f.

Definition when (b : bool) (m : M unit) : M unit := if b then m else ret tt.

(** [for (const x of l) { body x }] *)
Fixpoint for_each {X} (l : list X) (body : X -> M unit) : M unit :=
  match l with
  | [] => ret tt
  | x :: l' => body x ;; for_each l' body
  end.

(** ** Truthiness of the values the source tests with [if (x)] *)

(** An id argument: [undefined]/[null] is [None]; [0] is falsy as well. *)
Definition truthy (id : option nat) : bool :=
  match id with
  | Some (S _) => true
  | _ => false
  end.

(** ** Store access *)

(** Reading a property of the object at address [a]. *)
Definition deref (a : nat) : M Sound :=
  fun h => match heap h !! a with
           | Some s => Normal s h
           | None => TypeError h
           end.

(** Assigning to properties of the object at address [a]. *)
Definition update (a : nat) (f : Sound -> Sound) : M unit :=
  modify (fun h => set_heap (alter f a (heap h)) h).

Definition update_node (a : nat) (f : Node -> Node) : M unit :=
  update a (fun s => set_node (f (_node s)) s).

Definition log_backend (op : BackendOp) : M unit :=
  modify (fun h => set_backend (backend h ++ [op]) h).

Definition defer (cb : Callback) : M unit :=
  modify (fun h => set_pending (pending h ++ [cb]) h).

(** [self._queue.push({event, action})]; the stamp is ghost. *)
Definition enqueue (a : Action) : M unit :=
  modify (fun h =>
    set_nextStamp (S (nextStamp h))
      (set_queue (_queue h ++ [mkTask a (nextStamp h)]) h)).

(** ** Sound construction, [register] and [reset] *)

(** [Howl.register]: push the sound, hand back the new array length. *)
Definition register (sound : nat) : M nat :=
  modify (fun h => set_sounds (_sounds h ++ [sound]) h) ;;
  h ← get;
  ret (length (_sounds h)).

(** The node a constructor starts with: no buffer source, paused, nothing
    loaded yet. *)
Definition fresh_node : Node := mkNode false true false 0%Q false false.

Definition sound_of_config (id : nat) (c : SoundConfig) : Sound :=
  mkSound id (cfg_paused c) (cfg_ended c) (cfg_sprite c) (Some (cfg_seek c))
    (Some (cfg_rateSeek c)) 0%Q 0%Q (cfg_loop c) (cfg_rate c) (cfg_volume c)
    (cfg_muted c) None None 0%Q fresh_node c.

(** [new Sound(howl, config, soundFile)], as far as the group logic needs
    it: snapshot the configuration, silence the sound when the host, the
    configuration or the group is muted, then
    [this.id = this.howl.register(this)].  The methods of the group call
    [new Sound(self)] with the group alone, where the constructor reads
    [this._config]: the construction is bridged, the sound starting from
    the parameters [newSound] of the host.  What the constructor does to
    the backend is left out: the gain node of Web Audio, and for HTML5
    Audio the node taken from the pool, its [error] and
    [canplaythrough] listeners and its [load()]. *)
Definition new_Sound (c : SoundConfig) : M nat :=
  h ← get;
  let a := length (heap h) in
  let sound := sound_of_config 0 c in
  modify (set_heap
            (heap h ++ [if masterMuted (howler h) || cfg_muted c || howl_muted h
                        then set_volume 0%Q sound else sound])) ;;
  id ← register a;
  update a (fun s => mkSound id (_paused s) (_ended s) (_sprite s) (_seek s)
                       (_rateSeek s) (_start s) (_stop s) (_loop s) (_rate s)
                       (_volume s) (_muted s) (_interval s) (_fadeTo s)
                       (_playStart s) (_node s) (configCopy s)) ;;
  ret a.

(** [Sound.reset()], bridged like the construction: the parameters that
    [getObjectCopy] copied at construction (muted, loop, volume, rate,
    seek, rateSeek, paused, ended, sprite) are assigned back, as the
    docstring of the method says; the id is kept, its regeneration being
    commented out.  As written, the method calls [exchangeObject] on the
    plain copy that the [config] getter of [Sound] hands out, which has no
    such method. *)
Definition reset (s : Sound) : Sound :=
  let c := configCopy s in
  mkSound (_id s) (cfg_paused c) (cfg_ended c) (cfg_sprite c) (Some (cfg_seek c))
    (Some (cfg_rateSeek c)) (_start s) (_stop s) (cfg_loop c) (cfg_rate c)
    (cfg_volume c) (cfg_muted c) (_interval s) (_fadeTo s) (_playStart s)
    (_node s) c.

(** ** Lookups *)

(** [_soundById]: the [forEach] compares the array INDEX with [id]. *)
Definition _soundById (id : option nat) (h : Howl) : option nat :=
  foldl (fun foundSound '(index, sound) =>
           if decide (Some index = id) then Some sound else foundSound)
        None (imap pair (_sounds h)).

(** [_getSoundIds(id = null)]: a truthy [id] yields every sound's [_id],
    anything else yields [[id]]. *)
Definition _getSoundIds (id : option nat) : M (list (option nat)) :=
  if truthy id then
    h ← get;
    foldl (fun acc sound => ids ← acc; s ← deref sound; ret (ids ++ [Some (_id s)]))
          (ret []) (_sounds h)
  else ret [id].

(** [_clearTimer(id)] *)
Definition _clearTimer (id : option nat) : M unit :=
  match id with
  | Some i => modify (fun h => set_endTimers (delete i (_endTimers h)) h)
  | None => ret tt
  end.

(** ** Pool eviction: [_drain] and [_inactiveSound] *)

(** The reverse [for] loop of [_drain]; [n] is [i + 1]. *)
Fixpoint _drain_loop (n : nat) (limit count : Z) : M unit :=
  match n with
  | O => ret tt
  | S i =>
    if (count <=? limit)%Z then ret tt                       (* return *)
    else
      h ← get;
      match _sounds h !! i with
      | None => throw                                        (* this._sounds[i] is undefined *)
      | Some a =>
        s ← deref a;
        if _ended s then
          when (_webAudio h) (log_backend (BDisconnect a)) ;;
          modify (fun h => set_sounds (delete i (_sounds h)) h) ;;  (* splice(i, 1) *)
          _drain_loop i limit (count - 1)%Z
        else _drain_loop i limit count
      end
  end.

(** Counting the ended sounds with [forEach]. *)
Definition count_ended (h : Howl) : M Z :=
  foldl (fun acc sound =>
           count ← acc; s ← deref sound;
           ret (if _ended s then (count + 1)%Z else count))
        (ret 0%Z) (_sounds h).

Definition _drain : M unit :=
  h ← get;
  let limit := _pool h in
  if (Z.of_nat (length (_sounds h)) <? limit)%Z then ret tt
  else
    count ← count_ended h;
    _drain_loop (length (_sounds h)) limit count.

(** The first sound with [_ended] set, in array order. *)
Fixpoint first_ended (heap : list Sound) (sounds : list nat) : option nat :=
  match sounds with
  | [] => None
  | a :: rest =>
    match heap !! a with
    | Some s => if _ended s then Some a else first_ended heap rest
    | None => first_ended heap rest
    end
  end.

(** [_inactiveSound()]: evict, then recycle the first ended sound of the
    array or construct one; both rest on the bridged [reset] and
    [new_Sound]. *)
Definition _inactiveSound : M nat :=
  _drain ;;
  h ← get;
  match first_ended (heap h) (_sounds h) with
  | Some a => update a reset ;; ret a
  | None => new_Sound (newSound (howler h))
  end.

(** ** Values and calls *)

Inductive Value : Type :=
| VUndefined
| VNull
| VSelf                  (* the group itself, for chaining *)
| VId (id : nat)
| VNum (q : Q)
| VNaN
| VBool (b : bool).

(** The entry points of the group: the public methods, the internal
    procedures they share, and the callbacks the host fires. *)
Inductive Call : Type :=
| CPlay (arg : PlayArg) (internal : bool)
| CPause (id : option nat) (silent : bool)
| CStop (id : option nat) (internal : bool)
| CMute (muted : option bool) (id : option nat)
| CVolume (vol : option Q) (id : option nat) (keepFade : bool)
| CRate (rate : Q) (id : option nat)
| CSeek (args : SeekArgs)
| CFade (from to len : Q) (id : option nat)
| CStopFade (id : option nat)
| CEmit (ev : EventName) (id : option nat) (msg : Message)
| CLoadQueue (ev : option EventName)
| CEnded (sound : nat)
| CLoad
| CFire (k : nat) (ok : bool).          (* the host runs the callback [pending[k]] *)

(** The call a queued closure makes when it runs. *)
Definition call_of_action (a : Action) : Call :=
  match a with
  | APlay arg => CPlay arg false
  | APause id => CPause id false
  | AStop id => CStop id false
  | AMute muted id => CMute muted id
  | AVolume vol id keepFade => CVolume vol id keepFade
  | ARate rate id => CRate rate id
  | ASeek args => CSeek args
  | AFade from to len id => CFade from to len id
  end.

(** ** Arithmetic of the source *)

Definition Qltb (a b : Q) : bool := negb (Qle_bool b a).

(** [a / b] on JavaScript numbers, for a dividend that is not negative. *)
Definition js_div (a b : Q) : Delay :=
  if Qeq_bool b 0%Q then (if Qeq_bool a 0%Q then NotANumber else Infinity)
  else Finite (a / b)%Q.

(** [Math.max(a, b)] and [Math.min(a, b)] *)
Definition Qmax (a b : Q) : Q := if Qle_bool a b then b else a.
Definition Qmin (a b : Q) : Q := if Qle_bool a b then a else b.

Definition default_sprite : string := "__default"%string.

(** [self._sprite[sprite]], throwing when a field of [undefined] is read.
    For a name that the table inherits from [Object.prototype] the source
    reads a function and goes on with [undefined] bounds; such names are
    not sprites here. *)
Definition sprite_of (sprite : option string) : M Sprite :=
  h ← get;
  match sprite ≫= (fun name => howl_sprite h !! name) with
  | Some sp => ret sp
  | None => throw
  end.

(** [self._sprite[sprite][0] / 1000] *)
Definition sprite_start (sp : Sprite) : Q := (sp_offset sp / 1000)%Q.

(** [(self._sprite[sprite][0] + self._sprite[sprite][1]) / 1000] *)
Definition sprite_stop (sp : Sprite) : Q := ((sp_offset sp + sp_length sp) / 1000)%Q.

(** The start position [play] computes:
    [Math.max(0, sound._seek > 0 ? sound._seek : self._sprite[sprite][0] / 1000)]. *)
Definition play_seek (sound : Sound) (sp : Sprite) : Q :=
  Qmax 0%Q (match _seek sound with
            | Some q => if Qltb 0%Q q then q else sprite_start sp
            | None => sprite_start sp
            end).

(** [x || '__default'] on a sprite name. *)
Definition or_default (sprite : option string) : option string :=
  match sprite with
  | None | Some EmptyString => Some default_sprite
  | _ => sprite
  end.

(** [playing(id)] *)
Definition playing (id : option nat) (h : Howl) : bool :=
  match id with
  | Some _ =>
    match _soundById id h ≫= (fun a => heap h !! a) with
    | Some sound => negb (_paused sound)
    | None => false
    end
  | None =>
    existsb (fun a => match heap h !! a with
                      | Some sound => negb (_paused sound)
                      | None => false
                      end) (_sounds h)
  end.

(** [_cleanBuffer(node)] and [_refreshBuffer(sound)] on the node model. *)
Definition _cleanBuffer (a : nat) : M unit :=
  update_node a (set_bufferSource false).

Definition _refreshBuffer (a : nat) : M unit :=
  update_node a (set_bufferSource true).

Definition arm_timer (id : nat) (t : Timer) : M unit :=
  modify (fun h => set_endTimers (<[id := t]> (_endTimers h)) h).

Definition is_loaded (h : Howl) : bool := bool_decide (_state h = loaded).

(** The guard of every control call:
    [self._state !== 'loaded' || self._playLock]. *)
Definition must_wait (h : Howl) : bool := negb (is_loaded h) || _playLock h.

(** ** Extension of a source, as [load] extracts it *)

Definition lower_ascii (c : ascii) : ascii :=
  let n := nat_of_ascii c in
  if (65 <=? n) && (n <=? 90) then ascii_of_nat (n + 32) else c.

(** [s.toLowerCase()] on the ASCII letters. *)
Fixpoint toLowerCase (s : string) : string :=
  match s with
  | EmptyString => EmptyString
  | String c s' => String (lower_ascii c) (toLowerCase s')
  end.

(** [s] starts with [p], letters compared without case: the rest of [s]. *)
Fixpoint strip_prefix_ci (p s : string) : option string :=
  match p, s with
  | EmptyString, _ => Some s
  | String a p', String b s' =>
    if Ascii.eqb (lower_ascii a) (lower_ascii b) then strip_prefix_ci p' s' else None
  | String _ _, EmptyString => None
  end.

(** The longest prefix of characters other than [;] and [,], and the rest. *)
Fixpoint span_media (s : string) : string * string :=
  match s with
  | EmptyString => (EmptyString, EmptyString)
  | String c s' =>
    if Ascii.eqb c ";"%char || Ascii.eqb c ","%char then (EmptyString, s)
    else let '(m, r) := span_media s' in (String c m, r)
  end.

(** [/^data:audio\/([^;,]+);/i.exec(str)], the captured group. *)
Definition data_uri_ext (str : string) : option string :=
  match strip_prefix_ci "data:audio/"%string str with
  | None => None
  | Some rest =>
    match span_media rest with
    | (EmptyString, _) => None
    | (m, String c _) => if Ascii.eqb c ";"%char then Some m else None
    | (_, EmptyString) => None
    end
  end.

(** [str.split('?', 1)[0]] *)
Fixpoint before_query (s : string) : string :=
  match s with
  | EmptyString => EmptyString
  | String c s' => if Ascii.eqb c "?"%char then EmptyString else String c (before_query s')
  end.

Fixpoint has_dot (s : string) : bool :=
  match s with
  | EmptyString => false
  | String c s' => Ascii.eqb c "."%char || has_dot s'
  end.

(** [/\.([^.]+)$/.exec(s)], the captured group: what follows the last dot,
    when there is a dot and something follows it. *)
Fixpoint after_last_dot (s : string) : option string :=
  match s with
  | EmptyString => None
  | String c s' =>
    if Ascii.eqb c "."%char && negb (has_dot s') then
      match s' with
      | EmptyString => None
      | _ => Some s'
      end
    else after_last_dot s'
  end.

(** The extension of one candidate: the explicit format if there is one,
    else the data-URI media type, else the path suffix, in lower case.
    The inner [None] is "no extension found"; the outer [None] is the
    non-string source that is reported and skipped. *)
Definition source_ext (src : Source) : option (option string) :=
  match src_format src with
  | Some (String c f) => Some (Some (String c f))
  | _ =>
    match src_url src with
    | None => None
    | Some str =>
      Some (toLowerCase <$>
              match data_uri_ext str with
              | Some e => Some e
              | None => after_last_dot (before_query str)
              end)
    end
  end.

(** ** Method bodies

    [rec] is the group's dispatcher: a call of one method from another goes
    through it. *)

Section Methods.
Variable rec : Call -> M Value.

(** [_emit(event, id, msg)].  In the source the loop over the listeners
    of the event comes first: for each listener whose id matches, it
    schedules the listener with [setTimeout] and then reads
    [events[i].once] with an [i] that is declared nowhere, which throws a
    ReferenceError before [_loadQueue(event)] is reached.  The listeners
    are not part of the group state here, and this definition is the
    emission in a group where no listener of the event matches: the
    emission is recorded, then the event is passed to the load queue.
    A statement about a method that emits is therefore given as an
    equation whose right-hand side still runs the emission, or as a
    property that holds whether the emission returns or throws, unless it
    is about a group without listeners. *)
Definition _emit (ev : EventName) (id : option nat) (msg : Message) : M Value :=
  modify (fun h => set_emitted (emitted h ++ [mkEmitted ev id msg]) h) ;;
  rec (CLoadQueue (Some ev)) ;;
  ret VSelf.

(** [_loadQueue(event)] *)
Definition _loadQueue (ev : option EventName) : M Value :=
  h ← get;
  match _queue h with
  | [] => ret VSelf
  | task :: rest =>
    (* Remove this task if a matching event was passed. *)
    (if decide (Some (event task) = ev) then
       modify (set_queue rest) ;;                (* this._queue.shift() *)
       rec (CLoadQueue None) ;;
       ret tt
     else ret tt) ;;
    (* Run the task if no event type is passed. *)
    (if decide (ev = None) then
       modify (fun h => set_ran (ran h ++ [stamp task]) h) ;;
       rec (call_of_action (action task)) ;;
       ret tt
     else ret tt) ;;
    ret VSelf
  end.

(** [_stopFade(id)] *)
Definition _stopFade (id : option nat) : M Value :=
  h ← get;
  match _soundById id h with
  | None => ret VSelf
  | Some a =>
    sound ← deref a;
    match _interval sound with
    | None => ret VSelf
    | Some _ =>
      when (_webAudio h) (log_backend (BCancelRamp a)) ;;
      update a (set_interval None) ;;              (* clearInterval *)
      rec (CVolume (_fadeTo sound) id false) ;;
      update a (set_fadeTo None) ;;
      rec (CEmit Efade id MsgNone) ;;
      ret VSelf
    end
  end.

(** [volume(vol, id, keepFade)], the forms with at least one argument;
    [vol = None] is [NaN]. *)
Definition volume (vol : option Q) (id : option nat) (keepFade : bool) : M Value :=
  h ← get;
  match vol with
  | Some v =>
    if Qle_bool 0%Q v && Qle_bool v 1%Q then
      if must_wait h then
        enqueue (AVolume vol id keepFade) ;; ret VSelf
      else
        when (bool_decide (id = None)) (modify (set_howl_volume v)) ;;
        ids ← _getSoundIds id;
        for_each ids (fun index =>
          h ← get;
          match _soundById index h with
          | None => ret tt
          | Some a =>
            update a (set_volume v) ;;
            when (negb keepFade) (rec (CStopFade index) ;; ret tt) ;;
            h ← get;
            sound ← deref a;
            (if _webAudio h && negb (_muted sound) then log_backend (BGain a v)
             else if negb (_muted sound)
                  then log_backend (BGain a (v * masterVolume (howler h))%Q)
                  else ret tt) ;;
            rec (CEmit Evolume (Some (_id sound)) MsgNone) ;;
            ret tt
          end) ;;
        ret VSelf
    else
      match (if truthy id then _soundById id h else _sounds h !! 0) ≫= (fun a => heap h !! a) with
      | Some sound => ret (VNum (_volume sound))
      | None => ret (VNum 0%Q)
      end
  | None =>
    match (if truthy id then _soundById id h else _sounds h !! 0) ≫= (fun a => heap h !! a) with
    | Some sound => ret (VNum (_volume sound))
    | None => ret (VNum 0%Q)
    end
  end.

(** [stop(id, internal)] *)
Definition stop (id : option nat) (internal : bool) : M Value :=
  h ← get;
  if must_wait h then
    enqueue (AStop id) ;; ret VSelf
  else
    ids ← _getSoundIds id;
    for_each ids (fun i =>
      _clearTimer i ;;
      h ← get;
      match _soundById i h with
      | None => ret tt
      | Some a =>
        update a (fun s => set_ended true (set_paused true
                    (set_rateSeek (Some 0%Q) (set_seek (Some (_start s)) s)))) ;;
        rec (CStopFade i) ;;
        h ← get;
        sound ← deref a;
        (if _webAudio h then
           if bufferSource (_node sound) then
             log_backend (BStopSource a) ;; _cleanBuffer a
           else ret tt
         else if hasDuration (_node sound) then
           update_node a (fun n => set_nd_paused true (set_currentTime (_start sound) n)) ;;
           log_backend (BNodePause a)
         else ret tt) ;;
        when (negb internal) (rec (CEmit Estop (Some (_id sound)) MsgNone) ;; ret tt)
      end) ;;
    ret VSelf.

(** [_ended(sound)], the end-of-playback procedure.  (The bare name is
    taken by the property [sound._ended].) *)
Definition Howl_ended (a : nat) : M Value :=
  h ← get;
  sound ← deref a;
  let sprite := _sprite sound in
  if negb (_webAudio h) && negb (nd_paused (_node sound)) && negb (nd_ended (_node sound))
     && Qltb (currentTime (_node sound)) (_stop sound)
  then defer (CbEndedRetry a) ;; ret VSelf
  else
    (* Should this sound loop? *)
    loop ← (if _loop sound then ret true
            else sp ← sprite_of sprite; ret (sp_loop sp));
    rec (CEmit Eend (Some (_id sound)) MsgNone) ;;
    (* Restart the playback for HTML5 Audio loop. *)
    h ← get;
    when (negb (_webAudio h) && loop)
      (rec (CStop (Some (_id sound)) true) ;;
       rec (CPlay (PId (_id sound)) false) ;; ret tt) ;;
    (* Restart this timer if on a Web Audio loop. *)
    h ← get;
    when (_webAudio h && loop)
      (rec (CEmit Eplay (Some (_id sound)) MsgNone) ;;
       h ← get;
       s ← deref a;
       update a (fun s => set_playStart (ctxTime (howler h))
                   (set_rateSeek (Some 0%Q) (set_seek (Some (_start s)) s))) ;;
       arm_timer (_id sound)
         (TimeoutTimer a (js_div ((_stop s - _start s) * 1000)%Q (Qabs (_rate s))))) ;;
    (* Mark the node as paused. *)
    h ← get;
    when (_webAudio h && negb loop)
      (update a (fun s => set_rateSeek (Some 0%Q) (set_seek (Some (_start s))
                   (set_ended true (set_paused true s)))) ;;
       _clearTimer (Some (_id sound)) ;;
       _cleanBuffer a ;;
       log_backend BAutoSuspend) ;;
    (* When using a sprite, end the track. *)
    h ← get;
    when (negb (_webAudio h) && negb loop)
      (rec (CStop (Some (_id sound)) true) ;; ret tt) ;;
    ret VSelf.

(** The closure [setParams] of [play]. *)
Definition setParams (c : PlayClosure) : M unit :=
  update (pc_sound c) (fun s =>
    set_stop (pc_stop c) (set_start (pc_start c)
      (set_seek (Some (pc_seek c)) (set_paused false s)))) ;;
  s ← deref (pc_sound c);
  loop ← (if _loop s then ret true
          else sp ← sprite_of (pc_sprite c); ret (sp_loop sp));
  update (pc_sound c) (set_loop loop).

(** The closure [playWebAudio] of [play]. *)
Definition playWebAudio (c : PlayClosure) : M unit :=
  let a := pc_sound c in
  modify (set_playLock false) ;;
  setParams c ;;
  _refreshBuffer a ;;
  h ← get;
  s ← deref a;
  log_backend (BGain a (if _muted s || howl_muted h then 0%Q else _volume s)) ;;
  update a (set_playStart (ctxTime (howler h))) ;;
  log_backend (BStart a (pc_seek c) (if _loop s then 86400%Q else pc_duration c)) ;;
  (* Start a new timer if none is present. *)
  match pc_timeout c with
  | Infinity => ret tt
  | t => arm_timer (_id s) (TimeoutTimer a t)
  end ;;
  when (negb (pc_internal c)) (defer (CbEmitPlay (_id s))).

(** The closure [playHtml5] of [play]. *)
Definition playHtml5 (c : PlayClosure) : M unit :=
  let a := pc_sound c in
  h ← get;
  s ← deref a;
  update_node a (set_currentTime (pc_seek c)) ;;
  log_backend (BMute a (_muted s || howl_muted h || masterMuted (howler h))) ;;
  log_backend (BGain a (_volume s * masterVolume (howler h))%Q) ;;
  log_backend (BRate a (_rate s)) ;;
  try_catch
    (match nodePlay (howler h) with
     | PlayThrows => throw
     | PlayPromise =>
       log_backend (BNodePlay a) ;;
       update_node a (set_nd_paused (playBlocked (howler h))) ;;
       modify (set_playLock true) ;;
       setParams c ;;
       defer (CbPromise c)
     | PlayPlain =>
       log_backend (BNodePlay a) ;;
       update_node a (set_nd_paused (playBlocked (howler h))) ;;
       when (negb (pc_internal c))
         (modify (set_playLock false) ;;
          setParams c ;;
          rec (CEmit Eplay (Some (_id s)) MsgNone) ;;
          rec (CLoadQueue None) ;;
          ret tt)
     end ;;
     s ← deref a;
     log_backend (BRate a (_rate s)) ;;
     (* If the node is still paused, there was a playback issue. *)
     if nd_paused (_node s) then
       rec (CEmit Eplayerror (Some (_id s)) MsgPlayback) ;; ret tt
     else if negb (bool_decide (pc_sprite c = Some default_sprite)) || _loop s then
       arm_timer (_id s) (TimeoutTimer a (pc_timeout c))
     else
       arm_timer (_id s) (EndedListener a))
    (rec (CEmit Eplayerror (Some (_id s)) MsgException) ;; ret tt).

(** The paused sounds that are not ended, as the counting loop of
    [play()] meets them. *)
Definition resumable (h : Howl) : list Sound :=
  filter (fun s => _paused s && negb (_ended s))
         (omap (fun a => heap h !! a) (_sounds h)).

(** The property names every object literal inherits from
    [Object.prototype]: reading one of them on the sprite table yields a
    function (or, for [__proto__], the prototype), not [undefined]. *)
Definition inherited_name (name : string) : bool :=
  bool_decide (name ∈ ["constructor"; "hasOwnProperty"; "isPrototypeOf";
                       "propertyIsEnumerable"; "toLocaleString"; "toString";
                       "valueOf"; "__proto__"; "__defineGetter__";
                       "__defineSetter__"; "__lookupGetter__";
                       "__lookupSetter__"]%string).

(** [!self._sprite[sprite]]: the table is a plain object, so the test
    fails on its own entries (arrays) and on the inherited names. *)
Definition no_sprite (h : Howl) (name : string) : bool :=
  bool_decide (howl_sprite h !! name = None) && negb (inherited_name name).

(** The head of [play(sprite, internal)]: which sound and which sprite
    the call is about.  [None] is the early [return null]. *)
Definition play_target (arg : PlayArg) : M (option (option nat * nat * option string)) :=
  h ← get;
  (* Determine if a sprite, sound id or nothing was passed. *)
  match
    match arg with
    | PId n => Some (Some n, None)
    | PSprite name =>
      if is_loaded h && no_sprite h name
      then None                                    (* return null *)
      else Some (None, Some name)
    | PNone =>
      if negb (_playLock h) then
        match resumable h with
        | [s] => Some (Some (_id s), None)
        | _ => Some (None, Some default_sprite)
        end
      else Some (None, Some default_sprite)
    end
  with
  | None => ret None
  | Some (id, sprite) =>
    (* Get the selected node, or get one from the pool. *)
    found ← (if truthy id then ret (_soundById id h)
             else a ← _inactiveSound; ret (Some a));
    match found with
    | None => ret None                             (* return null *)
    | Some a =>
      sound ← deref a;
      (* Select the sprite definition. *)
      ret (Some (id, a,
                 if truthy id && bool_decide (sprite = None)
                 then or_default (_sprite sound) else sprite))
    end
  end.

(** [play(sprite, internal)] *)
Definition play (arg : PlayArg) (internal : bool) : M Value :=
  target ← play_target arg;
  match target with
  | None => ret VNull
  | Some (id, a, sprite) =>
    sound ← deref a;
    h ← get;
    if negb (is_loaded h) then
      (* Wait for the load: remember the sprite, queue the call. *)
      update a (fun s => set_ended false (set_sprite sprite s)) ;;
      enqueue (APlay (PId (_id sound))) ;;
      ret (VId (_id sound))
    else if truthy id && negb (_paused sound) then
      (* Already playing: only keep the queue stepping. *)
      when (negb internal) (rec (CLoadQueue (Some Eplay)) ;; ret tt) ;;
      ret (VId (_id sound))
    else
      when (_webAudio h) (log_backend BAutoResume) ;;
      (* Determine how long to play for and where to start playing. *)
      sp ← sprite_of sprite;
      let seek := play_seek sound sp in
      let duration := Qmax 0%Q (sprite_stop sp - seek)%Q in
      let timeout := js_div (duration * 1000)%Q (Qabs (_rate sound)) in
      let start := sprite_start sp in
      let stop := sprite_stop sp in
      update a (fun s => set_ended false (set_sprite sprite s)) ;;
      let c := mkPlayClosure a sprite seek duration timeout start stop internal in
      (* End the sound instantly if seek is at the end. *)
      if Qle_bool stop seek then
        rec (CEnded a) ;; ret VUndefined
      else
        h ← get;
        (if _webAudio h then
           if ctxRunning (howler h) then playWebAudio c
           else
             modify (set_playLock true) ;;
             defer (CbResume c) ;;
             _clearTimer (Some (_id sound))
         else
           if isReady (_node sound) then playHtml5 c
           else
             modify (set_playLock true) ;;
             defer (CbCanPlay c) ;;
             _clearTimer (Some (_id sound))) ;;
        ret (VId (_id sound))
  end.

(** The number a call handed back, as stored into a numeric property. *)
Definition num_of (v : Value) : option Q :=
  match v with
  | VNum q => Some q
  | _ => None
  end.

Definition Q_of_id (id : option nat) : Q :=
  match id with
  | Some n => inject_Z (Z.of_nat n)
  | None => 0%Q
  end.

(** [pause(id, silent)]; [silent] is [arguments[1]]. *)
Definition pause (id : option nat) (silent : bool) : M Value :=
  h ← get;
  if must_wait h then
    enqueue (APause id) ;; ret VSelf
  else
    ids ← _getSoundIds id;
    for_each ids (fun i =>
      _clearTimer i ;;
      h ← get;
      match _soundById i h with
      | None =>
        when (negb silent) (rec (CEmit Epause None MsgNone) ;; ret tt)
      | Some a =>
        sound ← deref a;
        skip ←
          (if negb (_paused sound) then
             (* Reset the seek position. *)
             v ← rec (CSeek (Seek1 (Q_of_id i)));
             update a (fun s => set_paused true (set_rateSeek (Some 0%Q)
                         (set_seek (num_of v) s))) ;;
             rec (CStopFade i) ;;
             h ← get;
             s ← deref a;
             if _webAudio h then
               if negb (bufferSource (_node s)) then ret true          (* continue *)
               else log_backend (BStopSource a) ;; _cleanBuffer a ;; ret false
             else if hasDuration (_node s) then
               update_node a (set_nd_paused true) ;;
               log_backend (BNodePause a) ;; ret false
             else ret false
           else ret false);
        when (negb skip && negb silent)
          (rec (CEmit Epause (Some (_id sound)) MsgNone) ;; ret tt)
      end) ;;
    ret VSelf.

(** The closure [seekAndEmit] of [seek]. *)
Definition seekAndEmit (id : nat) (wasPlaying : bool) : M unit :=
  rec (CEmit Eseek (Some id) MsgNone) ;;
  when wasPlaying (rec (CPlay (PId id) true) ;; ret tt).

(** [seek(...)] *)
Definition seek (args : SeekArgs) : M Value :=
  h ← get;
  let first_id : M (option nat) :=
    match _sounds h !! 0 with
    | Some a => s ← deref a; ret (Some (_id s))
    | None => throw                              (* self._sounds[0] is undefined *)
    end in
  target ←
    match args with
    | Seek0 => id ← first_id; ret (id, None)
    | Seek1 x =>
      (* _getSoundIds() is [null]: the argument is never found in it *)
      if bool_decide (_sounds h = []) then ret (None, None)
      else id ← first_id; ret (id, Some x)
    | Seek2 x id => ret (Some id, Some x)
    end;
  match target with
  | (None, _) => ret VSelf
  | (Some id, position) =>
    if must_wait h then
      enqueue (ASeek args) ;; ret VSelf
    else
      match _soundById (Some id) h with
      | None => ret VSelf
      | Some a =>
        sound ← deref a;
        match position with
        | Some x =>
          if Qle_bool 0%Q x then
            (* Pause the sound and update position for restarting playback. *)
            let wasPlaying := playing (Some id) h in
            when wasPlaying (rec (CPause (Some id) true) ;; ret tt) ;;
            update a (fun s => set_ended false (set_seek (Some x) s)) ;;
            _clearTimer (Some id) ;;
            h ← get;
            s ← deref a;
            when (negb (_webAudio h) && hasDuration (_node s))
              (update_node a (set_currentTime x)) ;;
            (if wasPlaying && negb (_webAudio h)
             then defer (CbEmitSeek id wasPlaying)
             else seekAndEmit id wasPlaying) ;;
            ret VSelf
          else
            if _webAudio h then
              let realTime := if playing (Some id) h
                              then (ctxTime (howler h) - _playStart sound)%Q else 0%Q in
              match _seek sound, _rateSeek sound with
              | Some sk, Some rs =>
                let rateSeek := if Qeq_bool rs 0%Q then 0%Q else (rs - sk)%Q in
                ret (VNum (sk + (rateSeek + realTime * Qabs (_rate sound)))%Q)
              | _, _ => ret VNaN
              end
            else ret (VNum (currentTime (_node sound)))
        | None =>
          if _webAudio h then
            let realTime := if playing (Some id) h
                            then (ctxTime (howler h) - _playStart sound)%Q else 0%Q in
            match _seek sound, _rateSeek sound with
            | Some sk, Some rs =>
              let rateSeek := if Qeq_bool rs 0%Q then 0%Q else (rs - sk)%Q in
              ret (VNum (sk + (rateSeek + realTime * Qabs (_rate sound)))%Q)
            | _, _ => ret VNaN
            end
          else ret (VNum (currentTime (_node sound)))
        end
      end
  end.

(** [rate(rate)] and [rate(rate, id)] *)
Definition rate (r : Q) (id : option nat) : M Value :=
  h ← get;
  if must_wait h then
    enqueue (ARate r id) ;; ret VSelf
  else
    when (bool_decide (id = None)) (modify (set_howl_rate r)) ;;
    ids ← _getSoundIds id;
    for_each ids (fun index =>
      h ← get;
      match _soundById index h with
      | None => ret tt
      | Some a =>
        when (playing index h)
          (v ← rec (CSeek (Seek1 (Q_of_id index)));
           h ← get;
           update a (fun s => set_playStart
                       (if _webAudio h then ctxTime (howler h) else _playStart s)
                       (set_rateSeek (num_of v) s))) ;;
        update a (set_rate r) ;;
        log_backend (BRate a r) ;;
        (* Reset the timers. *)
        v ← rec (CSeek (Seek1 (Q_of_id index)));
        sound ← deref a;
        sp ← sprite_of (_sprite sound);
        let timeout :=
          match num_of v with
          | Some sk => js_div ((((sp_offset sp + sp_length sp) / 1000) - sk) * 1000)%Q
                              (Qabs (_rate sound))
          | None => NotANumber
          end in
        h ← get;
        when (bool_decide (is_Some (index ≫= (fun i => _endTimers h !! i)))
              || negb (_paused sound))
          (_clearTimer index ;;
           match index with
           | Some i => arm_timer i (TimeoutTimer a timeout)
           | None => ret tt
           end) ;;
        rec (CEmit Erate (Some (_id sound)) MsgNone) ;;
        ret tt
      end) ;;
    ret VSelf.

(** [mute(muted, id)].  The loop binds [sound] to an ID of [ids], and a
    module is strict code: assigning [sound._muted] on a number throws. *)
Definition mute (muted : option bool) (id : option nat) : M Value :=
  h ← get;
  if must_wait h then
    enqueue (AMute muted id) ;; ret VSelf
  else
    match id, muted with
    | None, None => ret (VBool (howl_muted h))
    | _, _ =>
      when (bool_decide (id = None))
        (modify (set_howl_muted (default false muted))) ;;
      ids ← _getSoundIds id;
      for_each ids (fun sound => if truthy sound then throw else ret tt) ;;
      ret VSelf
    end.

(** [_startFadeInterval(sound, from, to, len, id, isGroup)]: the timer
    closure is stored in [sound._interval]; its ticks belong to the host. *)
Definition _startFadeInterval (a : nat) (from to len : Q) (isGroup : bool) : M unit :=
  let diff := (to - from)%Q in
  let steps := Qabs (diff / (1 # 100))%Q in
  let stepLen := Qmax 4%Q (if Qltb 0%Q steps then (len / steps)%Q else len) in
  update a (fun s => set_interval (Some (mkFade from to len from isGroup stepLen))
                       (set_fadeTo (Some to) s)).

(** [fade(from, to, len, id)] *)
Definition fade (from to len : Q) (id : option nat) : M Value :=
  h ← get;
  if must_wait h then
    enqueue (AFade from to len id) ;; ret VSelf
  else
    (* Make sure the to/from/len values are numbers. *)
    let from := Qmin (Qmax 0%Q from) 1%Q in
    let to := Qmin (Qmax 0%Q to) 1%Q in
    (* Set the volume to the start position. *)
    rec (CVolume (Some from) id false) ;;
    (* Fade the volume of one or all sounds. *)
    ids ← _getSoundIds id;
    for_each ids (fun index =>
      h ← get;
      match _soundById index h with
      | None => ret tt
      | Some a =>
        when (negb (truthy id)) (rec (CStopFade index) ;; ret tt) ;;
        h ← get;
        sound ← deref a;
        when (_webAudio h && negb (_muted sound))
          (update a (set_volume from) ;;
           log_backend (BGain a from) ;;
           log_backend (BRamp a to len)) ;;
        _startFadeInterval a from to len (bool_decide (id = None))
      end) ;;
    ret VSelf.

(** The scan of [load] over the candidates: the first one whose extension
    the backend supports.  A non-string candidate is reported and skipped. *)
Fixpoint pick_source (l : list Source) : M (option Source) :=
  match l with
  | [] => ret None
  | src :: rest =>
    match source_ext src with
    | None =>
      rec (CEmit Eloaderror None MsgNonString) ;; pick_source rest   (* continue *)
    | Some ext =>
      h ← get;
      match ext with
      | Some e => if codecs (howler h) e then ret (Some src) else pick_source rest
      | None => pick_source rest
      end
    end
  end.

(** [load()], in the legacy method block (the later of the two definitions
    of the class).  The earlier one has the same no-audio guard, the same
    scan and the same two reports. *)
Definition load : M Value :=
  h ← get;
  (* If no audio is available, quit immediately. *)
  if noAudio (howler h) then
    rec (CEmit Eloaderror None MsgNoAudio) ;; ret VUndefined
  else
    picked ← pick_source (_src h);
    match picked ≫= (fun src => match src_url src with
                                 | Some EmptyString => None     (* !url *)
                                 | u => Some u
                                 end) with
    | None =>
      rec (CEmit Eloaderror None MsgNoCodec) ;; ret VUndefined
    | Some url =>
      modify (fun h => set_state loading (set_url url h)) ;;
      h ← get;
      (* Drop down to HTML5 Audio to avoid Mixed Content errors. *)
      (if pageIsHttps (howler h) then
         match url with
         | None => throw                            (* url.slice is not a function *)
         | Some u =>
           when (bool_decide (substring 0 5 u = "http:"%string))
             (modify (fun h => set_webAudio false (set_html5 true h)))
         end
       else ret tt) ;;
      (* Create a new sound object and add it to the pool. *)
      h ← get;
      new_Sound (newSound (howler h)) ;;
      h ← get;
      when (_webAudio h) (log_backend BLoadBuffer) ;;
      ret VSelf
    end.

(** A deferred callback of [pending] runs; [ok] tells whether the promise
    of [node.play()] resolved. *)
Definition fire (cb : Callback) (ok : bool) : M Value :=
  match cb with
  | CbResume c => playWebAudio c ;; ret VUndefined
  | CbCanPlay c =>
    (* the host fires canplaythrough once the node has data and a duration *)
    update_node (pc_sound c) (fun n => set_isReady true (set_hasDuration true n)) ;;
    playHtml5 c ;; ret VUndefined
  | CbPromise c =>
    s ← deref (pc_sound c);
    let rejected :=
      modify (set_playLock false) ;;
      rec (CEmit Eplayerror (Some (_id s)) MsgPlayback) ;;
      (* Reset the ended and paused values. *)
      update (pc_sound c) (fun s => set_paused true (set_ended true s)) in
    (if ok then
       (* play.then(...).catch(...): the handler of [catch] also runs when
          the handler of [then] throws *)
       try_catch
         (modify (set_playLock false) ;;
          when (negb (pc_internal c))
            (rec (CEmit Eplay (Some (_id s)) MsgNone) ;;
             rec (CLoadQueue None) ;; ret tt))
         rejected
     else rejected) ;;
    ret VUndefined
  | CbEmitPlay id =>
    rec (CEmit Eplay (Some id) MsgNone) ;;
    rec (CLoadQueue None) ;;
    ret VUndefined
  | CbEndedRetry a => rec (CEnded a)
  | CbEmitSeek id wasPlaying =>
    h ← get;
    (if negb (_playLock h) then seekAndEmit id wasPlaying
     else defer (CbEmitSeek id wasPlaying)) ;;
    ret VUndefined
  end.

(** The dispatcher: one step of the call graph. *)
Definition dispatch (c : Call) : M Value :=
  match c with
  | CPlay arg internal => play arg internal
  | CPause id silent => pause id silent
  | CStop id internal => stop id internal
  | CMute muted id => mute muted id
  | CVolume vol id keepFade => volume vol id keepFade
  | CRate r id => rate r id
  | CSeek args => seek args
  | CFade from to len id => fade from to len id
  | CStopFade id => _stopFade id
  | CEmit ev id msg => _emit ev id msg
  | CLoadQueue ev => _loadQueue ev
  | CEnded a => Howl_ended a
  | CLoad => load
  | CFire k ok =>
    h ← get;
    match pending h !! k with
    | Some cb => modify (set_pending (delete k (pending h))) ;; fire cb ok
    | None => ret VUndefined
    end
  end.

End Methods.

(** ** The group: every call, with its nested calls, up to [fuel] deep *)

Fixpoint exec (fuel : nat) (c : Call) : M Value :=
  match fuel with
  | O => fun _ => OutOfFuel
  | S n => dispatch (exec n) c
  end.

(** * Specification vocabulary *)

(** ** Sequences of calls *)

(** The calls of [cs] one after the other, each with [fuel] levels of
    nesting; the sequence stops at the first call that does not return. *)
Fixpoint run (fuel : nat) (cs : list Call) (h : Howl) : Outcome Value :=
  match cs with
  | [] => Normal VUndefined h
  | c :: cs' =>
    match exec fuel c h with
    | Normal v h' =>
      match cs' with
      | [] => Normal v h'
      | _ => run fuel cs' h'
      end
    | o => o
    end
  end.

(** ** Invariants of the method monad

    [preserves I m]: from a state satisfying [I], the computation [m] ends
    in a state satisfying [I], whether it returns or throws. *)

Definition ipost (I : Howl -> Prop) {A} (o : Outcome A) : Prop :=
  match o with
  | Normal _ h => I h
  | TypeError h => I h
  | OutOfFuel => True
  end.

Definition preserves (I : Howl -> Prop) {A} (m : M A) : Prop :=
  forall h, I h -> ipost I (m h).

(** ** The store is well formed: every address of [_sounds] is allocated *)

Definition heap_ok (h : Howl) : Prop :=
  Forall (fun a => a < length (heap h)) (_sounds h).

(** The sounds of the group, in array order. *)
Definition live (h : Howl) : list Sound :=
  omap (fun a => heap h !! a) (_sounds h).

(** ** Queue order

    Stamps grow with every [enqueue]; [fifo] says that the closures run so
    far ran in stamp order, and that everything still queued is stamped
    later than everything that ran. *)

Definition fifo (h : Howl) : Prop :=
  StronglySorted le (ran h) /\
  StronglySorted lt (map stamp (_queue h) ++ [nextStamp h]) /\
  (forall r s : nat, r ∈ ran h -> s ∈ map stamp (_queue h) -> r <= s) /\
  (forall r : nat, r ∈ ran h -> r < nextStamp h).

(** ** Backend playback starts *)

Definition is_start (op : BackendOp) : bool :=
  match op with
  | BStart _ _ _ | BNodePlay _ => true
  | _ => false
  end.

Definition starts (h : Howl) : list BackendOp := filter is_start (backend h).

(** A loaded group with nothing deferred and no play waiting to commit. *)
Definition quiet (h : Howl) : Prop :=
  _state h = loaded /\ _playLock h = false /\ _queue h = [].

(** The calls that stop, fade or report, as opposed to those that play. *)
Definition is_control (c : Call) : Prop :=
  match c with
  | CStop _ _ | CStopFade _ | CVolume _ _ _ | CEmit _ _ _ | CLoadQueue _ => True
  | _ => False
  end.

(** ** Pool eviction, as a specification

    Going through the sounds oldest first, keep every sound that has not
    ended and the first [k] that have. *)

Fixpoint retain (heap : list Sound) (k : nat) (sounds : list nat) : list nat :=
  match sounds with
  | [] => []
  | a :: rest =>
    match heap !! a with
    | Some s =>
      if _ended s then
        match k with
        | O => retain heap O rest
        | S k' => a :: retain heap k' rest
        end
      else a :: retain heap k rest
    | None => a :: retain heap k rest
    end
  end.

(** Whether the sound at address [a] has the property [p]. *)
Definition sound_has (p : Sound -> bool) (heap : list Sound) (a : nat) : bool :=
  match heap !! a with
  | Some s => p s
  | None => false
  end.

(** How many of the sounds [l] have the property [p]. *)
Definition count_sounds (p : Sound -> bool) (heap : list Sound) (l : list nat) : nat :=
  length (filter (fun a => sound_has p heap a = true) l).

(** The number of sounds of the group that have ended / are playing. *)
Definition ended_count (h : Howl) : nat := count_sounds _ended (heap h) (_sounds h).
Definition playing_count (h : Howl) : nat :=
  count_sounds (fun s => negb (_paused s)) (heap h) (_sounds h).

(** The pool size as a count: a negative limit keeps nothing. *)
Definition pool_size (h : Howl) : nat := Z.to_nat (Z.max 0 (_pool h)).

(** ** What a call leaves alone

    [same_control h0 h]: between [h0] and [h] nothing was queued, deferred,
    emitted, armed or started; only the store, the pool and backend calls
    that start nothing may differ. *)

Definition same_control (h0 h : Howl) : Prop :=
  _state h = _state h0 /\ _playLock h = _playLock h0 /\
  _queue h = _queue h0 /\ nextStamp h = nextStamp h0 /\ ran h = ran h0 /\
  pending h = pending h0 /\ emitted h = emitted h0 /\
  _endTimers h = _endTimers h0 /\ starts h = starts h0.

(** [calm h0 h]: the group is quiet, on the backend it had at [h0], and
    has started nothing since [h0]. *)
Definition calm (h0 h : Howl) : Prop :=
  quiet h /\ starts h = starts h0 /\ _webAudio h = _webAudio h0.

(** The sound [s] does not loop, neither by its own flag nor by its sprite. *)
Definition no_loop (h : Howl) (s : Sound) : Prop :=
  _loop s = false /\
  forall sp, (_sprite s ≫= fun name => howl_sprite h !! name) = Some sp -> sp_loop sp = false.

(** ** Source candidates *)

(** The backend supports no extension found in [src]. *)
Definition unsupported (hw : Howler) (src : Source) : Prop :=
  match source_ext src with
  | Some (Some ext) => codecs hw ext = false
  | _ => True
  end.

(** The [loaderror] reports of a failed scan: one per candidate that is not
    a string, then the final one. *)
Definition scan_reports (l : list Source) : list Emitted :=
  map (fun _ => mkEmitted Eloaderror None MsgNonString)
      (filter (fun src => source_ext src = None) l).


(** * Further vocabulary: loading, playback, invariants

    As in the method bodies above, a [self] that a method of the legacy
    block uses without declaring it ([_clearTimer], [_ended],
    [_inactiveSound], [off]) is read as the group, like the [self] the
    other methods bind to [this]. *)

(** The object [new Sound(howl, config)] leaves in the store, once
    [register] has handed back [id]. *)
Definition constructed (id : nat) (c : SoundConfig) (h : Howl) : Sound :=
  let s := sound_of_config id c in
  if masterMuted (howler h) || cfg_muted c || howl_muted h then set_volume 0%Q s else s.

(** The test of [load] for mixed content:
    [location.protocol === 'https:' && url.slice(0, 5) === 'http:']. *)
Definition mixed_content (h : Howl) (u : string) : bool :=
  pageIsHttps (howler h) && bool_decide (substring 0 5 u = "http:"%string).

(** A candidate given by its URL alone. *)
Definition url_source (u : string) : Source := mkSource None (Some u).

(** What [playWebAudio] makes of the sound it starts at time [now]. *)
Definition started (c : PlayClosure) (s : Sound) (sp : Sprite) (now : Q) (s0 : Sound) : Sound :=
  set_playStart now
    (set_node (set_bufferSource true (_node s0))
       (set_loop (_loop s || sp_loop sp)
          (set_stop (pc_stop c) (set_start (pc_start c)
             (set_seek (Some (pc_seek c)) (set_paused false s0)))))).

(** The closure variables [play] computes for the sound at [a]. *)
Definition play_closure (a : nat) (sprite : option string) (s : Sound) (sp : Sprite)
    (internal : bool) : PlayClosure :=
  let seek := play_seek s sp in
  let duration := Qmax 0%Q (sprite_stop sp - seek)%Q in
  mkPlayClosure a sprite seek duration (js_div (duration * 1000)%Q (Qabs (_rate s)))
    (sprite_start sp) (sprite_stop sp) internal.

(** The sound and the node once [playHtml5] has handed them to [node.play()]. *)
Definition cued (c : PlayClosure) (s0 : Sound) : Sound :=
  set_node (set_currentTime (pc_seek c) (_node s0)) s0.

(** The end timer [playHtml5] arms: a timeout on sprites and loops, else the
    [ended] listener of the node. *)
Definition html5_timer (c : PlayClosure) (s : Sound) : Timer :=
  if negb (bool_decide (pc_sprite c = Some default_sprite)) || _loop s
  then TimeoutTimer (pc_sound c) (pc_timeout c)
  else EndedListener (pc_sound c).

(** The state in which [play] leaves an HTML5 group whose node is ready and
    whose [node.play()] returned a promise. *)
Definition html5_pending (a : nat) (sprite : option string) (s : Sound) (sp : Sprite)
    (internal : bool) (h1 : Howl) : Howl :=
  let c := play_closure a sprite s sp internal in
  let loop := _loop s || sp_loop sp in
  set_endTimers (<[_id s := html5_timer c (set_loop loop s)]> (_endTimers h1))
    (set_pending (pending h1 ++ [CbPromise c])
       (set_playLock true
          (set_backend
             (backend h1 ++ [BMute a (_muted s || howl_muted h1 || masterMuted (howler h1));
                             BGain a (_volume s * masterVolume (howler h1))%Q;
                             BRate a (_rate s); BNodePlay a; BRate a (_rate s)])
             (set_heap
                (alter (fun s0 =>
                          set_loop loop
                            (set_stop (sprite_stop sp) (set_start (sprite_start sp)
                               (set_seek (Some (play_seek s sp)) (set_paused false
                                  (set_node (set_nd_paused false
                                               (set_currentTime (play_seek s sp) (_node s0)))
                                     (set_ended false (set_sprite sprite s0))))))))
                   a (heap h1)) h1)))).

(** The control calls that name no sound: [stop()], [mute(m)], [rate(r)],
    [volume(v)], [fade(from, to, len)]. *)
Definition untargeted (a : Action) : bool :=
  match a with
  | AStop None | AMute _ None | ARate _ None | AVolume _ None _ | AFade _ _ _ None => true
  | _ => false
  end.

(** What such a call changes: the default of the group. *)
Definition group_setting (a : Action) (h : Howl) : Howl :=
  match a with
  | AVolume (Some v) None _ =>
    if Qle_bool 0%Q v && Qle_bool v 1%Q then set_howl_volume v h else h
  | ARate r None => set_howl_rate r h
  | AMute (Some m) None => set_howl_muted m h
  | AFade from _ _ None => set_howl_volume (Qmin (Qmax 0%Q from) 1%Q) h
  | _ => h
  end.

(** A volume within [[0, 1]]. *)
Definition unit_volume (q : Q) : bool := Qle_bool 0%Q q && Qle_bool q 1%Q.

(** Every volume the group holds is within [[0, 1]]: its default, the one
    new sounds start from, and for every sound ever constructed its volume
    and the volume of its construction snapshot. *)
Definition volumes_ok (h : Howl) : Prop :=
  unit_volume (howl_volume h) = true /\
  unit_volume (cfg_volume (newSound (howler h))) = true /\
  Forall (fun s => unit_volume (_volume s) = true /\
                   unit_volume (cfg_volume (configCopy s)) = true) (heap h).

(** Every sound object of [h0] is still in the store of [h], with the id and
    the construction snapshot it had. *)
Definition keeps_ids (h0 h : Howl) : Prop :=
  forall a s0, heap h0 !! a = Some s0 ->
    exists s, heap h !! a = Some s /\ _id s = _id s0 /\ configCopy s = configCopy s0.

(** * The configuration classes [SoundConfig] and [HowlConfig] *)

(** A JavaScript value held by a property: the casts of the setters
    ([value as boolean]) are erased at run time, so any value fits. *)
Inductive JsValue : Type :=
| JUndefined
| JNull
| JBool (b : bool)
| JNumber (q : Q)
| JString (s : string)
| JObject (ref : nat).

(** An argument of [exchangeObject]: the own properties of an object
    literal, in order, or [None] for [null]. *)
Definition JsObject : Type := option (list (string * JsValue)).

Module SoundConfigClass.

(** [class SoundConfig]: its ten private properties. *)
Record SoundConfig : Type := mkSoundConfig {
  _muted : JsValue;
  _loop : JsValue;
  _volume : JsValue;
  _rate : JsValue;
  _seek : JsValue;
  _rateSeek : JsValue;
  _paused : JsValue;
  _ended : JsValue;
  _sprite : JsValue;
  _format : JsValue
}.

(** The property initialisers: only [_sprite = '__default']. *)
Definition initial : SoundConfig :=
  mkSoundConfig JUndefined JUndefined JUndefined JUndefined JUndefined JUndefined
    JUndefined JUndefined (JString "__default") JUndefined.

(** One turn of the loop of [exchangeObject]: the [switch (key)]. *)
Definition assign (key : string) (value : JsValue) (c : SoundConfig) : SoundConfig :=
  if String.eqb key "muted" then
    mkSoundConfig value (_loop c) (_volume c) (_rate c) (_seek c) (_rateSeek c)
      (_paused c) (_ended c) (_sprite c) (_format c)
  else if String.eqb key "loop" then
    mkSoundConfig (_muted c) value (_volume c) (_rate c) (_seek c) (_rateSeek c)
      (_paused c) (_ended c) (_sprite c) (_format c)
  else if String.eqb key "volume" then
    mkSoundConfig (_muted c) (_loop c) value (_rate c) (_seek c) (_rateSeek c)
      (_paused c) (_ended c) (_sprite c) (_format c)
  else if String.eqb key "rate" then
    mkSoundConfig (_muted c) (_loop c) (_volume c) value (_seek c) (_rateSeek c)
      (_paused c) (_ended c) (_sprite c) (_format c)
  else if String.eqb key "seek" then
    mkSoundConfig (_muted c) (_loop c) (_volume c) (_rate c) value (_rateSeek c)
      (_paused c) (_ended c) (_sprite c) (_format c)
  else if String.eqb key "rateSeek" then
    mkSoundConfig (_muted c) (_loop c) (_volume c) (_rate c) (_seek c) value
      (_paused c) (_ended c) (_sprite c) (_format c)
  else if String.eqb key "paused" then
    mkSoundConfig (_muted c) (_loop c) (_volume c) (_rate c) (_seek c) (_rateSeek c)
      value (_ended c) (_sprite c) (_format c)
  else if String.eqb key "ended" then
    mkSoundConfig (_muted c) (_loop c) (_volume c) (_rate c) (_seek c) (_rateSeek c)
      (_paused c) value (_sprite c) (_format c)
  else if String.eqb key "sprite" then
    mkSoundConfig (_muted c) (_loop c) (_volume c) (_rate c) (_seek c) (_rateSeek c)
      (_paused c) (_ended c) value (_format c)
  else if String.eqb key "format" then
    mkSoundConfig (_muted c) (_loop c) (_volume c) (_rate c) (_seek c) (_rateSeek c)
      (_paused c) (_ended c) (_sprite c) value
  else c.

(** [exchangeObject(object)]; [Object.entries(null)] throws a [TypeError],
    which is the result [None]. *)
Definition exchangeObject (object : JsObject) (c : SoundConfig) : option SoundConfig :=
  match object with
  | None => None
  | Some entries => Some (foldl (fun c '(key, value) => assign key value c) c entries)
  end.

(** [getObjectCopy()] *)
Definition getObjectCopy (c : SoundConfig) : list (string * JsValue) :=
  [("muted", _muted c); ("loop", _loop c); ("volume", _volume c); ("rate", _rate c);
   ("seek", _seek c); ("rateSeek", _rateSeek c); ("paused", _paused c);
   ("ended", _ended c); ("sprite", _sprite c); ("format", _format c)]%string.

(** [new SoundConfig(config)], [config] being [null] by default. *)
Definition new (config : JsObject) : option SoundConfig :=
  exchangeObject config initial.

End SoundConfigClass.

Module HowlConfigClass.

(** [class HowlConfig]: its thirteen private properties. *)
Record HowlConfig : Type := mkHowlConfig {
  _autoplay : JsValue;
  _format : JsValue;
  _html5 : JsValue;
  _muted : JsValue;
  _loop : JsValue;
  _pool : JsValue;
  _preload : JsValue;
  _rate : JsValue;
  _sprite : JsValue;
  _soundFileArray : JsValue;
  _volume : JsValue;
  _xhr : JsValue;
  _eventListeners : JsValue
}.

(** The property initialisers. *)
Definition initial : HowlConfig :=
  mkHowlConfig (JBool false) JUndefined (JBool false) (JBool false) (JBool false) (JNumber 5) (JBool true) (JNumber 1) JUndefined JUndefined (JNumber 1) JUndefined JUndefined.

(** One turn of the loop of [exchangeObject]: the [switch (key)]. *)
Definition assign (key : string) (value : JsValue) (c : HowlConfig) : HowlConfig :=
  if String.eqb key "autoplay" then
    mkHowlConfig value (_format c) (_html5 c) (_muted c) (_loop c) (_pool c) (_preload c) (_rate c) (_sprite c) (_soundFileArray c) (_volume c) (_xhr c) (_eventListeners c)
  else if String.eqb key "format" then
    mkHowlConfig (_autoplay c) value (_html5 c) (_muted c) (_loop c) (_pool c) (_preload c) (_rate c) (_sprite c) (_soundFileArray c) (_volume c) (_xhr c) (_eventListeners c)
  else if String.eqb key "html5" then
    mkHowlConfig (_autoplay c) (_format c) value (_muted c) (_loop c) (_pool c) (_preload c) (_rate c) (_sprite c) (_soundFileArray c) (_volume c) (_xhr c) (_eventListeners c)
  else if String.eqb key "muted" then
    mkHowlConfig (_autoplay c) (_format c) (_html5 c) value (_loop c) (_pool c) (_preload c) (_rate c) (_sprite c) (_soundFileArray c) (_volume c) (_xhr c) (_eventListeners c)
  else if String.eqb key "loop" then
    mkHowlConfig (_autoplay c) (_format c) (_html5 c) (_muted c) value (_pool c) (_preload c) (_rate c) (_sprite c) (_soundFileArray c) (_volume c) (_xhr c) (_eventListeners c)
  else if String.eqb key "pool" then
    mkHowlConfig (_autoplay c) (_format c) (_html5 c) (_muted c) (_loop c) value (_preload c) (_rate c) (_sprite c) (_soundFileArray c) (_volume c) (_xhr c) (_eventListeners c)
  else if String.eqb key "preload" then
    mkHowlConfig (_autoplay c) (_format c) (_html5 c) (_muted c) (_loop c) (_pool c) value (_rate c) (_sprite c) (_soundFileArray c) (_volume c) (_xhr c) (_eventListeners c)
  else if String.eqb key "rate" then
    mkHowlConfig (_autoplay c) (_format c) (_html5 c) (_muted c) (_loop c) (_pool c) (_preload c) value (_sprite c) (_soundFileArray c) (_volume c) (_xhr c) (_eventListeners c)
  else if String.eqb key "sprite" then
    mkHowlConfig (_autoplay c) (_format c) (_html5 c) (_muted c) (_loop c) (_pool c) (_preload c) (_rate c) value (_soundFileArray c) (_volume c) (_xhr c) (_eventListeners c)
  else if String.eqb key "soundFileArray" then
    mkHowlConfig (_autoplay c) (_format c) (_html5 c) (_muted c) (_loop c) (_pool c) (_preload c) (_rate c) (_sprite c) value (_volume c) (_xhr c) (_eventListeners c)
  else if String.eqb key "volume" then
    mkHowlConfig (_autoplay c) (_format c) (_html5 c) (_muted c) (_loop c) (_pool c) (_preload c) (_rate c) (_sprite c) (_soundFileArray c) value (_xhr c) (_eventListeners c)
  else if String.eqb key "xhr" then
    mkHowlConfig (_autoplay c) (_format c) (_html5 c) (_muted c) (_loop c) (_pool c) (_preload c) (_rate c) (_sprite c) (_soundFileArray c) (_volume c) value (_eventListeners c)
  else if String.eqb key "eventListeners" then
    mkHowlConfig (_autoplay c) (_format c) (_html5 c) (_muted c) (_loop c) (_pool c) (_preload c) (_rate c) (_sprite c) (_soundFileArray c) (_volume c) (_xhr c) value
  else c.

(** [exchangeObject(object)] *)
Definition exchangeObject (object : JsObject) (c : HowlConfig) : option HowlConfig :=
  match object with
  | None => None
  | Some entries => Some (foldl (fun c '(key, value) => assign key value c) c entries)
  end.

(** [getObjectCopy()] *)
Definition getObjectCopy (c : HowlConfig) : list (string * JsValue) :=
  [("autoplay", _autoplay c);
   ("format", _format c);
   ("html5", _html5 c);
   ("muted", _muted c);
   ("loop", _loop c);
   ("pool", _pool c);
   ("preload", _preload c);
   ("rate", _rate c);
   ("sprite", _sprite c);
   ("soundFileArray", _soundFileArray c);
   ("volume", _volume c);
   ("xhr", _xhr c);
   ("eventListeners", _eventListeners c)]%string.

(** [new HowlConfig(config)], [config] being [null] by default. *)
Definition new (config : JsObject) : option HowlConfig :=
  exchangeObject config initial.

End HowlConfigClass.

(** The value a literal or a copy holds under [key]. *)
Fixpoint property (key : string) (object : list (string * JsValue)) : option JsValue :=
  match object with
  | [] => None
  | (k, v) :: rest => if String.eqb key k then Some v else property key rest
  end.

(** * Event listeners: [on], [once], [off] *)

(** The [id] a listener is registered with: [on(event, fn)] leaves it
    [undefined], [once(event, fn)] makes it [null]. *)
Inductive ListenerId : Type :=
| IdUndefined
| IdNull
| IdNumber (n : nat).

#[global] Instance ListenerId_eq_dec : EqDecision ListenerId.
Proof. solve_decision. Defined.

(** An entry [{id, fn, once}] of an [_on<event>] array; functions are told
    apart by their identity. *)
Record Listener : Type := mkListener {
  l_id : ListenerId;
  l_fn : nat;
  l_once : bool
}.

#[global] Instance Listener_eq_dec : EqDecision Listener.
Proof. solve_decision. Defined.

(** The arrays [_onplay], [_onend], ..., one for each event name. *)
Definition Listeners : Type := EventName -> list Listener.

Definition set_listeners (event : EventName) (events : list Listener) (st : Listeners)
  : Listeners :=
  fun e => if decide (e = event) then events else st e.

(** The second argument of [on] and [off]. *)
Inductive FnArg : Type :=
| FnNull                   (* null, or left out *)
| FnFunction (f : nat)
| FnNumber (n : nat).

(** [on(event, fn, id, once)]: only a function is registered. *)
Definition on (event : EventName) (fn : FnArg) (id : ListenerId) (once : bool)
    (st : Listeners) : Listeners :=
  match fn with
  | FnFunction f => set_listeners event (st event ++ [mkListener id f once]) st
  | _ => st
  end.

(** [once(event, fn, id = null)] *)
Definition once (event : EventName) (fn : FnArg) (id : ListenerId) (st : Listeners)
  : Listeners :=
  on event fn (match id with IdUndefined => IdNull | _ => id end) true st.

(** The test of the loop of [off]:
    [fn === thisEvent.fn && isId || !fn && isId]. *)
Definition off_matches (fn : option nat) (id : ListenerId) (l : Listener) : bool :=
  let isId := bool_decide (id = l_id l) in
  (bool_decide (fn = Some (l_fn l)) && isId) || (bool_decide (fn = None) && isId).

(** The loop of [off] over the listeners still to visit: at the first match
    [events.splice(i, 1)] runs with [i] still [0], then [break]. *)
Fixpoint off_loop (fn : option nat) (id : ListenerId) (visit events : list Listener)
  : list Listener :=
  match visit with
  | [] => events
  | thisEvent :: rest =>
    if off_matches fn id thisEvent then delete 0 events
    else off_loop fn id rest events
  end.

(** [off(event, fn = null, id = null)] of the class, for a given event name
    (the branch for an empty name is not reached).  The older definition of
    the same name has the same loop. *)
Definition off (event : EventName) (fn : FnArg) (id : ListenerId) (st : Listeners)
  : Listeners :=
  let id := match id with IdUndefined => IdNull | _ => id end in
  (* Allow passing just an event and ID. *)
  let '(fn, id) := match fn with
                   | FnNumber n => (None, IdNumber n)
                   | FnFunction f => (Some f, id)
                   | FnNull => (None, id)
                   end in
  if bool_decide (is_Some fn) || match id with IdNumber (S _) => true | _ => false end then
    set_listeners event (off_loop fn id (st event) (st event)) st
  else
    (* Clear out all events of this type. *)
    set_listeners event [] st.

(** * Further vocabulary: [stop] with an id *)

(** The body of the loop of [stop], for one entry of [ids]. *)
Definition stop_body (rec : Call -> M Value) (internal : bool) (i : option nat) : M unit :=
  _clearTimer i ;;
  h ← get;
  match _soundById i h with
  | None => ret tt
  | Some a =>
    update a (fun s => set_ended true (set_paused true
                (set_rateSeek (Some 0%Q) (set_seek (Some (_start s)) s)))) ;;
    rec (CStopFade i) ;;
    h ← get;
    sound ← deref a;
    (if _webAudio h then
       if bufferSource (_node sound) then
         log_backend (BStopSource a) ;; _cleanBuffer a
       else ret tt
     else if hasDuration (_node sound) then
       update_node a (fun n => set_nd_paused true (set_currentTime (_start sound) n)) ;;
       log_backend (BNodePause a)
     else ret tt) ;;
    when (negb internal) (rec (CEmit Estop (Some (_id sound)) MsgNone) ;; ret tt)
  end.

(** What [stop] makes of a sound it reaches: ended and paused, back at the
    start of its sprite, its buffer source dropped or its node paused. *)
Definition stopped (webAudio : bool) (s : Sound) : Sound :=
  let s' := set_ended true (set_paused true
              (set_rateSeek (Some 0%Q) (set_seek (Some (_start s)) s))) in
  if webAudio then
    if bufferSource (_node s') then set_node (set_bufferSource false (_node s')) s' else s'
  else if hasDuration (_node s') then
    set_node (set_nd_paused true (set_currentTime (_start s') (_node s'))) s'
  else s'.

(** The backend calls [stop] makes for the sound at [a]. *)
Definition stop_ops (webAudio : bool) (a : nat) (s : Sound) : list BackendOp :=
  if webAudio then (if bufferSource (_node s) then [BStopSource a] else [])
  else if hasDuration (_node s) then [BNodePause a] else [].

(** The ids are the ones [register] handed out and the array has not been
    spliced since: the sound at index [k] has the id [k + 1]. *)
Definition ids_in_order (h : Howl) : Prop :=
  forall k a s, _sounds h !! k = Some a -> heap h !! a = Some s -> _id s = S k.

(** No fade is running. *)
Definition no_fade (h : Howl) : Prop :=
  forall a s, heap h !! a = Some s -> _interval s = None.

(** What one turn of that loop, for the id [i], makes of the store: the
    sound it reaches is the one at INDEX [i]. *)
Definition stop_turn (sounds : list nat) (webAudio : bool) (hp : list Sound) (i : nat)
  : list Sound :=
  match sounds !! i with
  | Some a => alter (stopped webAudio) a hp
  | None => hp
  end.


(** The end timers once [_clearTimer] has been called on each of [ids]. *)
Definition timers_cleared (ids : list nat) (t : gmap nat Timer) : gmap nat Timer :=
  foldl (fun t i => delete i t) t ids.


(** The emissions of a list of reports, one after the other, in the order
    of the list. *)
Definition emit_each (rec : Call -> M Value) (l : list Emitted) : M unit :=
  for_each l (fun e => rec (CEmit (em_event e) (em_id e) (em_msg e)) ;; ret tt).
(** * Concrete groups for the witnesses and counterexamples *)

(** A fresh sound is neither playing nor resumable: paused and ended, at
    the default sprite, with volume and rate 1. *)
Definition config_example : SoundConfig :=
  mkSoundConfig true true (Some default_sprite) 0%Q 0%Q false 1%Q 1%Q false.

(** A host that decodes mp3 only, with a running audio context and
    promise-returning [node.play()]. *)
Definition howler_example : Howler :=
  mkHowler false (fun ext => String.eqb ext "mp3") true 0%Q 1%Q false
    PlayPromise false false config_example.

(** [sprite: { foo: [500, 1000], beat: [0, 1000, true], __default: [0, 1000] }] *)
Definition sprites_example : gmap string Sprite :=
  <["foo"%string := mkSprite 500%Q 1000%Q false]>
    (<["beat"%string := mkSprite 0%Q 1000%Q true]>
       (<[default_sprite := mkSprite 0%Q 1000%Q false]> ∅)).

(** A group over [src: ['a.mp3']] that owns no sound yet. *)
Definition group_example (st : LoadState) (webAudio : bool) (pool : Z) : Howl :=
  mkHowl st [] [] [] false webAudio (negb webAudio) sprites_example pool
    1%Q 1%Q false false ∅ [mkSource None (Some "a.mp3"%string)] None
    howler_example [] [] [] [] 0.

Definition play_foo : Call := CPlay (PSprite "foo"%string) false.

Definition play_beat : Call := CPlay (PSprite "beat"%string) false.

(** The state a sequence of calls leaves behind. *)
Definition after (cs : list Call) (h : Howl) : Howl :=
  match run 8 cs h with
  | Normal _ h' => h'
  | TypeError h' => h'
  | OutOfFuel => h
  end.

(** Three commands issued before the load: volume, rate, play. *)
Definition queued_calls : list Call :=
  [CVolume (Some (1 # 2)%Q) None false; CRate 2%Q None; play_foo].

Definition queued_example : Howl :=
  after queued_calls (group_example unloaded true 5).

(** Web Audio, two sounds playing "foo" (0.5 s to 1.5 s): the second one
    ends and is then sought to 2 s. *)
Definition sought_calls : list Call :=
  [play_foo; play_foo; CEnded 1; CSeek (Seek2 2%Q 1)].

Definition sought_example : Howl :=
  after sought_calls (group_example loaded true 5).

(** A pool of one: two sounds are started and the second one ends. *)
Definition crowded_calls : list Call := [play_foo; play_foo; CEnded 1].

Definition crowded_example : Howl :=
  after crowded_calls (group_example loaded true 1).

(** A pool of one: three sounds are started, the first two end, and two
    more plays follow. *)
Definition recycling_calls : list Call :=
  [play_foo; play_foo; play_foo; CEnded 0; CEnded 1; play_foo; play_foo].

(** HTML5 Audio, three sounds looping "beat" (0 s to 1 s): their nodes
    become ready and their play promises resolve; [stop(1)] then stops the
    second and the third, and [seek(2, 1)] moves the second to 2 s. *)
Definition looping_calls : list Call :=
  [play_beat; play_beat; play_beat;
   CFire 0 true; CFire 0 true; CFire 0 true;
   CFire 0 true; CFire 0 true; CFire 0 true;
   CStop (Some 1) false; CSeek (Seek2 2%Q 1)].

Definition looping_example : Howl :=
  after looping_calls (group_example loaded false 5).

(** HTML5 Audio, two plays waiting for their nodes: the first node becomes
    ready and its promise resolves, [stop(1)] runs, then the second node
    becomes ready. *)
Definition racing_calls : list Call :=
  [play_foo; play_foo; CFire 0 true; CFire 1 true;
   CStop (Some 1) false; CFire 0 true].

(** Two sounds playing, the first one ends. *)
Definition mixed_calls : list Call := [play_foo; play_foo; CEnded 0].

(** A group none of whose candidates the host decodes: an ogg file, an
    entry that is not a string, and a source with the explicit format wav. *)
Definition group_unsupported (noAudio : bool) : Howl :=
  mkHowl unloaded [] [] [] false true false sprites_example 5
    1%Q 1%Q false false ∅
    [mkSource None (Some "a.ogg"%string); mkSource None None;
     mkSource (Some "wav"%string) (Some "b"%string)]
    None
    (mkHowler noAudio (fun ext => String.eqb ext "mp3") true 0%Q 1%Q false
       PlayPromise false false config_example)
    [] [] [] [] 0.

(** * Further groups and hosts for the witnesses *)

(** A host that decodes mp3 only, by what [node.play()] does, whether the
    audio context runs, and whether the page was served over HTTPS. *)
Definition host_example (np : NodePlay) (running https : bool) : Howler :=
  mkHowler false (fun ext => String.eqb ext "mp3") running 0%Q 1%Q false
    np false https config_example.

(** A loaded group over [src: ['a.mp3']] on such a host. *)
Definition group_on (hw : Howler) (webAudio : bool) : Howl :=
  mkHowl loaded [] [] [] false webAudio (negb webAudio) sprites_example 5
    1%Q 1%Q false false ∅ [mkSource None (Some "a.mp3"%string)] None
    hw [] [] [] [] 0.


Definition picked_url : string := "http://cdn.example/b.mp3?v=2".


(** A Web Audio group over
    [['a.ogg', 'http://cdn.example/b.mp3?v=2', 'c.mp3']] that has not been
    loaded. *)
Definition group_strings : Howl :=
  mkHowl unloaded [] [] [] false true false sprites_example 5
    1%Q 1%Q false false ∅
    [url_source "a.ogg"; url_source picked_url; url_source "c.mp3"] None
    (host_example PlayPromise true false) [] [] [] [] 0.

(** HTML5 Audio on a host whose [node.play()] throws: two sounds wait for
    their nodes, and the node of the second one becomes ready. *)
Definition throwing_example : Howl :=
  after [play_beat; play_beat; CFire 1 true]
    (group_on (host_example PlayThrows true false) false).

(** HTML5 Audio on a host whose [node.play()] returns a promise: two sounds
    wait for their nodes, the node of the second one becomes ready and its
    promise is rejected. *)
Definition rejected_example : Howl :=
  after [play_foo; play_foo; CFire 1 true; CFire 1 false]
    (group_on (host_example PlayPromise true false) false).

(** Web Audio, one sound playing "foo", or looping "beat". *)
Definition playing_example : Howl := after [play_foo] (group_example loaded true 5).

Definition beating_example : Howl := after [play_beat] (group_example loaded true 5).

(** Web Audio, two sounds playing "foo". *)
Definition duet_example : Howl := after [play_foo; play_foo] (group_example loaded true 5).

(** The group of [queued_example] once its buffer has been decoded: the
    state is [loaded], the three commands are still queued. *)
Definition decoded_example : Howl := set_state loaded queued_example.


(** The object literal [{ volume: 0.5, loop: true, bogus: null }]. *)
Definition literal_example : list (string * JsValue) :=
  [("volume"%string, JNumber (1 # 2)%Q); ("loop"%string, JBool true);
   ("bogus"%string, JNull)].

(** Two listeners of [play], both registered by [once] without an id. *)
Definition listeners_example : Listeners :=
  once Eplay (FnFunction 2) IdUndefined (once Eplay (FnFunction 1) IdUndefined (fun _ => [])).

(** The group as [play] finds it once it has picked the sound to play. *)
Definition targeted (arg : PlayArg) (h : Howl) : Howl :=
  match play_target arg h with
  | Normal _ h1 => h1
  | _ => h
  end.



(** Web Audio, three sounds playing "foo". *)
Definition trio_example : Howl :=
  after [play_foo; play_foo; play_foo] (group_example loaded true 5).
(** * Reasoning principles *)

Section Invariants.
Variable I : Howl -> Prop.

Lemma ipost_bind {A B} (m : M A) (f : A -> M B) h :
  preserves I m -> I h -> (forall a h', I h' -> ipost I (f a h')) ->
  ipost I ((m ≫= f) h).
Proof.
  intros Hm Hh Hf. unfold mbind, M_bind, bind.
  specialize (Hm h Hh). destruct (m h); simpl in *; auto.
Qed.

Lemma ipost_bind_at {A B} (m : M A) (f : A -> M B) h :
  ipost I (m h) ->
  (forall a h', m h = Normal a h' -> I h' -> ipost I (f a h')) ->
  ipost I ((m ≫= f) h).
Proof.
  intros Hm Hf. unfold mbind, M_bind, bind.
  destruct (m h) eqn:E; simpl in *; auto.
Qed.

Lemma ipost_get {B} (f : Howl -> M B) h :
  ipost I (f h h) -> ipost I ((get ≫= f) h).
Proof. intros H. exact H. Qed.

Lemma ipost_modify {B} (g : Howl -> Howl) (f : unit -> M B) h :
  ipost I (f tt (g h)) -> ipost I ((modify g ≫= f) h).
Proof. intros H. exact H. Qed.

Lemma preserves_ret {A} (a : A) : preserves I (ret a).
Proof. intros h Hh. exact Hh. Qed.

Lemma preserves_throw {A} : preserves I (@throw A).
Proof. intros h Hh. exact Hh. Qed.

Lemma preserves_get : preserves I get.
Proof. intros h Hh. exact Hh. Qed.

Lemma preserves_bind {A B} (m : M A) (f : A -> M B) :
  preserves I m -> (forall a, preserves I (f a)) -> preserves I (m ≫= f).
Proof. intros Hm Hf h Hh. apply ipost_bind; auto; intros a h' Hh'; now apply Hf. Qed.

Lemma preserves_modify (g : Howl -> Howl) :
  (forall h, I h -> I (g h)) -> preserves I (modify g).
Proof. intros Hg h Hh. now apply Hg. Qed.

Lemma preserves_deref a : preserves I (deref a).
Proof. intros h Hh. unfold deref. destruct (heap h !! a); exact Hh. Qed.

Lemma preserves_when b (m : M unit) : preserves I m -> preserves I (when b m).
Proof. intros Hm. destruct b; simpl; [exact Hm | apply preserves_ret]. Qed.

Lemma preserves_try_catch {A} (m handler : M A) :
  preserves I m -> preserves I handler -> preserves I (try_catch m handler).
Proof.
  intros Hm Hc h Hh. unfold try_catch. specialize (Hm h Hh).
  destruct (m h); simpl in *; auto.
Qed.

Lemma preserves_for_each {X} (l : list X) (body : X -> M unit) :
  (forall x, preserves I (body x)) -> preserves I (for_each l body).
Proof.
  intros Hb. induction l as [|x l IH]; simpl.
  - apply preserves_ret.
  - apply preserves_bind; [apply Hb | intros _; exact IH].
Qed.

Lemma preserves_foldl {X A} (step : M A -> X -> M A) (l : list X) (m0 : M A) :
  (forall m x, preserves I m -> preserves I (step m x)) ->
  preserves I m0 -> preserves I (foldl step m0 l).
Proof.
  intros Hs. revert m0. induction l as [|x l IH]; simpl; intros m0 H0.
  - exact H0.
  - apply IH. now apply Hs.
Qed.

End Invariants.

(** ** A tactic that walks a method body *)

Create HintDb pres.

Ltac pres_with fr :=
  lazymatch goal with
  | |- preserves _ (mbind _ _) =>
      apply preserves_bind; [pres_with fr | intros ?; pres_with fr]
  | |- preserves _ (ret _) => apply preserves_ret
  | |- preserves _ get => apply preserves_get
  | |- preserves _ throw => apply preserves_throw
  | |- preserves _ (modify _) => apply preserves_modify; fr
  | |- preserves _ (deref _) => apply preserves_deref
  | |- preserves _ (when _ _) => apply preserves_when; pres_with fr
  | |- preserves _ (for_each _ _) =>
      apply preserves_for_each; intros ?; pres_with fr
  | |- preserves _ (try_catch _ _) => apply preserves_try_catch; pres_with fr
  | |- preserves _ (foldl _ _ _) =>
      apply preserves_foldl; [intros ? ? ?; pres_with fr | pres_with fr]
  | |- preserves _ (if ?b then _ else _) => destruct b; pres_with fr
  | |- preserves _ (match ?x with _ => _ end) => destruct x; pres_with fr
  | |- preserves _ (let _ := _ in _) => cbv zeta; pres_with fr
  | |- _ => solve [eauto with pres]
  end.

(** ** The queue discipline is an invariant of every call *)

Lemma fifo_frame h h' :
  ran h' = ran h -> _queue h' = _queue h -> nextStamp h' = nextStamp h ->
  fifo h -> fifo h'.
Proof. unfold fifo. intros -> -> ->. auto. Qed.

Lemma sorted_snoc_lt (l : list nat) (n m : nat) :
  StronglySorted lt (l ++ [n]) -> n < m -> StronglySorted lt ((l ++ [n]) ++ [m]).
Proof.
  intros Hs Hnm. apply StronglySorted_app_2; [| exact Hs | repeat constructor].
  intros x y Hx Hy. apply list_elem_of_singleton in Hy. subst y.
  apply elem_of_app in Hx as [Hx|Hx].
  - assert (x < n); [|lia].
    apply (StronglySorted_app_1_elem_of lt l [n]); [exact Hs | exact Hx |].
    now apply list_elem_of_singleton.
  - apply list_elem_of_singleton in Hx. lia.
Qed.

Lemma fifo_enqueue a h :
  fifo h ->
  fifo (set_nextStamp (S (nextStamp h))
          (set_queue (_queue h ++ [mkTask a (nextStamp h)]) h)).
Proof.
  unfold fifo. cbn. rewrite map_app. cbn.
  intros (H1 & H2 & H3 & H4). split_and!.
  - exact H1.
  - apply sorted_snoc_lt; [exact H2 | lia].
  - intros r s Hr Hs. apply elem_of_app in Hs as [Hs|Hs]; [now apply H3|].
    apply list_elem_of_singleton in Hs. subst s. specialize (H4 r Hr). lia.
  - intros r Hr. specialize (H4 r Hr). lia.
Qed.

Lemma fifo_shift t rest h :
  _queue h = t :: rest -> fifo h -> fifo (set_queue rest h).
Proof.
  unfold fifo. cbn. intros ->. cbn [map app].
  intros (H1 & H2 & H3 & H4). apply StronglySorted_cons in H2 as [_ H2].
  split_and!; try assumption.
  intros r s Hr Hs. apply H3; [exact Hr | now apply elem_of_cons; right].
Qed.

Lemma fifo_run t rest h :
  _queue h = t :: rest -> fifo h -> fifo (set_ran (ran h ++ [stamp t]) h).
Proof.
  unfold fifo. cbn. intros ->. cbn [map app].
  intros (H1 & H2 & H3 & H4). pose proof H2 as H2'.
  apply StronglySorted_cons in H2' as [Hlt _]. rewrite Forall_forall in Hlt.
  assert (Hhead : forall r : nat, r ∈ ran h -> r <= stamp t).
  { intros r Hr. apply H3; [exact Hr | now apply elem_of_cons; left]. }
  split_and!.
  - apply StronglySorted_app_2; [| exact H1 | repeat constructor].
    intros x y Hx Hy. apply list_elem_of_singleton in Hy. subst y. now apply Hhead.
  - exact H2.
  - intros r s Hr Hs. apply elem_of_app in Hr as [Hr|Hr]; [now apply H3|].
    apply list_elem_of_singleton in Hr. subst r.
    apply elem_of_cons in Hs as [->|Hs]; [lia|].
    assert (stamp t < s); [|lia]. apply Hlt. apply elem_of_app. now left.
  - intros r Hr. apply elem_of_app in Hr as [Hr|Hr]; [now apply H4|].
    apply list_elem_of_singleton in Hr. subst r.
    apply Hlt. apply elem_of_app. right. now apply list_elem_of_singleton.
Qed.

Ltac fifo_frame_tac :=
  let h := fresh "h" in let H := fresh "H" in
  intros h H; eapply fifo_frame; [reflexivity | reflexivity | reflexivity | exact H].

Ltac pres_fifo := pres_with fifo_frame_tac.

Lemma fifo_update a f : preserves fifo (update a f).
Proof. unfold update. pres_fifo. Qed.

Lemma fifo_log_backend op : preserves fifo (log_backend op).
Proof. unfold log_backend. pres_fifo. Qed.

Lemma fifo_defer cb : preserves fifo (defer cb).
Proof. unfold defer. pres_fifo. Qed.

Lemma fifo_arm_timer id t : preserves fifo (arm_timer id t).
Proof. unfold arm_timer. pres_fifo. Qed.

Lemma fifo_clearTimer id : preserves fifo (_clearTimer id).
Proof. unfold _clearTimer. pres_fifo. Qed.

Lemma fifo_enqueue_m a : preserves fifo (enqueue a).
Proof. unfold enqueue. apply preserves_modify. intros h Hh. now apply fifo_enqueue. Qed.

#[local] Hint Resolve fifo_update fifo_log_backend fifo_defer fifo_arm_timer
  fifo_clearTimer fifo_enqueue_m : pres.

Lemma fifo_update_node a f : preserves fifo (update_node a f).
Proof. unfold update_node. pres_fifo. Qed.

Lemma fifo_sprite_of s : preserves fifo (sprite_of s).
Proof. unfold sprite_of. pres_fifo. Qed.

Lemma fifo_getSoundIds id : preserves fifo (_getSoundIds id).
Proof. unfold _getSoundIds. pres_fifo. Qed.

Lemma fifo_register a : preserves fifo (register a).
Proof. unfold register. pres_fifo. Qed.

#[local] Hint Resolve fifo_update_node fifo_sprite_of fifo_getSoundIds fifo_register : pres.

Lemma fifo_cleanBuffer a : preserves fifo (_cleanBuffer a).
Proof. unfold _cleanBuffer. pres_fifo. Qed.

Lemma fifo_refreshBuffer a : preserves fifo (_refreshBuffer a).
Proof. unfold _refreshBuffer. pres_fifo. Qed.

Lemma fifo_new_Sound c : preserves fifo (new_Sound c).
Proof. unfold new_Sound. pres_fifo. Qed.

Lemma fifo_count_ended h : preserves fifo (count_ended h).
Proof. unfold count_ended. pres_fifo. Qed.

Lemma fifo_drain_loop n limit count : preserves fifo (_drain_loop n limit count).
Proof. revert count. induction n as [|i IH]; intros count; simpl; pres_fifo. Qed.

#[local] Hint Resolve fifo_cleanBuffer fifo_refreshBuffer fifo_new_Sound
  fifo_count_ended fifo_drain_loop : pres.

Lemma fifo_drain : preserves fifo _drain.
Proof. unfold _drain. pres_fifo. Qed.

#[local] Hint Resolve fifo_drain : pres.

Lemma fifo_inactiveSound : preserves fifo _inactiveSound.
Proof. unfold _inactiveSound. pres_fifo. Qed.

Lemma fifo_setParams c : preserves fifo (setParams c).
Proof. unfold setParams. pres_fifo. Qed.

Lemma fifo_startFadeInterval a f t l g : preserves fifo (_startFadeInterval a f t l g).
Proof. unfold _startFadeInterval. pres_fifo. Qed.

#[local] Hint Resolve fifo_inactiveSound fifo_setParams fifo_startFadeInterval : pres.

Lemma fifo_playWebAudio c : preserves fifo (playWebAudio c).
Proof. unfold playWebAudio. pres_fifo. Qed.

Lemma fifo_play_target arg : preserves fifo (play_target arg).
Proof. unfold play_target. pres_fifo. Qed.

#[local] Hint Resolve fifo_playWebAudio fifo_play_target : pres.

Section FifoBodies.
Variable rec : Call -> M Value.
Hypothesis Hrec : forall c, preserves fifo (rec c).
#[local] Hint Resolve Hrec : pres.

Lemma fifo_emit ev id msg : preserves fifo (_emit rec ev id msg).
Proof. unfold _emit. pres_fifo. Qed.

(** The one body that touches the head of the queue. *)
Lemma fifo_loadQueue ev : preserves fifo (_loadQueue rec ev).
Proof.
  unfold _loadQueue. intros h Hh. apply ipost_get.
  destruct (_queue h) as [|task rest] eqn:Hq; [exact Hh|].
  destruct ev as [e|].
  - (* an event was passed: the head is shifted when it matches, never run *)
    apply ipost_bind_at.
    + destruct (decide (Some (event task) = Some e)); [|exact Hh].
      apply ipost_modify. apply ipost_bind; [pres_fifo | now apply (fifo_shift task) | ].
      intros _ h' Hh'. exact Hh'.
    + intros _ h' _ Hh'. destruct (decide (Some e = None)); [discriminate|].
      apply ipost_bind; [pres_fifo | exact Hh' | intros; assumption].
  - (* no event: the head is run, nothing is shifted *)
    apply ipost_bind_at.
    + destruct (decide (Some (event task) = None)); [discriminate|exact Hh].
    + intros a h' E _. destruct (decide (Some (event task) = None)); [discriminate|].
      injection E as _ <-.
      apply ipost_bind_at.
      * destruct (decide (None = None)); [|exact Hh].
        apply ipost_modify. apply ipost_bind; [pres_fifo | now apply (fifo_run task rest) | ].
        intros _ h' Hh'. exact Hh'.
      * intros _ h' _ Hh'. exact Hh'.
Qed.

Lemma fifo_stopFade id : preserves fifo (_stopFade rec id).
Proof. unfold _stopFade. pres_fifo. Qed.

Lemma fifo_volume v id k : preserves fifo (volume rec v id k).
Proof. unfold volume. pres_fifo. Qed.

Lemma fifo_stop id k : preserves fifo (stop rec id k).
Proof. unfold stop. pres_fifo. Qed.

Lemma fifo_ended a : preserves fifo (Howl_ended rec a).
Proof. unfold Howl_ended. pres_fifo. Qed.

Lemma fifo_playHtml5 c : preserves fifo (playHtml5 rec c).
Proof. unfold playHtml5. pres_fifo. Qed.

#[local] Hint Resolve fifo_playHtml5 : pres.

Lemma fifo_play arg i : preserves fifo (play rec arg i).
Proof. unfold play. pres_fifo. Qed.

Lemma fifo_pause id k : preserves fifo (pause rec id k).
Proof. unfold pause. pres_fifo. Qed.

Lemma fifo_seekAndEmit id k : preserves fifo (seekAndEmit rec id k).
Proof. unfold seekAndEmit. pres_fifo. Qed.

#[local] Hint Resolve fifo_seekAndEmit : pres.

Lemma fifo_seek args : preserves fifo (seek rec args).
Proof. unfold seek. pres_fifo. Qed.

Lemma fifo_rate r id : preserves fifo (rate rec r id).
Proof. unfold rate. pres_fifo. Qed.

Lemma fifo_mute m id : preserves fifo (mute m id).
Proof. unfold mute. pres_fifo. Qed.

Lemma fifo_fade f t l id : preserves fifo (fade rec f t l id).
Proof. unfold fade. pres_fifo. Qed.

Lemma fifo_pick_source l : preserves fifo (pick_source rec l).
Proof. induction l as [|src l IH]; simpl; pres_fifo. Qed.

#[local] Hint Resolve fifo_pick_source : pres.

Lemma fifo_load : preserves fifo (load rec).
Proof. unfold load. pres_fifo. Qed.

Lemma fifo_fire cb ok : preserves fifo (fire rec cb ok).
Proof. unfold fire. pres_fifo. Qed.

#[local] Hint Resolve fifo_fire : pres.

Lemma fifo_dispatch c : preserves fifo (dispatch rec c).
Proof.
  destruct c; simpl;
    auto using fifo_play, fifo_pause, fifo_stop, fifo_mute, fifo_volume, fifo_rate,
      fifo_seek, fifo_fade, fifo_stopFade, fifo_emit, fifo_loadQueue, fifo_ended,
      fifo_load.
  pres_fifo.
Qed.

End FifoBodies.

Lemma fifo_exec fuel c : preserves fifo (exec fuel c).
Proof.
  revert c. induction fuel as [|n IH]; intros c; simpl.
  - intros h _. exact Logic.I.
  - now apply fifo_dispatch.
Qed.

Lemma fifo_run_calls fuel cs : preserves fifo (run fuel cs).
Proof.
  induction cs as [|c cs IH]; intros h Hh; simpl.
  - exact Hh.
  - pose proof (fifo_exec fuel c h Hh) as Hc.
    destruct (exec fuel c h) as [v h'| |]; simpl in *; auto.
    destruct cs; [exact Hc | now apply IH].
Qed.

Lemma fifo_ran_sorted h : fifo h -> StronglySorted le (ran h).
Proof. now intros (H & _). Qed.

(** The steps of [_loadQueue].  When the event passed is the tag of the
    head task, the head is popped and [_loadQueue] is called again with no
    event; an event with another tag leaves the queue alone; with no event
    and a queue that is not empty, the closure of the head task is run
    whatever its tag.  Only the head is ever run or popped and [enqueue]
    appends, so the closures are started in the order of their stamps, a
    closure possibly more than once. *)
Lemma loadQueue_discipline fuel h task rest cs :
  _queue h = task :: rest ->
  fifo h ->
  (* a fired event that matches the head pops it and drains with no event *)
  exec (S fuel) (CLoadQueue (Some (event task))) h
  = (exec fuel (CLoadQueue None) ≫= fun _ => ret VSelf) (set_queue rest h)
  /\
  (* a fired event that does not match leaves the queue alone *)
  (forall e, e <> event task -> exec (S fuel) (CLoadQueue (Some e)) h = Normal VSelf h)
  /\
  (* no event: the closure of the head is run, whatever its tag *)
  exec (S fuel) (CLoadQueue None) h
  = (exec fuel (call_of_action (action task)) ≫= fun _ => ret VSelf)
      (set_ran (ran h ++ [stamp task]) h)
  /\
  (* whatever is called next, closures run in the order of their stamps *)
  match run fuel cs h with
  | Normal _ h' | TypeError h' => fifo h' /\ StronglySorted le (ran h')
  | OutOfFuel => True
  end.
Proof.
  intros Hq Hf. split_and!.
  - simpl. unfold _loadQueue, mbind, M_bind, bind, get, modify, ret. rewrite Hq.
    destruct (decide (Some (event task) = Some (event task))) as [_|]; [|congruence].
    destruct (exec fuel (CLoadQueue None) (set_queue rest h)); reflexivity.
  - intros e He. simpl. unfold _loadQueue, mbind, M_bind, bind, get, modify, ret. rewrite Hq.
    destruct (decide (Some (event task) = Some e)) as [E|_]; [congruence|].
    destruct (decide (Some e = None)); [discriminate|reflexivity].
  - simpl. unfold _loadQueue, mbind, M_bind, bind, get, modify, ret. rewrite Hq.
    destruct (decide (Some (event task) = None)); [discriminate|].
    destruct (decide (None = None)) as [_|]; [|congruence].
    destruct (exec fuel _ _); reflexivity.
  - pose proof (fifo_run_calls fuel cs h Hf) as H.
    destruct (run fuel cs h); simpl in H; auto using fifo_ran_sorted.
Qed.

(** ** What the pool and the store leave alone *)

Lemma same_control_refl h : same_control h h.
Proof. unfold same_control. tauto. Qed.

Ltac same_control_frame :=
  let h := fresh "h" in let H := fresh "H" in
  intros h H; unfold same_control, starts in *; cbn;
  rewrite ?filter_app; cbn; rewrite ?app_nil_r; exact H.

(** The leaves of a body are unfolded down to [modify]. *)
Ltac pres_unfold fr :=
  repeat first
    [ progress unfold update, update_node, log_backend, defer, arm_timer, _clearTimer,
        _cleanBuffer, _refreshBuffer, sprite_of, _getSoundIds, register, new_Sound,
        count_ended, _drain, _inactiveSound, setParams, _startFadeInterval
    | progress pres_with fr ].

Lemma same_control_drain_loop h0 n limit count :
  preserves (same_control h0) (_drain_loop n limit count).
Proof.
  revert count. induction n as [|i IH]; intros count; simpl;
    pres_unfold same_control_frame.
Qed.

#[local] Hint Resolve same_control_drain_loop : pres.

Lemma same_control_play_target h0 arg : preserves (same_control h0) (play_target arg).
Proof. unfold play_target. pres_unfold same_control_frame. Qed.


(** ** Pool eviction meets its specification *)

Lemma count_sounds_app p heap l1 l2 :
  count_sounds p heap (l1 ++ l2) = count_sounds p heap l1 + count_sounds p heap l2.
Proof. unfold count_sounds. now rewrite filter_app, length_app. Qed.

Lemma count_sounds_cons p heap a l :
  count_sounds p heap (a :: l)
  = (if sound_has p heap a then 1 else 0) + count_sounds p heap l.
Proof.
  unfold count_sounds. rewrite filter_cons.
  destruct (sound_has p heap a); simpl.
  - destruct (decide (true = true)); [reflexivity|congruence].
  - destruct (decide (false = true)); [discriminate|reflexivity].
Qed.

Lemma count_sounds_le p heap l : count_sounds p heap l <= length l.
Proof. unfold count_sounds. apply length_filter. Qed.

Lemma retain_all heap k l : count_sounds _ended heap l <= k -> retain heap k l = l.
Proof.
  revert k. induction l as [|a l IH]; intros k; simpl; [reflexivity|].
  rewrite count_sounds_cons. unfold sound_has.
  destruct (heap !! a) as [s|]; simpl.
  - destruct (_ended s); simpl; intros H.
    + destruct k as [|k]; [lia|]. f_equal. apply IH. lia.
    + f_equal. now apply IH.
  - intros H. f_equal. now apply IH.
Qed.

Lemma retain_snoc_ended heap k l a :
  sound_has _ended heap a = true -> k <= count_sounds _ended heap l ->
  retain heap k (l ++ [a]) = retain heap k l.
Proof.
  intros Ha. revert k. induction l as [|b l IH]; intros k; simpl.
  - unfold sound_has in Ha. destruct (heap !! a) as [s|]; [|discriminate].
    rewrite Ha. unfold count_sounds. simpl. intros H. now replace k with 0 by lia.
  - rewrite count_sounds_cons. unfold sound_has at 1.
    destruct (heap !! b) as [s|]; simpl.
    + destruct (_ended s); simpl; intros H.
      * destruct k as [|k]; [apply IH; lia | f_equal; apply IH; lia].
      * f_equal. now apply IH.
    + intros H. f_equal. now apply IH.
Qed.

Lemma retain_snoc_live heap k l a :
  sound_has _ended heap a = false -> a < length heap ->
  retain heap k (l ++ [a]) = retain heap k l ++ [a].
Proof.
  intros Ha Hlt. revert k. induction l as [|b l IH]; intros k; simpl.
  - unfold sound_has in Ha. destruct (heap !! a) as [s|]; [now rewrite Ha|reflexivity].
  - destruct (heap !! b) as [s|]; simpl.
    + destruct (_ended s); [destruct k|]; simpl; now rewrite IH.
    + now rewrite IH.
Qed.

Lemma only_pool_changed h l b l' b' :
  set_backend b' (set_sounds l' (set_backend b (set_sounds l h)))
  = set_backend b' (set_sounds l' h).
Proof. reflexivity. Qed.

Lemma drain_loop_spec limit : forall P Suf h count,
  _sounds h = P ++ Suf ->
  Forall (fun a => a < length (heap h)) P ->
  count = Z.of_nat (count_sounds _ended (heap h) P) ->
  exists b, _drain_loop (length P) limit count h
            = Normal tt (set_backend (backend h ++ b)
                           (set_sounds (retain (heap h) (Z.to_nat (Z.max 0 limit)) P ++ Suf) h))
            /\ filter is_start b = [].
Proof.
  induction P as [|x P IH] using rev_ind; intros Suf h count Hs Hok Hc.
  - exists []. simpl. split; [|reflexivity]. unfold ret. rewrite app_nil_r.
    simpl in Hs. rewrite <- Hs. destruct h; reflexivity.
  - rewrite length_app, Nat.add_comm. simpl.
    apply Forall_app in Hok as [HokP Hx]. rewrite Forall_singleton in Hx.
    rewrite count_sounds_app in Hc.
    destruct (count <=? limit)%Z eqn:Hle.
    + exists []. split; [|reflexivity]. unfold ret. rewrite app_nil_r.
      rewrite retain_all.
      * rewrite <- Hs. destruct h; reflexivity.
      * rewrite count_sounds_app. apply Z.leb_le in Hle. lia.
    + apply Z.leb_gt in Hle.
      unfold mbind, M_bind, bind, get.
      assert (Hl : _sounds h !! length P = Some x).
      { rewrite Hs, <- app_assoc. apply list_lookup_middle. reflexivity. }
      rewrite Hl. unfold deref.
      destruct (lookup_lt_is_Some_2 (heap h) x Hx) as [s Hsx]. rewrite Hsx.
      assert (Hsh : sound_has _ended (heap h) x = _ended s).
      { unfold sound_has. now rewrite Hsx. }
      rewrite count_sounds_cons, Hsh in Hc. unfold count_sounds in Hc at 2. simpl in Hc.
      destruct (_ended s) eqn:He.
      * (* the newest remaining sound has ended: it is spliced out *)
        assert (H1 : exists b1, filter is_start b1 = [] /\
                  (when (_webAudio h) (log_backend (BDisconnect x)) h = Normal tt (set_backend (backend h ++ b1) h))).
        { destruct (_webAudio h); simpl.
          - exists [BDisconnect x]. split; reflexivity.
          - exists []. split; [reflexivity|]. unfold ret. rewrite app_nil_r. destruct h; reflexivity. }
        destruct H1 as (b1 & Hb1 & ->). unfold modify. cbn [_sounds set_backend].
        destruct (IH Suf (set_sounds (delete (length P) (_sounds h)) (set_backend (backend h ++ b1) h)) (count - 1)%Z) as (b & Hrun & Hb).
        { cbn. rewrite Hs, <- app_assoc. simpl. now rewrite delete_middle. }
        { exact HokP. }
        { cbn. lia. }
        exists (b1 ++ b). split.
        -- cbn [_sounds set_sounds set_backend heap backend] in *. rewrite Hrun. cbn.
           rewrite retain_snoc_ended; [now rewrite app_assoc | exact Hsh |].
           cbn in Hc. lia.
        -- now rewrite filter_app, Hb1, Hb.
      * (* it has not ended: it stays, the loop moves on *)
        destruct (IH (x :: Suf) h count) as (b & Hrun & Hb).
        { now rewrite Hs, <- app_assoc. }
        { exact HokP. }
        { lia. }
        exists b. split; [|exact Hb]. rewrite Hrun.
        rewrite retain_snoc_live; [now rewrite <- app_assoc | exact Hsh | exact Hx].
Qed.

Lemma count_ended_fold h : forall l (m : M Z) c,
  Forall (fun a => a < length (heap h)) l ->
  m h = Normal c h ->
  foldl (fun acc sound =>
           count ← acc; s ← deref sound;
           ret (if _ended s then (count + 1)%Z else count)) m l h
  = Normal (c + Z.of_nat (count_sounds _ended (heap h) l))%Z h.
Proof.
  induction l as [|a l IH]; intros m c Hok Hm; simpl.
  - rewrite Hm. unfold count_sounds. simpl. f_equal. lia.
  - apply Forall_cons in Hok as [Ha Hok].
    destruct (lookup_lt_is_Some_2 (heap h) a Ha) as [s Hs].
    rewrite (IH _ (if _ended s then c + 1 else c)%Z Hok).
    + rewrite count_sounds_cons. unfold sound_has. rewrite Hs.
      destruct (_ended s); f_equal; lia.
    + unfold mbind, M_bind, bind, deref. rewrite Hm, Hs. reflexivity.
Qed.

Lemma retain_ended_count heap k l :
  count_sounds _ended heap (retain heap k l) = Nat.min k (count_sounds _ended heap l).
Proof.
  revert k. induction l as [|a l IH]; intros k; simpl.
  - unfold count_sounds. simpl. lia.
  - rewrite count_sounds_cons. unfold sound_has.
    destruct (heap !! a) as [s|] eqn:Ha; simpl.
    + destruct (_ended s) eqn:He; simpl.
      * destruct k as [|k]; [rewrite IH; lia|].
        rewrite count_sounds_cons. unfold sound_has. rewrite Ha, He, IH. lia.
      * rewrite count_sounds_cons. unfold sound_has. rewrite Ha, He, IH. lia.
    + rewrite count_sounds_cons. unfold sound_has. rewrite Ha, IH. lia.
Qed.

Lemma retain_length heap k l :
  length (retain heap k l) = length l - (count_sounds _ended heap l - k).
Proof.
  revert k. induction l as [|a l IH]; intros k; simpl; [reflexivity|].
  rewrite count_sounds_cons. unfold sound_has.
  pose proof (count_sounds_le _ended heap l) as Hle.
  destruct (heap !! a) as [s|]; simpl.
  - destruct (_ended s); simpl.
    + destruct k as [|k]; simpl; rewrite IH; lia.
    + rewrite IH. lia.
  - rewrite IH. lia.
Qed.

Lemma drain_spec h :
  heap_ok h ->
  exists b,
    _drain h = Normal tt (set_backend (backend h ++ b)
                            (set_sounds (retain (heap h) (pool_size h) (_sounds h)) h))
    /\ filter is_start b = [].
Proof.
  intros Hok. unfold _drain, mbind, M_bind, bind, get.
  destruct (Z.of_nat (length (_sounds h)) <? _pool h)%Z eqn:Hlt.
  - exists []. split; [|reflexivity]. unfold ret. rewrite app_nil_r, retain_all.
    + destruct h; reflexivity.
    + apply Z.ltb_lt in Hlt. pose proof (count_sounds_le _ended (heap h) (_sounds h)).
      unfold pool_size. lia.
  - unfold count_ended. rewrite (count_ended_fold h (_sounds h) (ret 0%Z) 0%Z Hok eq_refl).
    destruct (drain_loop_spec (_pool h) (_sounds h) [] h
                (0 + Z.of_nat (count_sounds _ended (heap h) (_sounds h)))%Z)
      as (b & Hrun & Hb).
    + now rewrite app_nil_r.
    + exact Hok.
    + lia.
    + exists b. rewrite Hrun, app_nil_r. split; [reflexivity | exact Hb].
Qed.

(** ** Id resolution *)

Lemma soundById_lookup i h : _soundById (Some i) h = _sounds h !! i.
Proof.
  unfold _soundById.
  assert (G : forall (l : list nat) (k : nat) (acc : option nat),
             foldl (fun foundSound '(index, sound) =>
                      if decide (Some index = Some i) then Some sound else foundSound)
                   acc (imap (fun j x => (k + j, x)) l)
             = match (if decide (k <= i) then l !! (i - k) else None) with
               | Some a => Some a
               | None => acc
               end).
  { induction l as [|x l IH]; intros k acc; simpl.
    - destruct (decide (k <= i)); reflexivity.
    - rewrite (imap_ext _ (fun j y => (S k + j, y))) by (intros; unfold compose; simpl; f_equal; lia).
      rewrite IH. rewrite Nat.add_0_r.
      destruct (decide (Some k = Some i)) as [E|E].
      + injection E as ->. rewrite Nat.sub_diag. simpl.
        destruct (decide (S i <= i)); [lia|].
        destruct (decide (i <= i)); [reflexivity|lia].
      + assert (k <> i) by congruence.
        destruct (decide (S k <= i)), (decide (k <= i)); try lia; try reflexivity.
        replace (i - k) with (S (i - S k)) by lia. reflexivity. }
  specialize (G (_sounds h) 0 None). simpl in G.
  rewrite (imap_ext _ pair) in G by reflexivity. rewrite G.
  rewrite Nat.sub_0_r. destruct (decide (0 <= i)); [|lia].
  now destruct (_sounds h !! i).
Qed.

Lemma soundById_None h : _soundById None h = None.
Proof.
  unfold _soundById. generalize (imap pair (_sounds h)).
  induction l as [|[i x] l IH]; simpl; [reflexivity|].
  destruct (decide (Some i = None)); [discriminate|exact IH].
Qed.

#[local] Arguments _soundById : simpl never.


Lemma getSoundIds_fold h : forall l (m : M (list (option nat))) acc,
  Forall (fun a => a < length (heap h)) l ->
  m h = Normal acc h ->
  foldl (fun acc sound => ids ← acc; s ← deref sound; ret (ids ++ [Some (_id s)])) m l h
  = Normal (acc ++ map (fun s => Some (_id s)) (omap (fun a => heap h !! a) l)) h.
Proof.
  induction l as [|a l IH]; intros m acc Hok Hm; simpl.
  - now rewrite Hm, app_nil_r.
  - apply Forall_cons in Hok as [Ha Hok].
    destruct (lookup_lt_is_Some_2 (heap h) a Ha) as [s Hs].
    rewrite (IH _ (acc ++ [Some (_id s)]) Hok).
    + rewrite Hs. simpl. now rewrite <- app_assoc.
    + unfold mbind, M_bind, bind, deref. rewrite Hm, Hs. reflexivity.
Qed.

Lemma must_wait_quiet h : _state h = loaded -> _playLock h = false -> must_wait h = false.
Proof.
  intros H1 H2. unfold must_wait, is_loaded. rewrite H2.
  rewrite bool_decide_eq_true_2 by exact H1. reflexivity.
Qed.

(** C9 (amended): in a loaded group, [play] with a sprite name under which
    the sprite table holds nothing at all, neither an entry of its own nor
    a property every object inherits (such as [constructor]), returns
    [null] at once and does nothing: no exception, no event, no change of
    the group.  (What [play] does with an inherited name, for which the
    test [!self._sprite[sprite]] fails, is left out.) *)
Theorem play_unknown_sprite_ignored fuel h name internal :
  _state h = loaded -> howl_sprite h !! name = None -> inherited_name name = false ->
  no_sprite h name = true /\
  exec (S fuel) (CPlay (PSprite name) internal) h = Normal VNull h.
Proof.
  intros Hl Hn Hi.
  assert (Hno : no_sprite h name = true).
  { unfold no_sprite. rewrite bool_decide_eq_true_2 by exact Hn. now rewrite Hi. }
  split; [exact Hno|].
  simpl. unfold play, play_target, mbind, M_bind, bind, get.
  unfold is_loaded. rewrite bool_decide_eq_true_2 by exact Hl.
  rewrite Hno. reflexivity.
Qed.

(** ** Loading *)

Lemma event_not_loaderror t : event t <> Eloaderror.
Proof. unfold event. destruct (action t); discriminate. Qed.

(** No queued closure waits for [loaderror]: emitting it only records it. *)
Lemma emit_loaderror fuel h id msg :
  exec (S (S fuel)) (CEmit Eloaderror id msg) h
  = Normal VSelf (set_emitted (emitted h ++ [mkEmitted Eloaderror id msg]) h).
Proof.
  repeat (progress (cbn [exec dispatch];
                    unfold _emit, _loadQueue, mbind, M_bind, bind, get, modify)).
  cbn [_queue set_emitted].
  destruct (_queue h) as [|t rest]; [reflexivity|].
  destruct (decide (Some (event t) = Some Eloaderror)) as [E|_].
  - injection E as E. now apply event_not_loaderror in E.
  - reflexivity.
Qed.

Lemma pick_source_none fuel l : forall h,
  Forall (unsupported (howler h)) l ->
  pick_source (exec (S (S fuel))) l h
  = Normal None (set_emitted (emitted h ++ scan_reports l) h).
Proof.
  induction l as [|src l IH]; intros h Hl.
  - simpl. unfold ret, scan_reports. simpl. rewrite app_nil_r. destruct h; reflexivity.
  - apply Forall_cons in Hl as [Hs Hl]. unfold unsupported in Hs.
    cbn [pick_source]. unfold scan_reports. rewrite filter_cons.
    destruct (source_ext src) as [[e|]|] eqn:He.
    + unfold mbind, M_bind, bind, get. rewrite Hs.
      destruct (decide (Some (Some e) = None)); [discriminate|]. now apply IH.
    + unfold mbind, M_bind, bind, get.
      destruct (decide (Some None = None)); [discriminate|]. now apply IH.
    + unfold mbind, M_bind, bind. rewrite emit_loaderror.
      destruct (decide (None = None)); [|congruence].
      rewrite IH by exact Hl. cbn. unfold scan_reports. now rewrite <- app_assoc.
Qed.

(** When no listener is registered, [load] returns after its reports. *)
Lemma load_unsupported fuel h :
  noAudio (howler h) = false ->
  Forall (unsupported (howler h)) (_src h) ->
  exec (S (S (S fuel))) CLoad h
  = Normal VUndefined
      (set_emitted (emitted h ++ scan_reports (_src h)
                      ++ [mkEmitted Eloaderror None MsgNoCodec]) h).
Proof.
  intros Ha Hs.
  change (exec (S (S (S fuel))) CLoad h) with (load (exec (S (S fuel))) h).
  unfold load, mbind, M_bind, bind, get.
  rewrite Ha. rewrite pick_source_none by exact Hs. cbn [option_bind].
  rewrite emit_loaderror. cbn [emitted set_emitted]. now rewrite <- app_assoc.
Qed.

Lemma emit_each_loaderror fuel l : forall h,
  Forall (fun e => em_event e = Eloaderror) l ->
  emit_each (exec (S (S fuel))) l h = Normal tt (set_emitted (emitted h ++ l) h).
Proof.
  induction l as [|e l IH]; intros h Hl.
  - cbn. unfold ret. rewrite app_nil_r. destruct h; reflexivity.
  - apply Forall_cons in Hl as [He Hl].
    unfold emit_each. cbn [for_each]. fold (emit_each (exec (S (S fuel))) l).
    unfold mbind, M_bind, bind. rewrite He, emit_loaderror.
    unfold ret. rewrite IH by exact Hl. cbn [emitted set_emitted].
    rewrite <- app_assoc. destruct e as [ev i m]. cbn in He. subst ev. reflexivity.
Qed.

(** C8 (amended): when the host has audio ([noAudio] is false) and no
    candidate has an extension the backend supports, [load] is the
    emission of [loaderror] for each candidate that is not a string, in
    their order, followed by the emission of [loaderror] with the no-codec
    reason, and it gives back [undefined] when the last emission returns.
    Whatever the emissions do, the state of the group is not touched: it
    stays what it was, with the same candidates, sounds and queue, so only
    a new call of [load] tries again, on the same candidates. *)
Theorem load_no_codec fuel h :
  noAudio (howler h) = false ->
  Forall (unsupported (howler h)) (_src h) ->
  exec (S (S (S fuel))) CLoad h
  = (emit_each (exec (S (S fuel)))
       (scan_reports (_src h) ++ [mkEmitted Eloaderror None MsgNoCodec]) ;;
     ret VUndefined) h /\
  ipost (fun h' => _state h' = _state h /\ _src h' = _src h /\
                   _sounds h' = _sounds h /\ _queue h' = _queue h)
        (exec (S (S (S fuel))) CLoad h).
Proof.
  intros Ha Hs. rewrite load_unsupported by assumption. split.
  - unfold mbind, M_bind, bind. rewrite emit_each_loaderror; [reflexivity|].
    apply Forall_app. split; [|repeat constructor].
    unfold scan_reports. apply Forall_forall. intros e He.
    apply list_elem_of_fmap in He as (x & -> & _). reflexivity.
  - cbn. split_and!; reflexivity.
Qed.

(** ** A quiet group starts nothing when it stops, fades or reports *)

Ltac calm_frame :=
  let h := fresh "h" in let H := fresh "H" in
  intros h H; unfold calm, quiet, starts in *; cbn;
  rewrite ?filter_app; cbn; rewrite ?app_nil_r; exact H.

Lemma calm_refl h : quiet h -> calm h h.
Proof. unfold calm. tauto. Qed.

Lemma calm_drain_loop h0 n limit count : preserves (calm h0) (_drain_loop n limit count).
Proof. revert count. induction n as [|i IH]; intros count; simpl; pres_unfold calm_frame. Qed.

#[local] Hint Resolve calm_drain_loop : pres.
#[local] Hint Extern 1 (is_control _) => exact Logic.I : pres.

Lemma calm_play_target h0 arg : preserves (calm h0) (play_target arg).
Proof. unfold play_target. pres_unfold calm_frame. Qed.

Section CalmBodies.
Variable h0 : Howl.
Variable rec : Call -> M Value.
Hypothesis Hrec : forall c, is_control c -> preserves (calm h0) (rec c).
#[local] Hint Resolve Hrec : pres.

Lemma calm_emit ev id msg : preserves (calm h0) (_emit rec ev id msg).
Proof. unfold _emit. pres_unfold calm_frame. Qed.

Lemma calm_loadQueue ev : preserves (calm h0) (_loadQueue rec ev).
Proof.
  unfold _loadQueue. intros h Hh. apply ipost_get.
  pose proof Hh as ((_ & _ & Hq) & _). rewrite Hq. exact Hh.
Qed.

Lemma calm_stopFade id : preserves (calm h0) (_stopFade rec id).
Proof. unfold _stopFade. pres_unfold calm_frame. Qed.

(** In a quiet group a control call does not queue itself. *)
Ltac calm_top :=
  let h := fresh "h" in let Hh := fresh "Hh" in
  intros h Hh; apply ipost_get;
  let Hw := fresh "Hw" in
  assert (Hw : must_wait h = false)
    by (destruct Hh as ((? & ? & ?) & _); now apply must_wait_quiet);
  rewrite Hw; cbv iota;
  lazymatch goal with
  | |- ipost ?I (?m h) => apply ((fun H : preserves I m => H h Hh))
  end.

Lemma calm_volume v id k : preserves (calm h0) (volume rec v id k).
Proof. unfold volume. calm_top. pres_unfold calm_frame. Qed.

Lemma calm_stop id k : preserves (calm h0) (stop rec id k).
Proof. unfold stop. calm_top. pres_unfold calm_frame. Qed.

Lemma calm_dispatch c : is_control c -> preserves (calm h0) (dispatch rec c).
Proof.
  destruct c; simpl; try contradiction; intros _;
    auto using calm_stop, calm_volume, calm_stopFade, calm_emit, calm_loadQueue.
Qed.

(** The end-of-playback procedure, on the Web Audio backend or on a sound
    that does not loop. *)
Lemma calm_ended a h s :
  calm h0 h -> heap h !! a = Some s ->
  _webAudio h = true \/ no_loop h s ->
  ipost (calm h0) (Howl_ended rec a h).
Proof.
  intros Hh Hs Hloop. unfold Howl_ended. apply ipost_get.
  apply ipost_bind_at.
  { unfold deref. rewrite Hs. exact Hh. }
  intros s' h' E _. unfold deref in E. rewrite Hs in E. injection E as <- <-.
  cbv zeta.
  destruct (negb (_webAudio h) && _ && _ && _).
  { apply ((fun H : preserves (calm h0) _ => H h Hh)). pres_unfold calm_frame. }
  apply ipost_bind_at.
  { destruct (_loop s); [exact Hh|].
    apply ((fun H : preserves (calm h0) _ => H h Hh)). pres_unfold calm_frame. }
  intros loop h' E _.
  assert (Hl : h' = h /\ negb (_webAudio h) && loop = false).
  { destruct Hloop as [Hw|[Hl Hsp]].
    - rewrite Hw. split; [|reflexivity].
      destruct (_loop s); [now injection E|].
      unfold sprite_of, mbind, M_bind, bind, get in E.
      destruct (option_bind _ _ _ _); [now injection E|discriminate].
    - rewrite Hl in E. unfold sprite_of, mbind, M_bind, bind, get in E.
      destruct (option_bind _ _ _ _) as [sp|] eqn:Esp; [|discriminate].
      injection E as <- <-. rewrite (Hsp sp Esp). split; [reflexivity|].
      now rewrite andb_false_r. }
  destruct Hl as [-> Hl]. clear E.
  apply ipost_bind; [now apply Hrec | exact Hh |].
  intros _ h1 Hh1. apply ipost_get.
  assert (Hw1 : _webAudio h1 = _webAudio h).
  { destruct Hh as (_ & _ & ->). now destruct Hh1 as (_ & _ & ->). }
  rewrite Hw1, Hl. cbn [when].
  apply ((fun H : preserves (calm h0) _ => H h1 Hh1)). pres_unfold calm_frame.
Qed.

End CalmBodies.

Lemma calm_exec h0 fuel c : is_control c -> preserves (calm h0) (exec fuel c).
Proof.
  revert c. induction fuel as [|n IH]; intros c Hc; simpl.
  - intros h _. exact Logic.I.
  - apply calm_dispatch; assumption.
Qed.

Lemma bind_normal {A B} (m : M A) (f : A -> M B) h a h' :
  m h = Normal a h' -> (m ≫= f) h = f a h'.
Proof. intros E. unfold mbind, M_bind, bind. now rewrite E. Qed.

Lemma ipost_weaken (I J : Howl -> Prop) {A} (o : Outcome A) :
  (forall h, I h -> J h) -> ipost I o -> ipost J o.
Proof. intros HIJ. destruct o; simpl; auto. Qed.

(** C3 (amended): in a loaded group, a [play] whose start position is at or
    past the stop bound of the sprite stores the sprite, clears the ended
    flag, runs the end-of-playback procedure at once and returns what is
    left of it, [undefined], without reaching its own backend start.  When
    the group is quiet (nothing queued, no play waiting to commit) and the
    sound does not loop, or the backend is Web Audio, no backend playback is
    started at all. *)
Theorem play_past_stop fuel h arg internal id a sprite h1 s sp :
  _state h = loaded ->
  play_target arg h = Normal (Some (id, a, sprite)) h1 ->
  heap h1 !! a = Some s ->
  truthy id && negb (_paused s) = false ->
  (sprite ≫= fun name => howl_sprite h1 !! name) = Some sp ->
  Qle_bool (sprite_stop sp) (play_seek s sp) = true ->
  exists h2,
    exec (S fuel) (CPlay arg internal) h
    = (exec fuel (CEnded a) ≫= fun _ => ret VUndefined) h2 /\
    heap h2 !! a = Some (set_ended false (set_sprite sprite s)) /\
    starts h2 = starts h /\ pending h2 = pending h /\
    _endTimers h2 = _endTimers h /\
    (quiet h -> _webAudio h1 = true \/ (_loop s = false /\ sp_loop sp = false) ->
     ipost (fun h' => starts h' = starts h) (exec (S fuel) (CPlay arg internal) h)).
Proof.
  intros Hst Ht Hs Hid Hsp Hseek.
  pose proof (same_control_play_target h arg h (same_control_refl h)) as Hsc.
  rewrite Ht in Hsc. simpl in Hsc.
  destruct Hsc as (E1 & E2 & E3 & E4 & E5 & E6 & E7 & E8 & E9).
  assert (Hl : is_loaded h1 = true).
  { unfold is_loaded. rewrite E1. now apply bool_decide_eq_true_2. }
  set (h1' := if _webAudio h1 then set_backend (backend h1 ++ [BAutoResume]) h1 else h1).
  set (h2 := set_heap (alter (fun s => set_ended false (set_sprite sprite s)) a (heap h1')) h1').
  assert (Hrun : exec (S fuel) (CPlay arg internal) h
                 = (exec fuel (CEnded a) ≫= fun _ => ret VUndefined) h2).
  { cbn [exec dispatch]. unfold play.
    erewrite bind_normal by exact Ht. cbv beta iota.
    erewrite bind_normal by (unfold deref; rewrite Hs; reflexivity).
    erewrite bind_normal by reflexivity.
    rewrite Hl. cbn [negb]. rewrite Hid.
    assert (Hres : when (_webAudio h1) (log_backend BAutoResume) h1 = Normal tt h1').
    { unfold h1'. destruct (_webAudio h1); reflexivity. }
    erewrite bind_normal by exact Hres.
    assert (Hsp' : sprite_of sprite h1' = Normal sp h1').
    { unfold sprite_of. erewrite bind_normal by reflexivity.
      replace (sprite ≫= fun name => howl_sprite h1' !! name) with (Some sp); [reflexivity|].
      unfold h1'. destruct (_webAudio h1); now rewrite <- Hsp. }
    erewrite bind_normal by exact Hsp'. cbv zeta.
    erewrite bind_normal by reflexivity.
    rewrite Hseek. reflexivity. }
  assert (Hh2 : heap h2 !! a = Some (set_ended false (set_sprite sprite s))).
  { unfold h2, h1'. destruct (_webAudio h1); cbn;
      rewrite list_lookup_alter_eq; now rewrite Hs. }
  exists h2. split_and!.
  - exact Hrun.
  - exact Hh2.
  - unfold h2, h1', starts in *. destruct (_webAudio h1); cbn; [|exact E9].
    rewrite filter_app. cbn. now rewrite app_nil_r.
  - unfold h2, h1'. destruct (_webAudio h1); exact E6.
  - unfold h2, h1'. destruct (_webAudio h1); exact E8.
  - intros Hq Hloop. rewrite Hrun.
    assert (Hc1 : calm h h1).
    { pose proof (calm_play_target h arg h (calm_refl h Hq)) as H. now rewrite Ht in H. }
    assert (Hc2 : calm h h2).
    { unfold h2, h1'. destruct Hc1 as ((Q1 & Q2 & Q3) & S1 & W1).
      destruct (_webAudio h1) eqn:Ew;
        (split; [split_and!; cbn; assumption | split; cbn]);
        try (rewrite Ew; exact W1);
        unfold starts in *; cbn; rewrite ?filter_app; cbn; rewrite ?app_nil_r; exact S1. }
    destruct fuel as [|n]; [exact Logic.I|].
    apply ipost_weaken with (I := calm h); [now intros h' (_ & H' & _)|].
    apply ipost_bind_at.
    + cbn [exec dispatch].
      apply (calm_ended h (exec n) (fun c Hc => calm_exec h n c Hc) a h2 _ Hc2 Hh2).
      destruct Hloop as [Hw|[Hlp Hspl]].
      * left. unfold h2, h1'. now rewrite Hw.
      * right. split; [exact Hlp|]. intros sp' Hsp'.
        assert (sp' = sp); [|now subst].
        cbn in Hsp'. unfold h2, h1' in Hsp'.
        destruct (_webAudio h1); cbn in Hsp'; congruence.
    + intros _ h' _ Hh'. exact Hh'.
Qed.

(** C4 (amended): eviction goes through the sounds from the newest to the
    oldest and removes ended ones until the number of ENDED sounds is at or
    below the pool size; sounds that have not ended are never removed.  So
    after eviction at most [pool] ended sounds are retained (the oldest
    ones), and the number of live sounds is at most the pool size plus the
    number of sounds that have not ended. *)
Theorem drain_bounds_ended h :
  heap_ok h ->
  exists h',
    _drain h = Normal tt h' /\
    heap h' = heap h /\
    _sounds h' = retain (heap h) (pool_size h) (_sounds h) /\
    ended_count h' = Nat.min (pool_size h) (ended_count h) /\
    length (_sounds h') = length (_sounds h) - (ended_count h - pool_size h) /\
    length (_sounds h') <= pool_size h + (length (_sounds h) - ended_count h) /\
    starts h' = starts h.
Proof.
  intros Hok. destruct (drain_spec h Hok) as (b & Hrun & Hb).
  eexists. split; [exact Hrun|]. cbn.
  pose proof (count_sounds_le _ended (heap h) (_sounds h)) as Hle.
  split_and!.
  - reflexivity.
  - reflexivity.
  - unfold ended_count. cbn. apply retain_ended_count.
  - apply retain_length.
  - rewrite retain_length. unfold ended_count. lia.
  - unfold starts. cbn. rewrite filter_app, Hb. apply app_nil_r.
Qed.

(** * The claims on concrete groups *)

Lemma fifo_initial st wa pool : fifo (group_example st wa pool).
Proof.
  unfold fifo. cbn. split_and!.
  - constructor.
  - repeat constructor.
  - intros r s Hr. now apply elem_of_nil in Hr.
  - intros r Hr. now apply elem_of_nil in Hr.
Qed.

Lemma fifo_after cs h : fifo h -> fifo (after cs h).
Proof.
  intros Hh. unfold after. pose proof (fifo_run_calls 8 cs h Hh) as H.
  destruct (run 8 cs h); simpl in H; assumption.
Qed.



(** C2 (the code breaks it): [volume(0.5)], [rate(2)] and [play('foo')]
    are issued before the load and queued in that order.  Once the group
    is loaded, [_loadQueue()] runs the closure of [volume(0.5)]; the call
    names no sound, [_getSoundIds] hands it [[null]], no sound is found and
    no [volume] event is emitted, so the head is never shifted.  However
    often the queue is stepped, and whatever event is passed in between,
    only that closure runs: the rate stays 1, nothing is played and the
    three tasks stay queued, where the same calls made on the loaded group
    set the rate to 2 and start the playback. *)
Theorem queued_commands_stay_queued :
  map action (_queue decoded_example)
  = [AVolume (Some (1 # 2)%Q) None false; ARate 2%Q None; APlay (PId 1)] /\
  _state decoded_example = loaded /\ _playLock decoded_example = false /\
  (exists v h,
     run 8 queued_calls (group_example loaded true 5) = Normal v h /\
     howl_volume h = (1 # 2)%Q /\ howl_rate h = 2%Q /\
     length (starts h) = 1 /\ _queue h = []) /\
  (exists h',
     run 3 (replicate 3 (CLoadQueue None)) decoded_example = Normal VSelf h' /\
     _queue h' = _queue decoded_example /\ ran h' = [0; 0; 0] /\
     howl_volume h' = (1 # 2)%Q /\ howl_rate h' = 1%Q /\
     starts h' = [] /\ emitted h' = [] /\ pending h' = []) /\
  (exists h',
     run 4 [CLoadQueue None; CLoadQueue (Some Eload); CLoadQueue (Some Eplay);
            CLoadQueue None] decoded_example = Normal VSelf h' /\
     _queue h' = _queue decoded_example /\ ran h' = [0; 0] /\
     howl_rate h' = 1%Q /\ starts h' = []) /\
  (* the step itself works: were [volume] passed, the head would be shifted
     and the closure of [rate(2)] run, which is stuck in the same way *)
  (exists h',
     exec 4 (CLoadQueue (Some Evolume)) decoded_example = Normal VSelf h' /\
     map action (_queue h') = [ARate 2%Q None; APlay (PId 1)] /\ ran h' = [1] /\
     howl_rate h' = 2%Q /\ starts h' = [] /\ emitted h' = []).
Proof.
  split; [vm_compute; reflexivity|].
  split; [vm_compute; reflexivity|]. split; [vm_compute; reflexivity|].
  split; [|split; [|split]].
  - eexists. eexists. split; [vm_compute; reflexivity|].
    split_and!; vm_compute; reflexivity.
  - eexists. split; [vm_compute; reflexivity|].
    split_and!; vm_compute; reflexivity.
  - eexists. split; [vm_compute; reflexivity|].
    split_and!; vm_compute; reflexivity.
  - eexists. split; [vm_compute; reflexivity|].
    split_and!; vm_compute; reflexivity.
Qed.

Lemma play_past_stop_witness :
  _state sought_example = loaded /\
  exists s sp,
    play_target (PId 1) sought_example
    = Normal (Some (Some 1, 1, Some "foo"%string)) sought_example /\
    heap sought_example !! 1 = Some s /\
    truthy (Some 1) && negb (_paused s) = false /\
    (Some "foo"%string ≫= fun name => howl_sprite sought_example !! name) = Some sp /\
    Qle_bool (sprite_stop sp) (play_seek s sp) = true /\
    quiet sought_example /\
    (_webAudio sought_example = true \/ (_loop s = false /\ sp_loop sp = false)) /\
    exists h2,
      exec 4 (CPlay (PId 1) false) sought_example
      = (exec 3 (CEnded 1) ≫= fun _ => ret VUndefined) h2 /\
      heap h2 !! 1 = Some (set_ended false (set_sprite (Some "foo"%string) s)) /\
      starts h2 = starts sought_example /\ pending h2 = pending sought_example /\
      _endTimers h2 = _endTimers sought_example /\
      (quiet sought_example ->
       _webAudio sought_example = true \/ (_loop s = false /\ sp_loop sp = false) ->
       ipost (fun h' => starts h' = starts sought_example)
             (exec 4 (CPlay (PId 1) false) sought_example)).
Proof.
  split; [reflexivity|]. eexists. eexists.
  split; [vm_compute; reflexivity|]. split; [vm_compute; reflexivity|].
  split; [vm_compute; reflexivity|]. split; [vm_compute; reflexivity|].
  split; [vm_compute; reflexivity|].
  split; [split_and!; vm_compute; reflexivity|].
  split; [left; vm_compute; reflexivity|].
  eapply (play_past_stop 3 sought_example (PId 1) false (Some 1) 1
            (Some "foo"%string) sought_example);
    [vm_compute; reflexivity | vm_compute; reflexivity | vm_compute; reflexivity
    | vm_compute; reflexivity | vm_compute; reflexivity | vm_compute; reflexivity].
Defined.

(** C3 as stated fails: on HTML5 Audio, when the sound loops, the
    end-of-playback procedure that [play] runs restarts playback with
    [stop(id, true).play(id)], so a backend playback is started. *)
Lemma play_past_stop_restarts_loop :
  _state looping_example = loaded /\
  (exists s sp,
     (_soundById (Some 1) looping_example ≫= fun a => heap looping_example !! a) = Some s /\
     (_sprite s ≫= fun name => howl_sprite looping_example !! name) = Some sp /\
     _paused s = true /\
     Qle_bool (sprite_stop sp) (play_seek s sp) = true) /\
  exists h',
    exec 8 (CPlay (PId 1) false) looping_example = Normal VUndefined h' /\
    starts h' = starts looping_example ++ [BNodePlay 2] /\
    starts h' <> starts looping_example.
Proof.
  split; [reflexivity|]. split.
  - eexists. eexists. split; [vm_compute; reflexivity|].
    split; [vm_compute; reflexivity|]. split; reflexivity.
  - eexists. split; [vm_compute; reflexivity|]. split; [reflexivity|].
    vm_compute. discriminate.
Qed.

Lemma heap_ok_explicit h :
  forallb (fun a => a <? length (heap h)) (_sounds h) = true -> heap_ok h.
Proof.
  unfold heap_ok. intros H. apply Forall_forall. intros a Ha.
  rewrite forallb_forall in H. apply Nat.ltb_lt. apply H. now apply list_elem_of_In.
Qed.

Lemma drain_bounds_ended_witness :
  heap_ok crowded_example /\
  exists h',
    _drain crowded_example = Normal tt h' /\
    heap h' = heap crowded_example /\
    _sounds h' = retain (heap crowded_example) (pool_size crowded_example)
                   (_sounds crowded_example) /\
    ended_count h' = Nat.min (pool_size crowded_example) (ended_count crowded_example) /\
    length (_sounds h')
    = length (_sounds crowded_example)
      - (ended_count crowded_example - pool_size crowded_example) /\
    length (_sounds h')
    <= pool_size crowded_example
       + (length (_sounds crowded_example) - ended_count crowded_example) /\
    starts h' = starts crowded_example.
Proof.
  split; [apply heap_ok_explicit; vm_compute; reflexivity|].
  apply (drain_bounds_ended crowded_example).
  apply heap_ok_explicit; vm_compute; reflexivity.
Defined.

(** C4 as stated fails: with a pool of one, after two plays and the end of
    the second sound, the group holds two sounds, one of them playing;
    eviction removes nothing, although the live count is above the pool
    size and above the number of playing sounds, and an ended sound
    remains. *)
Lemma drain_keeps_more_than_pool :
  run 8 crowded_calls (group_example loaded true 1) = Normal VSelf crowded_example /\
  _drain crowded_example = Normal tt crowded_example /\
  length (_sounds crowded_example) = 2 /\
  pool_size crowded_example = 1 /\
  playing_count crowded_example = 1 /\
  ended_count crowded_example = 1 /\
  ~ (length (_sounds crowded_example)
     <= Nat.max (pool_size crowded_example) (playing_count crowded_example)).
Proof.
  split; [vm_compute; reflexivity|]. split; [vm_compute; reflexivity|].
  split; [reflexivity|]. split; [reflexivity|].
  split; [vm_compute; reflexivity|]. split; [vm_compute; reflexivity|].
  vm_compute. lia.
Qed.

(** C5 (the code breaks it): with a pool of one, three sounds get the ids
    1, 2, 3; the first two end; the next [play] evicts the second sound and
    recycles the first; the [play] after it registers a new sound, whose id
    is the new length of the array, 3: the id the third sound still holds
    (the FIXME of [register]: "ensure indexes are not reused"). *)
Theorem register_reuses_ids :
  exists h,
    run 8 recycling_calls (group_example loaded true 1) = Normal (VId 3) h /\
    map _id (heap h) = [1; 2; 3; 3] /\
    _sounds h = [0; 2; 3] /\
    map _id (live h) = [1; 3; 3] /\
    ~ NoDup (map _id (live h)).
Proof.
  eexists. split; [vm_compute; reflexivity|].
  split; [reflexivity|]. split; [reflexivity|]. split; [reflexivity|].
  cbn. intros H. apply NoDup_cons in H as [_ H]. apply NoDup_cons in H as [H _].
  apply H. now left.
Qed.

(** C6 (the code breaks it): in a loaded group with one sound, of id 1,
    [fade(0, 1, 100, 1)] starts no fade: [_getSoundIds(1)] is [[1]] and
    [_soundById(1)] reads index 1 of an array of length 1.  The volume of
    the sound is not even set to 0, no timer is stored and [fade] is never
    emitted. *)
Theorem fade_reaches_no_sound :
  exists h,
    run 8 [play_foo; CFade 0%Q 1%Q 100%Q (Some 1)] (group_example loaded true 5)
    = Normal VSelf h /\
    map (fun s => (_id s, _volume s, _interval s, _fadeTo s)) (live h)
    = [(1, 1%Q, None, None)] /\
    emitted h = [] /\
    ~ (exists e, e ∈ emitted h /\ em_event e = Efade).
Proof.
  eexists. split; [vm_compute; reflexivity|].
  split; [reflexivity|]. split; [reflexivity|].
  intros (e & He & _). cbn in He. now apply elem_of_nil in He.
Qed.

(** C7 (the code breaks it).  First, [playing(id)] reads the sound at array
    INDEX [id]: with two sounds, the first ended (hence paused) and the
    second playing, [playing(1)] answers for the second one and says that
    the paused sound of id 1 is playing.  Second, the play lock is one
    boolean shared by every play that waits for its node: when the first of
    two waiting plays commits, [stop] is let through and ends the other
    sound, whose own commit then clears [_paused] and leaves [_ended] set. *)
Theorem paused_sound_reported_playing :
  (exists h,
     run 8 mixed_calls (group_example loaded true 5) = Normal VSelf h /\
     map (fun s => (_id s, _paused s, _ended s)) (live h)
     = [(1, true, true); (2, false, false)] /\
     playing (Some 1) h = true) /\
  (exists h,
     run 8 racing_calls (group_example loaded false 5) = Normal VUndefined h /\
     map (fun s => (_id s, _paused s, _ended s)) (live h)
     = [(1, false, false); (2, false, true)]).
Proof.
  split.
  - eexists. split; [vm_compute; reflexivity|]. split; reflexivity.
  - eexists. split; [vm_compute; reflexivity|]. reflexivity.
Qed.

Lemma load_no_codec_witness :
  noAudio (howler (group_unsupported false)) = false /\
  Forall (unsupported (howler (group_unsupported false))) (_src (group_unsupported false)) /\
  scan_reports (_src (group_unsupported false)) = [mkEmitted Eloaderror None MsgNonString] /\
  exec 3 CLoad (group_unsupported false)
  = (emit_each (exec 2)
       (scan_reports (_src (group_unsupported false))
          ++ [mkEmitted Eloaderror None MsgNoCodec]) ;;
     ret VUndefined) (group_unsupported false) /\
  ipost (fun h' => _state h' = unloaded /\ _src h' = _src (group_unsupported false) /\
                   _sounds h' = _sounds (group_unsupported false) /\
                   _queue h' = _queue (group_unsupported false))
        (exec 3 CLoad (group_unsupported false)).
Proof.
  assert (Hu : Forall (unsupported (howler (group_unsupported false)))
                 (_src (group_unsupported false))).
  { repeat constructor. }
  split; [reflexivity|]. split; [exact Hu|]. split; [vm_compute; reflexivity|].
  apply (load_no_codec 0 (group_unsupported false)); [reflexivity | exact Hu].
Defined.

(** C8 as stated fails: when the host has no audio at all, [load] leaves
    before it scans the candidates and reports "No audio support."; the
    no-codec reason is never given, although no candidate is supported. *)
Lemma load_no_audio_reports_no_audio :
  Forall (unsupported (howler (group_unsupported true))) (_src (group_unsupported true)) /\
  exists h,
    exec 3 CLoad (group_unsupported true) = Normal VUndefined h /\
    emitted h = [mkEmitted Eloaderror None MsgNoAudio] /\
    _state h = unloaded /\
    ~ (exists e, e ∈ emitted h /\ em_msg e = MsgNoCodec).
Proof.
  split; [repeat constructor|].
  eexists. split; [vm_compute; reflexivity|].
  split; [reflexivity|]. split; [reflexivity|].
  intros (e & He & Hm). apply list_elem_of_singleton in He. subst e. discriminate.
Qed.

Lemma play_unknown_sprite_ignored_witness :
  _state (group_example loaded true 5) = loaded /\
  howl_sprite (group_example loaded true 5) !! "nope"%string = None /\
  inherited_name "nope" = false /\
  no_sprite (group_example loaded true 5) "nope" = true /\
  exec 1 (CPlay (PSprite "nope") false) (group_example loaded true 5)
  = Normal VNull (group_example loaded true 5).
Proof.
  split; [reflexivity|]. split; [vm_compute; reflexivity|].
  split; [vm_compute; reflexivity|].
  apply (play_unknown_sprite_ignored 0 (group_example loaded true 5) "nope" false);
    [reflexivity | vm_compute; reflexivity | vm_compute; reflexivity].
Defined.

(** C9 as stated fails: [play("nope")] on a loaded group whose sprite table
    has no entry of that name returns [null] normally; nothing is thrown,
    nothing is emitted, and the group is left as it was. *)
Lemma play_unknown_sprite_does_not_fail :
  howl_sprite (group_example loaded true 5) !! "nope"%string = None /\
  exec 8 (CPlay (PSprite "nope") false) (group_example loaded true 5)
  = Normal VNull (group_example loaded true 5) /\
  (forall h', exec 8 (CPlay (PSprite "nope") false) (group_example loaded true 5)
              <> TypeError h').
Proof.
  split; [vm_compute; reflexivity|].
  assert (H : exec 8 (CPlay (PSprite "nope") false) (group_example loaded true 5)
              = Normal VNull (group_example loaded true 5)) by (vm_compute; reflexivity).
  split; [exact H|]. intros h'. rewrite H. discriminate.
Qed.


(** * Further properties: loading *)

Lemma new_Sound_spec c h :
  new_Sound c h
  = Normal (length (heap h))
      (set_heap (heap h ++ [constructed (S (length (_sounds h))) c h])
         (set_sounds (_sounds h ++ [length (heap h)]) h)).
Proof.
  unfold new_Sound, register, update, constructed, mbind, M_bind, bind, get, modify, ret.
  cbn. f_equal.
  replace (length (heap h)) with (length (heap h) + 0) at 1 by lia.
  rewrite alter_app_r. cbn. rewrite length_app. cbn.
  replace (length (_sounds h) + 1) with (S (length (_sounds h))) by lia.
  destruct (masterMuted (howler h) || cfg_muted c || howl_muted h); reflexivity.
Qed.

Lemma pick_source_first fuel l1 src l2 e : forall h,
  Forall (unsupported (howler h)) l1 ->
  source_ext src = Some (Some e) -> codecs (howler h) e = true ->
  pick_source (exec (S (S fuel))) (l1 ++ src :: l2) h
  = Normal (Some src) (set_emitted (emitted h ++ scan_reports l1) h).
Proof.
  induction l1 as [|s0 l1 IH]; intros h Hl He Hc.
  - cbn [app pick_source]. rewrite He. unfold mbind, M_bind, bind, get. rewrite Hc.
    unfold ret, scan_reports. cbn. rewrite app_nil_r. destruct h; reflexivity.
  - apply Forall_cons in Hl as [Hs Hl]. unfold unsupported in Hs.
    cbn [app pick_source]. unfold scan_reports. rewrite filter_cons.
    destruct (source_ext s0) as [[e0|]|] eqn:He0.
    + unfold mbind, M_bind, bind, get. rewrite Hs.
      destruct (decide (Some (Some e0) = None)); [discriminate|]. now apply IH.
    + unfold mbind, M_bind, bind, get.
      destruct (decide (Some None = None)); [discriminate|]. now apply IH.
    + unfold mbind, M_bind, bind. rewrite emit_loaderror.
      destruct (decide (None = None)); [|congruence].
      rewrite IH by assumption. cbn. unfold scan_reports. now rewrite <- app_assoc.
Qed.

(** The state [load] leaves when the first supported candidate is [src]. *)
Lemma load_success fuel h l1 src l2 e u :
  noAudio (howler h) = false ->
  _src h = l1 ++ src :: l2 ->
  Forall (unsupported (howler h)) l1 ->
  source_ext src = Some (Some e) -> codecs (howler h) e = true ->
  src_url src = Some u -> u <> ""%string ->
  let h2 := set_state loading (set_url (Some u) (set_emitted (emitted h ++ scan_reports l1) h)) in
  let h3 := if mixed_content h u then set_webAudio false (set_html5 true h2) else h2 in
  let h4 := set_heap (heap h3 ++ [constructed (S (length (_sounds h3))) (newSound (howler h3)) h3])
              (set_sounds (_sounds h3 ++ [length (heap h3)]) h3) in
  exec (S (S (S fuel))) CLoad h
  = Normal VSelf (if _webAudio h4 then set_backend (backend h4 ++ [BLoadBuffer]) h4 else h4).
Proof.
  intros Ha Hsrc Hl He Hc Hu Hne h2 h3 h4.
  change (exec (S (S (S fuel))) CLoad h) with (load (exec (S (S fuel))) h).
  unfold load. unfold mbind at 1, M_bind at 1, bind at 1, get at 1.
  rewrite Ha, Hsrc.
  erewrite bind_normal by (apply (pick_source_first fuel l1 src l2 e); assumption).
  cbn [mbind option_bind]. rewrite Hu.
  destruct u as [|c u']; [congruence|].
  erewrite bind_normal by reflexivity.
  erewrite bind_normal by reflexivity.
  assert (H3 : (if pageIsHttps (howler h2)
                then when (bool_decide (substring 0 5 (String c u') = "http:"%string))
                       (modify (fun h => set_webAudio false (set_html5 true h)))
                else ret tt) h2 = Normal tt h3).
  { unfold h3, mixed_content. change (howler h2) with (howler h).
    destruct (pageIsHttps (howler h)); [|reflexivity].
    cbn [andb]. destruct (bool_decide _); reflexivity. }
  erewrite bind_normal by exact H3.
  erewrite bind_normal by reflexivity.
  erewrite bind_normal by apply new_Sound_spec.
  erewrite bind_normal by reflexivity.
  fold h4. destruct (_webAudio h4); reflexivity.
Qed.

Lemma scan_reports_strings l :
  Forall (fun src => source_ext src <> None) l -> scan_reports l = [].
Proof.
  unfold scan_reports. induction 1 as [|src l Hs _ IH]; [reflexivity|].
  rewrite filter_cons. destruct (decide (source_ext src = None)); [contradiction|exact IH].
Qed.

(** X1: [load] takes the first candidate whose extension the backend
    supports.  When each candidate before it is a string or has a format
    entry, they are skipped without a report and the candidates after it
    are not looked at: the call returns the group, which is now [loading]
    with the chosen URL as its only source; no event is emitted and the
    queue and the end timers are what they were. *)
Theorem load_picks_first_supported fuel h l1 src l2 e u :
  noAudio (howler h) = false ->
  _src h = l1 ++ src :: l2 ->
  Forall (unsupported (howler h)) l1 ->
  Forall (fun s => source_ext s <> None) l1 ->
  source_ext src = Some (Some e) -> codecs (howler h) e = true ->
  src_url src = Some u -> u <> ""%string ->
  exists h',
    exec (S (S (S fuel))) CLoad h = Normal VSelf h' /\
    _state h' = loading /\ _url h' = Some u /\ map src_url (_src h') = [Some u] /\
    emitted h' = emitted h /\
    _queue h' = _queue h /\ _endTimers h' = _endTimers h.
Proof.
  intros Ha Hsrc Hl Hstr He Hc Hu Hne.
  pose proof (load_success fuel h l1 src l2 e u Ha Hsrc Hl He Hc Hu Hne) as H.
  cbv zeta in H. rewrite (scan_reports_strings l1 Hstr), app_nil_r in H.
  eexists. split; [exact H|]. clear H.
  destruct (mixed_content h u); cbn;
    repeat (match goal with |- context [if ?b then _ else _] => destruct b end; cbn);
    (split_and!; reflexivity).
Qed.


(** ** The extension of a candidate *)

Lemma lower_ascii_idem c : lower_ascii (lower_ascii c) = lower_ascii c.
Proof. destruct c as [[] [] [] [] [] [] [] []]; reflexivity. Qed.

Lemma lower_ascii_not_separator c x :
  x = "."%char \/ x = "?"%char \/ x = ";"%char \/ x = ","%char ->
  Ascii.eqb (lower_ascii c) x = Ascii.eqb c x.
Proof.
  intros [-> | [-> | [-> | ->]]];
    destruct c as [[] [] [] [] [] [] [] []]; reflexivity.
Qed.

Lemma toLowerCase_idem s : toLowerCase (toLowerCase s) = toLowerCase s.
Proof. induction s as [|c s IH]; simpl; [reflexivity|]. now rewrite lower_ascii_idem, IH. Qed.

Lemma strip_prefix_ci_lower p s :
  strip_prefix_ci p (toLowerCase s) = toLowerCase <$> strip_prefix_ci p s.
Proof.
  revert s. induction p as [|a p IH]; intros s; simpl; [reflexivity|].
  destruct s as [|b s]; simpl; [reflexivity|].
  rewrite lower_ascii_idem. destruct (Ascii.eqb (lower_ascii a) (lower_ascii b)); [apply IH|reflexivity].
Qed.

Lemma span_media_lower s :
  span_media (toLowerCase s)
  = (toLowerCase (fst (span_media s)), toLowerCase (snd (span_media s))).
Proof.
  induction s as [|c s IH]; simpl; [reflexivity|].
  rewrite !lower_ascii_not_separator by auto.
  destruct (Ascii.eqb c ";" || Ascii.eqb c ","); simpl; [reflexivity|].
  rewrite IH. destruct (span_media s); reflexivity.
Qed.

Lemma data_uri_ext_lower s :
  data_uri_ext (toLowerCase s) = toLowerCase <$> data_uri_ext s.
Proof.
  unfold data_uri_ext. rewrite strip_prefix_ci_lower.
  destruct (strip_prefix_ci _ s) as [rest|]; simpl; [|reflexivity].
  rewrite span_media_lower. destruct (span_media rest) as [m r]; simpl.
  destruct m as [|c m]; simpl; [reflexivity|].
  destruct r as [|d r]; simpl; [reflexivity|].
  rewrite lower_ascii_not_separator by auto.
  destruct (Ascii.eqb d ";"); reflexivity.
Qed.

Lemma before_query_lower s : before_query (toLowerCase s) = toLowerCase (before_query s).
Proof.
  induction s as [|c s IH]; simpl; [reflexivity|].
  rewrite lower_ascii_not_separator by auto.
  destruct (Ascii.eqb c "?"); simpl; [reflexivity|]. now rewrite IH.
Qed.

Lemma has_dot_lower s : has_dot (toLowerCase s) = has_dot s.
Proof.
  induction s as [|c s IH]; simpl; [reflexivity|].
  rewrite lower_ascii_not_separator by auto. now rewrite IH.
Qed.

Lemma after_last_dot_lower s :
  after_last_dot (toLowerCase s) = toLowerCase <$> after_last_dot s.
Proof.
  induction s as [|c s IH]; simpl; [reflexivity|].
  rewrite lower_ascii_not_separator, has_dot_lower by auto.
  destruct (Ascii.eqb c "." && negb (has_dot s)); [|exact IH].
  destruct s; reflexivity.
Qed.

(** X4: the extension [load] reads from a URL does not depend on the case
    of its letters, and is handed to the codec test in lower case. *)
Theorem source_ext_ignores_case u :
  source_ext (url_source (toLowerCase u)) = source_ext (url_source u) /\
  forall e, source_ext (url_source u) = Some (Some e) -> toLowerCase e = e.
Proof.
  unfold source_ext, url_source. cbn [src_format src_url]. split.
  - rewrite data_uri_ext_lower, before_query_lower, after_last_dot_lower.
    destruct (data_uri_ext u) as [e|]; cbn; [now rewrite toLowerCase_idem|].
    destruct (after_last_dot (before_query u)); cbn; [now rewrite toLowerCase_idem|reflexivity].
  - intros e He. injection He as He.
    destruct (data_uri_ext u) as [e0|]; cbn in He.
    + injection He as <-. apply toLowerCase_idem.
    + destruct (after_last_dot (before_query u)); cbn in He; [|discriminate].
      injection He as <-. apply toLowerCase_idem.
Qed.

Lemma strip_prefix_ci_query pre p q :
  (forall a, In a (list_ascii_of_string pre) -> Ascii.eqb (lower_ascii a) "?" = false) ->
  strip_prefix_ci pre p = None ->
  strip_prefix_ci pre (p ++ String "?" q) = None.
Proof.
  revert p. induction pre as [|a pre IH]; intros p Hq Hp; simpl in *; [discriminate|].
  destruct p as [|b p]; simpl.
  - change (lower_ascii "?") with "?"%char. rewrite Hq by now left. reflexivity.
  - destruct (Ascii.eqb (lower_ascii a) (lower_ascii b)); [|reflexivity].
    apply IH; [|exact Hp]. intros a' Ha'. apply Hq. now right.
Qed.

Lemma before_query_app p q :
  before_query p = p -> before_query (p ++ String "?" q) = p.
Proof.
  induction p as [|c p IH]; simpl; [reflexivity|].
  destruct (Ascii.eqb c "?"); [discriminate|].
  intros H. injection H as H. now rewrite IH.
Qed.

Lemma before_query_id p : ~ In "?"%char (list_ascii_of_string p) -> before_query p = p.
Proof.
  induction p as [|c p IH]; simpl; [reflexivity|]. intros H.
  destruct (Ascii.eqb_spec c "?") as [->|_]; [exfalso; apply H; now left|].
  f_equal. apply IH. intros Hin. apply H. now right.
Qed.

(** X3: a query string does not count.  For a URL [p] that is not an audio
    data URI and holds no question mark, [p?q] has the extension of [p],
    whatever [q] is. *)
Theorem source_ext_ignores_query p q :
  strip_prefix_ci "data:audio/" p = None ->
  ~ In "?"%char (list_ascii_of_string p) ->
  source_ext (url_source (p ++ String "?" q)) = source_ext (url_source p).
Proof.
  intros Hd Hp0. pose proof (before_query_id p Hp0) as Hp.
  unfold source_ext, url_source. cbn [src_format src_url].
  assert (Hd' : strip_prefix_ci "data:audio/" (p ++ String "?" q) = None).
  { apply strip_prefix_ci_query; [|exact Hd].
    intros a Ha. cbn in Ha.
    repeat (destruct Ha as [<-|Ha]; [reflexivity|]). contradiction. }
  unfold data_uri_ext. rewrite Hd, Hd'.
  now rewrite before_query_app, Hp.
Qed.

(** * Further properties: starting playback *)

Lemma deref_at a h s : heap h !! a = Some s -> deref a h = Normal s h.
Proof. intros H. unfold deref. now rewrite H. Qed.

Lemma sprite_of_at sprite h sp :
  (sprite ≫= fun name => howl_sprite h !! name) = Some sp ->
  sprite_of sprite h = Normal sp h.
Proof. intros H. unfold sprite_of. erewrite bind_normal by reflexivity. now rewrite H. Qed.


Lemma alter_twice {A} (f g : A -> A) i (l : list A) :
  alter f i (alter g i l) = alter (fun x => f (g x)) i l.
Proof.
  revert i. induction l as [|x l IH]; intros [|i]; simpl; try reflexivity.
  f_equal. apply IH.
Qed.

Lemma setParams_spec c h s sp :
  heap h !! pc_sound c = Some s ->
  (pc_sprite c ≫= fun name => howl_sprite h !! name) = Some sp ->
  setParams c h
  = Normal tt
      (set_heap
         (alter (fun s0 => set_loop (_loop s || sp_loop sp)
                   (set_stop (pc_stop c) (set_start (pc_start c)
                      (set_seek (Some (pc_seek c)) (set_paused false s0)))))
            (pc_sound c) (heap h)) h).
Proof.
  intros Hs Hsp. unfold setParams, update.
  erewrite bind_normal by reflexivity.
  erewrite bind_normal.
  2:{ apply deref_at. cbn. rewrite list_lookup_alter_eq, Hs. reflexivity. }
  cbn [_loop set_stop set_start set_seek set_paused].
  erewrite (bind_normal _ _ _ (_loop s || sp_loop sp)).
  2:{ destruct (_loop s); [reflexivity|].
      erewrite bind_normal by (apply sprite_of_at; exact Hsp). reflexivity. }
  unfold modify. cbn. now rewrite alter_twice.
Qed.

Lemma playWebAudio_spec c h s sp :
  heap h !! pc_sound c = Some s ->
  (pc_sprite c ≫= fun name => howl_sprite h !! name) = Some sp ->
  let loop := _loop s || sp_loop sp in
  playWebAudio c h
  = Normal tt
      (set_pending (pending h ++ (if pc_internal c then [] else [CbEmitPlay (_id s)]))
         (set_endTimers
            (match pc_timeout c with
             | Infinity => _endTimers h
             | t => <[_id s := TimeoutTimer (pc_sound c) t]> (_endTimers h)
             end)
            (set_backend
               (backend h ++ [BGain (pc_sound c) (if _muted s || howl_muted h then 0%Q else _volume s);
                              BStart (pc_sound c) (pc_seek c)
                                (if loop then 86400%Q else pc_duration c)])
               (set_heap (alter (started c s sp (ctxTime (howler h))) (pc_sound c) (heap h))
                  (set_playLock false h))))).
Proof.
  intros Hs Hsp loop. unfold playWebAudio.
  erewrite bind_normal by reflexivity.
  erewrite bind_normal by (apply setParams_spec; [exact Hs | exact Hsp]).
  unfold _refreshBuffer, update_node, update.
  erewrite bind_normal by reflexivity.
  erewrite bind_normal by reflexivity.
  erewrite bind_normal.
  2:{ apply deref_at. cbn. rewrite !list_lookup_alter_eq, Hs. reflexivity. }
  cbn [_muted _volume _loop _id set_node set_loop set_stop set_start set_seek set_paused].
  unfold log_backend, arm_timer, defer, when.
  erewrite bind_normal by reflexivity.
  erewrite bind_normal by reflexivity.
  erewrite bind_normal by reflexivity.
  destruct (pc_timeout c), (pc_internal c);
    repeat (erewrite bind_normal by reflexivity);
    unfold modify, ret; cbn; rewrite !alter_twice, <- ?app_assoc; unfold started; cbn;
    rewrite ?app_nil_r; reflexivity.
Qed.

(** [play], up to the choice of the backend. *)
Lemma play_reaches_backend fuel h arg internal id a sprite h1 s sp :
  _state h = loaded ->
  play_target arg h = Normal (Some (id, a, sprite)) h1 ->
  heap h1 !! a = Some s ->
  truthy id && negb (_paused s) = false ->
  (sprite ≫= fun name => howl_sprite h1 !! name) = Some sp ->
  Qle_bool (sprite_stop sp) (play_seek s sp) = false ->
  let h1' := if _webAudio h1 then set_backend (backend h1 ++ [BAutoResume]) h1 else h1 in
  let h2 := set_heap (alter (fun s => set_ended false (set_sprite sprite s)) a (heap h1')) h1' in
  let c := play_closure a sprite s sp internal in
  exec (S fuel) (CPlay arg internal) h
  = ((if _webAudio h2 then
        if ctxRunning (howler h2) then playWebAudio c
        else modify (set_playLock true) ;; defer (CbResume c) ;; _clearTimer (Some (_id s))
      else
        if isReady (_node s) then playHtml5 (exec fuel) c
        else modify (set_playLock true) ;; defer (CbCanPlay c) ;; _clearTimer (Some (_id s))) ;;
     ret (VId (_id s))) h2.
Proof.
  intros Hst Ht Hs Hid Hsp Hseek h1' h2 c.
  pose proof (same_control_play_target h arg h (same_control_refl h)) as Hsc.
  rewrite Ht in Hsc. simpl in Hsc.
  destruct Hsc as (E1 & _).
  assert (Hl : is_loaded h1 = true).
  { unfold is_loaded. rewrite E1. now apply bool_decide_eq_true_2. }
  cbn [exec dispatch]. unfold play.
  erewrite bind_normal by exact Ht. cbv beta iota.
  erewrite bind_normal by (apply deref_at; exact Hs).
  erewrite bind_normal by reflexivity.
  rewrite Hl. cbn [negb]. rewrite Hid.
  assert (Hres : when (_webAudio h1) (log_backend BAutoResume) h1 = Normal tt h1').
  { unfold h1'. destruct (_webAudio h1); reflexivity. }
  erewrite bind_normal by exact Hres.
  assert (Hsp' : sprite_of sprite h1' = Normal sp h1').
  { apply sprite_of_at. unfold h1'. destruct (_webAudio h1); exact Hsp. }
  erewrite bind_normal by exact Hsp'. cbv zeta.
  erewrite bind_normal by reflexivity.
  rewrite Hseek.
  erewrite bind_normal by reflexivity. reflexivity.
Qed.

(** X7: on a loaded Web Audio group whose audio context runs, a [play] that
    is not a replay of a playing sound and whose start position lies before
    the stop bound of the sprite starts the buffer source at that position,
    for the rest of the sprite (or for 86400 s when the sound loops), marks
    the sound as playing, arms the end timer after [duration * 1000 / |rate|]
    ms (no timer when that is [Infinity]), and defers the [play] event
    unless the call is internal.  It returns the id of the sound and leaves
    the play lock open. *)
Theorem play_starts_web_audio fuel h arg internal id a sprite h1 s sp :
  _state h = loaded ->
  play_target arg h = Normal (Some (id, a, sprite)) h1 ->
  heap h1 !! a = Some s ->
  truthy id && negb (_paused s) = false ->
  (sprite ≫= fun name => howl_sprite h1 !! name) = Some sp ->
  Qle_bool (sprite_stop sp) (play_seek s sp) = false ->
  _webAudio h1 = true -> ctxRunning (howler h1) = true ->
  let seek := play_seek s sp in
  let duration := Qmax 0%Q (sprite_stop sp - seek)%Q in
  let loop := _loop s || sp_loop sp in
  exists h2 s2,
    exec (S fuel) (CPlay arg internal) h = Normal (VId (_id s)) h2 /\
    heap h2 !! a = Some s2 /\
    _paused s2 = false /\ _ended s2 = false /\ _sprite s2 = sprite /\
    _seek s2 = Some seek /\ _start s2 = sprite_start sp /\ _stop s2 = sprite_stop sp /\
    _loop s2 = loop /\ _playStart s2 = ctxTime (howler h1) /\ _id s2 = _id s /\
    bufferSource (_node s2) = true /\
    backend h2
    = backend h1 ++ [BAutoResume;
                     BGain a (if _muted s || howl_muted h1 then 0%Q else _volume s);
                     BStart a seek (if loop then 86400%Q else duration)] /\
    _playLock h2 = false /\
    _endTimers h2
    = match js_div (duration * 1000)%Q (Qabs (_rate s)) with
      | Infinity => _endTimers h1
      | t => <[_id s := TimeoutTimer a t]> (_endTimers h1)
      end /\
    pending h2 = pending h1 ++ (if internal then [] else [CbEmitPlay (_id s)]) /\
    emitted h2 = emitted h1 /\ _queue h2 = _queue h1.
Proof.
  intros Hst Ht Hs Hid Hsp Hseek Hw Hctx seek duration loop.
  pose proof (play_reaches_backend fuel h arg internal id a sprite h1 s sp
                Hst Ht Hs Hid Hsp Hseek) as Hrun.
  cbv zeta in Hrun. rewrite Hw in Hrun. cbn [_webAudio howler set_heap set_backend] in Hrun.
  rewrite Hw, Hctx in Hrun.
  erewrite bind_normal in Hrun.
  2:{ apply (playWebAudio_spec _ _ (set_ended false (set_sprite sprite s)) sp).
      - cbn. rewrite list_lookup_alter_eq, Hs. reflexivity.
      - exact Hsp. }
  eexists. eexists. split; [exact Hrun|]. clear Hrun.
  cbn. rewrite !list_lookup_alter_eq, Hs. cbn.
  split_and!; try reflexivity.
  now rewrite <- app_assoc.
Qed.

(** ** Events that no queued closure waits for *)

Lemma emit_unqueued fuel h ev id msg :
  (forall t, event t <> ev) ->
  exec (S (S fuel)) (CEmit ev id msg) h
  = Normal VSelf (set_emitted (emitted h ++ [mkEmitted ev id msg]) h).
Proof.
  intros Hev.
  repeat (progress (cbn [exec dispatch];
                    unfold _emit, _loadQueue, mbind, M_bind, bind, get, modify)).
  cbn [_queue set_emitted].
  destruct (_queue h) as [|t rest]; [reflexivity|].
  destruct (decide (Some (event t) = Some ev)) as [E|_].
  - injection E as E. now apply Hev in E.
  - reflexivity.
Qed.

Lemma emit_idle fuel h ev id msg :
  _queue h = [] ->
  exec (S (S fuel)) (CEmit ev id msg) h
  = Normal VSelf (set_emitted (emitted h ++ [mkEmitted ev id msg]) h).
Proof.
  intros Hq.
  repeat (progress (cbn [exec dispatch];
                    unfold _emit, _loadQueue, mbind, M_bind, bind, get, modify)).
  cbn [_queue set_emitted]. now rewrite Hq.
Qed.

Lemma event_not_playerror t : event t <> Eplayerror.
Proof. unfold event. destruct (action t); discriminate. Qed.

Lemma event_not_end t : event t <> Eend.
Proof. unfold event. destruct (action t); discriminate. Qed.

Lemma fire_at fuel k ok h cb :
  pending h !! k = Some cb ->
  exec (S fuel) (CFire k ok) h
  = fire (exec fuel) cb ok (set_pending (delete k (pending h)) h).
Proof.
  intros Hk. cbn [exec dispatch]. erewrite bind_normal by reflexivity.
  rewrite Hk. erewrite bind_normal by reflexivity. reflexivity.
Qed.

Lemma delete_snoc {A} (l : list A) x : delete (length l) (l ++ [x]) = l.
Proof. induction l as [|y l IH]; simpl; [reflexivity|]. now rewrite IH. Qed.

Lemma lookup_snoc {A} (l : list A) x : (l ++ [x]) !! length l = Some x.
Proof. induction l as [|y l IH]; simpl; [reflexivity|exact IH]. Qed.


Lemma bind_discard {A B} (m : M A) (k : M B) h :
  ((m ;; ret tt) ≫= fun _ => k) h = (m ≫= fun _ => k) h.
Proof. unfold mbind, M_bind, bind, ret. destruct (m h); reflexivity. Qed.

(** [playHtml5] on a host whose [node.play()] throws: the node is cued,
    then the handler of [catch] emits [playerror]. *)
Lemma playHtml5_throws rec c h s :
  heap h !! pc_sound c = Some s ->
  nodePlay (howler h) = PlayThrows ->
  playHtml5 rec c h
  = (rec (CEmit Eplayerror (Some (_id s)) MsgException) ;; ret tt)
      (set_backend
         (backend h ++ [BMute (pc_sound c) (_muted s || howl_muted h || masterMuted (howler h));
                        BGain (pc_sound c) (_volume s * masterVolume (howler h))%Q;
                        BRate (pc_sound c) (_rate s)])
         (set_heap (alter (cued c) (pc_sound c) (heap h)) h)).
Proof.
  intros Hs Hp. unfold playHtml5.
  erewrite bind_normal by reflexivity.
  erewrite bind_normal by (apply deref_at; exact Hs).
  unfold update_node, update, log_backend.
  repeat (erewrite bind_normal by reflexivity).
  rewrite Hp. unfold try_catch.
  unfold mbind at 1, M_bind at 1, bind at 1, throw at 1.
  unfold cued. cbn [set_backend set_heap backend heap]. rewrite <- !app_assoc. reflexivity.
Qed.

(** X9: on HTML5 Audio, a [node.play()] that throws is caught: [play]
    cues the node and then is the emission of [playerror] with the
    exception, internal call or not, followed by the return of the id of
    the sound.  The emission starts from a group in which the sound is as
    it was apart from the sprite and the cleared ended flag: nothing has
    been emitted before, no timer is armed, the lock is not taken, nothing
    is deferred and no playback counts as started. *)
Theorem play_html5_throw_is_reported fuel h arg internal id a sprite h1 s sp :
  _state h = loaded ->
  play_target arg h = Normal (Some (id, a, sprite)) h1 ->
  heap h1 !! a = Some s ->
  truthy id && negb (_paused s) = false ->
  (sprite ≫= fun name => howl_sprite h1 !! name) = Some sp ->
  Qle_bool (sprite_stop sp) (play_seek s sp) = false ->
  _webAudio h1 = false -> isReady (_node s) = true ->
  nodePlay (howler h1) = PlayThrows ->
  exists h2 s2,
    exec (S (S (S fuel))) (CPlay arg internal) h
    = (exec (S (S fuel)) (CEmit Eplayerror (Some (_id s)) MsgException) ≫= fun _ =>
       ret (VId (_id s))) h2 /\
    emitted h2 = emitted h1 /\
    heap h2 !! a = Some s2 /\ _paused s2 = _paused s /\ _ended s2 = false /\
    _sprite s2 = sprite /\
    starts h2 = starts h1 /\ _playLock h2 = _playLock h1 /\
    _endTimers h2 = _endTimers h1 /\ pending h2 = pending h1 /\ _queue h2 = _queue h1.
Proof.
  intros Hst Ht Hs Hid Hsp Hseek Hw Hready Hthrow.
  pose proof (play_reaches_backend (S (S fuel)) h arg internal id a sprite h1 s sp
                Hst Ht Hs Hid Hsp Hseek) as Hrun.
  cbv zeta in Hrun. rewrite Hw in Hrun. cbn [_webAudio howler set_heap set_backend] in Hrun.
  rewrite Hw, Hready in Hrun.
  unfold mbind at 1, M_bind at 1, bind at 1 in Hrun.
  rewrite (playHtml5_throws _ _ _ (set_ended false (set_sprite sprite s))) in Hrun.
  2:{ cbn. rewrite list_lookup_alter_eq, Hs. reflexivity. }
  2:{ exact Hthrow. }
  eexists. eexists. split.
  { rewrite Hrun. cbn [_id set_ended set_sprite].
    apply (bind_discard
             (exec (S (S fuel)) (CEmit Eplayerror (Some (_id s)) MsgException))
             (ret (VId (_id s)))). }
  clear Hrun.
  cbn. rewrite !list_lookup_alter_eq, Hs. cbn.
  split_and!; try reflexivity.
  unfold starts. rewrite filter_app. cbn. now rewrite app_nil_r.
Qed.

Lemma playHtml5_promise fuel c h s sp :
  heap h !! pc_sound c = Some s ->
  (pc_sprite c ≫= fun name => howl_sprite h !! name) = Some sp ->
  nodePlay (howler h) = PlayPromise -> playBlocked (howler h) = false ->
  let a := pc_sound c in
  let loop := _loop s || sp_loop sp in
  playHtml5 (exec fuel) c h
  = Normal tt
      (set_endTimers (<[_id s := html5_timer c (set_loop loop s)]> (_endTimers h))
         (set_pending (pending h ++ [CbPromise c])
            (set_playLock true
               (set_backend
                  (backend h ++ [BMute a (_muted s || howl_muted h || masterMuted (howler h));
                                 BGain a (_volume s * masterVolume (howler h))%Q;
                                 BRate a (_rate s); BNodePlay a; BRate a (_rate s)])
                  (set_heap
                     (alter (fun s0 =>
                               set_loop loop
                                 (set_stop (pc_stop c) (set_start (pc_start c)
                                    (set_seek (Some (pc_seek c)) (set_paused false
                                       (set_node (set_nd_paused false
                                                    (set_currentTime (pc_seek c) (_node s0))) s0))))))
                        a (heap h)) h))))).
Proof.
  intros Hs Hsp Hp Hb a loop. unfold playHtml5.
  erewrite bind_normal by reflexivity.
  erewrite bind_normal by (apply deref_at; exact Hs).
  unfold update_node, update, log_backend.
  repeat (erewrite bind_normal by reflexivity).
  rewrite Hp. unfold try_catch.
  cbn [howler set_backend set_heap]. rewrite Hb.
  unfold defer.
  erewrite bind_normal.
  2:{ repeat (erewrite bind_normal by reflexivity).
      erewrite bind_normal.
      2:{ apply (setParams_spec _ _
                   (set_node (set_nd_paused false (set_currentTime (pc_seek c) (_node s))) s) sp).
          - cbn. rewrite !list_lookup_alter_eq, Hs. reflexivity.
          - exact Hsp. }
      reflexivity. }
  erewrite bind_normal.
  2:{ apply deref_at. cbn. rewrite !list_lookup_alter_eq, Hs. reflexivity. }
  erewrite bind_normal by reflexivity.
  cbn [nd_paused _node set_loop set_stop set_start set_seek set_paused set_node set_nd_paused
         set_currentTime _loop].
  unfold html5_timer, arm_timer. cbn [_loop set_loop pc_sprite].
  fold loop.
  destruct (negb (bool_decide (pc_sprite c = Some default_sprite)) || loop);
    unfold modify; cbn; rewrite !alter_twice, <- !app_assoc; reflexivity.
Qed.

Lemma loadQueue_idle fuel ev h : _queue h = [] -> exec (S fuel) (CLoadQueue ev) h = Normal VSelf h.
Proof.
  intros Hq. cbn [exec dispatch]. unfold _loadQueue.
  erewrite bind_normal by reflexivity. now rewrite Hq.
Qed.

Lemma play_html5_setup fuel h arg internal id a sprite h1 s sp :
  _state h = loaded ->
  play_target arg h = Normal (Some (id, a, sprite)) h1 ->
  heap h1 !! a = Some s ->
  truthy id && negb (_paused s) = false ->
  (sprite ≫= fun name => howl_sprite h1 !! name) = Some sp ->
  Qle_bool (sprite_stop sp) (play_seek s sp) = false ->
  _webAudio h1 = false -> isReady (_node s) = true ->
  nodePlay (howler h1) = PlayPromise -> playBlocked (howler h1) = false ->
  exec (S fuel) (CPlay arg internal) h
  = Normal (VId (_id s)) (html5_pending a sprite s sp internal h1).
Proof.
  intros Hst Ht Hs Hid Hsp Hseek Hw Hready Hp Hb.
  pose proof (play_reaches_backend fuel h arg internal id a sprite h1 s sp
                Hst Ht Hs Hid Hsp Hseek) as Hrun.
  cbv zeta in Hrun. rewrite Hw in Hrun. cbn [_webAudio howler set_heap set_backend] in Hrun.
  rewrite Hw, Hready in Hrun.
  erewrite bind_normal in Hrun.
  2:{ apply (playHtml5_promise _ _ _ (set_ended false (set_sprite sprite s)) sp).
      - cbn. rewrite list_lookup_alter_eq, Hs. reflexivity.
      - exact Hsp.
      - exact Hp.
      - exact Hb. }
  rewrite Hrun. unfold ret, html5_pending. cbn. rewrite !alter_twice. reflexivity.
Qed.

Lemma try_catch_modify_bind {A B} g (m handler : M A) (k : A -> M B) h :
  (try_catch (modify g ;; m) handler ≫= k) h = (try_catch m handler ≫= k) (g h).
Proof. reflexivity. Qed.

(** X10: on HTML5 Audio with a ready node, when [node.play()] returns a
    promise and leaves the node playing ([node.paused] is false after the
    call), [play] takes the play lock, marks the sound as playing and arms
    the end timer at once, and emits nothing.  If the promise is rejected,
    the lock is released and the handler is the emission of [playerror]
    followed by the reset of the sound to paused and ended.  Whether that
    emission returns or throws, the lock is open afterwards and the end
    timer that the call armed is not cleared. *)
Theorem play_promise_rejected fuel h arg internal id a sprite h1 s sp :
  _state h = loaded ->
  play_target arg h = Normal (Some (id, a, sprite)) h1 ->
  heap h1 !! a = Some s ->
  truthy id && negb (_paused s) = false ->
  (sprite ≫= fun name => howl_sprite h1 !! name) = Some sp ->
  Qle_bool (sprite_stop sp) (play_seek s sp) = false ->
  _webAudio h1 = false -> isReady (_node s) = true ->
  nodePlay (howler h1) = PlayPromise -> playBlocked (howler h1) = false ->
  exists h2 s2,
    (* the call: the node is told to play, the sound counts as playing, the
       group is locked until the promise settles *)
    exec (S fuel) (CPlay arg internal) h = Normal (VId (_id s)) h2 /\
    _playLock h2 = true /\ starts h2 = starts h1 ++ [BNodePlay a] /\
    emitted h2 = emitted h1 /\
    heap h2 !! a = Some s2 /\ _paused s2 = false /\ _ended s2 = false /\
    _endTimers h2 !! _id s = Some (html5_timer (play_closure a sprite s sp internal) s2) /\
    (* the rejection *)
    exec (S (S (S fuel))) (CFire (length (pending h1)) false) h2
    = (exec (S (S fuel)) (CEmit Eplayerror (Some (_id s)) MsgPlayback) ≫= fun _ =>
       update a (fun s => set_paused true (set_ended true s)) ;;
       ret VUndefined)
        (set_playLock false (set_pending (pending h1) h2)) /\
    (* the end timer armed by the call is still armed *)
    ipost (fun h' => _playLock h' = false /\ _endTimers h' = _endTimers h2)
          (exec (S (S (S fuel))) (CFire (length (pending h1)) false) h2).
Proof.
  intros Hst Ht Hs Hid Hsp Hseek Hw Hready Hp Hb.
  pose proof (play_html5_setup fuel h arg internal id a sprite h1 s sp
                Hst Ht Hs Hid Hsp Hseek Hw Hready Hp Hb) as Hrun.
  eexists. eexists.
  split; [exact Hrun|]. clear Hrun.
  split; [reflexivity|].
  split. { unfold starts, html5_pending. cbn. rewrite !filter_app. cbn. reflexivity. }
  split; [reflexivity|].
  split. { unfold html5_pending. cbn. rewrite list_lookup_alter_eq, Hs. reflexivity. }
  split; [reflexivity|]. split; [reflexivity|].
  split. { unfold html5_pending. cbn. rewrite lookup_insert_eq. reflexivity. }
  assert (Hfire :
    exec (S (S (S fuel))) (CFire (length (pending h1)) false)
      (html5_pending a sprite s sp internal h1)
    = (exec (S (S fuel)) (CEmit Eplayerror (Some (_id s)) MsgPlayback) ≫= fun _ =>
       update a (fun s => set_paused true (set_ended true s)) ;;
       ret VUndefined)
        (set_playLock false
           (set_pending (pending h1) (html5_pending a sprite s sp internal h1)))).
  { erewrite fire_at by (unfold html5_pending; cbn; apply lookup_snoc).
    unfold html5_pending. cbn -[mbind exec update]. rewrite delete_snoc.
    erewrite bind_normal.
    2:{ apply deref_at. cbn. rewrite list_lookup_alter_eq, Hs. reflexivity. }
    cbn -[mbind exec update].
    unfold mbind at 1, M_bind at 1, bind at 1.
    unfold mbind at 1, M_bind at 1, bind at 1. unfold modify at 1.
    cbn -[mbind exec update].
    unfold mbind, M_bind, bind.
    destruct (exec (S (S fuel)) (CEmit Eplayerror (Some (_id s)) MsgPlayback) _);
      [|reflexivity|reflexivity].
    destruct (update a _ _); reflexivity. }
  split; [exact Hfire|].
  rewrite Hfire.
  erewrite bind_normal by (apply emit_unqueued; apply event_not_playerror).
  unfold update. erewrite bind_normal by reflexivity.
  cbn. split; reflexivity.
Qed.

(** X11: same call, the promise resolves.  The lock is released and, for a
    call that is not internal, the handler of [then] is the emission of
    [play] followed by a step of the queue; should it throw, the handler
    of [catch] runs as for a rejection.  The sound is playing, not ended,
    at the computed start position when the handler starts, and nothing
    has been emitted until then.  With nothing queued the lock is open
    afterwards and the end timer is untouched, whatever the emissions do;
    for an internal call nothing is emitted at all. *)
Theorem play_promise_resolved fuel h arg internal id a sprite h1 s sp :
  _state h = loaded ->
  play_target arg h = Normal (Some (id, a, sprite)) h1 ->
  heap h1 !! a = Some s ->
  truthy id && negb (_paused s) = false ->
  (sprite ≫= fun name => howl_sprite h1 !! name) = Some sp ->
  Qle_bool (sprite_stop sp) (play_seek s sp) = false ->
  _webAudio h1 = false -> isReady (_node s) = true ->
  nodePlay (howler h1) = PlayPromise -> playBlocked (howler h1) = false ->
  _queue h1 = [] ->
  exists h2 h3 s3,
    exec (S fuel) (CPlay arg internal) h = Normal (VId (_id s)) h2 /\
    _playLock h2 = true /\ emitted h2 = emitted h1 /\
    pending h2 = pending h1 ++ [CbPromise (play_closure a sprite s sp internal)] /\
    (* the promise resolves *)
    h3 = set_playLock false (set_pending (pending h1) h2) /\
    exec (S (S (S fuel))) (CFire (length (pending h1)) true) h2
    = (try_catch
         (when (negb internal)
            (exec (S (S fuel)) (CEmit Eplay (Some (_id s)) MsgNone) ;;
             exec (S (S fuel)) (CLoadQueue None) ;; ret tt))
         (modify (set_playLock false) ;;
          exec (S (S fuel)) (CEmit Eplayerror (Some (_id s)) MsgPlayback) ;;
          update a (fun s => set_paused true (set_ended true s))) ;;
       ret VUndefined) h3 /\
    (internal = true ->
     exec (S (S (S fuel))) (CFire (length (pending h1)) true) h2 = Normal VUndefined h3) /\
    heap h3 !! a = Some s3 /\ _paused s3 = false /\ _ended s3 = false /\
    _seek s3 = Some (play_seek s sp) /\ _sprite s3 = sprite /\
    currentTime (_node s3) = play_seek s sp /\
    emitted h3 = emitted h1 /\ starts h3 = starts h1 ++ [BNodePlay a] /\
    _endTimers h3 = _endTimers h2 /\
    ipost (fun h' => _playLock h' = false /\ _endTimers h' = _endTimers h2)
          (exec (S (S (S fuel))) (CFire (length (pending h1)) true) h2).
Proof.
  intros Hst Ht Hs Hid Hsp Hseek Hw Hready Hp Hb Hq.
  pose proof (play_html5_setup fuel h arg internal id a sprite h1 s sp
                Hst Ht Hs Hid Hsp Hseek Hw Hready Hp Hb) as Hrun.
  set (h2 := html5_pending a sprite s sp internal h1) in *.
  set (h3 := set_playLock false (set_pending (pending h1) h2)).
  assert (Hfire :
    exec (S (S (S fuel))) (CFire (length (pending h1)) true) h2
    = (try_catch
         (when (negb internal)
            (exec (S (S fuel)) (CEmit Eplay (Some (_id s)) MsgNone) ;;
             exec (S (S fuel)) (CLoadQueue None) ;; ret tt))
         (modify (set_playLock false) ;;
          exec (S (S fuel)) (CEmit Eplayerror (Some (_id s)) MsgPlayback) ;;
          update a (fun s => set_paused true (set_ended true s))) ;;
       ret VUndefined) h3).
  { erewrite fire_at by (unfold h2, html5_pending; cbn; apply lookup_snoc).
    unfold h3, h2, html5_pending. cbn -[mbind exec update try_catch when]. rewrite delete_snoc.
    erewrite bind_normal.
    2:{ apply deref_at. cbn. rewrite list_lookup_alter_eq, Hs. reflexivity. }
    cbn -[mbind exec update try_catch when].
    rewrite try_catch_modify_bind. reflexivity. }
  assert (Hq3 : _queue h3 = []) by exact Hq.
  exists h2, h3. eexists.
  split; [exact Hrun|]. clear Hrun.
  split; [reflexivity|]. split; [reflexivity|]. split; [reflexivity|].
  split; [reflexivity|].
  split; [exact Hfire|].
  split. { intros ->. rewrite Hfire. reflexivity. }
  split. { unfold h3, h2, html5_pending. cbn. rewrite list_lookup_alter_eq, Hs. reflexivity. }
  split; [reflexivity|]. split; [reflexivity|]. split; [reflexivity|].
  split; [reflexivity|]. split; [reflexivity|]. split; [reflexivity|].
  split. { unfold starts, h3, h2, html5_pending. cbn. rewrite !filter_app. cbn. reflexivity. }
  split; [reflexivity|].
  rewrite Hfire. destruct internal.
  - cbn. split; reflexivity.
  - cbn [negb when]. unfold try_catch.
    unfold mbind at 1, M_bind at 1, bind at 1.
    erewrite bind_normal by (apply emit_idle; exact Hq3).
    erewrite bind_normal by (apply loadQueue_idle; exact Hq3).
    cbn. split; reflexivity.
Qed.

(** * Further properties: the end of playback *)

(** X12: the natural end of a Web Audio sound that does not loop is the
    emission of [end] followed by one update: the sound becomes paused and
    ended with its position back at the start of the sprite, its end timer
    is cleared, its buffer source is dropped and the registry is asked to
    suspend the context if it can.  Whatever the emission does, the queue,
    the play lock and the array of sounds are left alone: no queued
    closure waits for [end]. *)
Theorem ended_web_audio_once fuel h a s sp :
  _webAudio h = true ->
  heap h !! a = Some s ->
  _loop s = false ->
  (_sprite s ≫= fun name => howl_sprite h !! name) = Some sp -> sp_loop sp = false ->
  exec (S (S (S fuel))) (CEnded a) h
  = (exec (S (S fuel)) (CEmit Eend (Some (_id s)) MsgNone) ≫= fun _ =>
     modify (fun h1 =>
       set_backend (backend h1 ++ [BAutoSuspend])
         (set_endTimers (delete (_id s) (_endTimers h1))
            (set_heap
               (alter (fun s0 =>
                         set_node (set_bufferSource false (_node s0))
                           (set_rateSeek (Some 0%Q) (set_seek (Some (_start s0))
                              (set_ended true (set_paused true s0)))))
                  a (heap h1)) h1))) ;;
     ret VSelf) h /\
  ipost (fun h' => _queue h' = _queue h /\ _playLock h' = _playLock h /\
                   _sounds h' = _sounds h)
        (exec (S (S (S fuel))) (CEnded a) h).
Proof.
  intros Hw Hs Hl Hsp Hspl.
  assert (He : exec (S (S (S fuel))) (CEnded a) h
    = (exec (S (S fuel)) (CEmit Eend (Some (_id s)) MsgNone) ≫= fun _ =>
       modify (fun h1 =>
         set_backend (backend h1 ++ [BAutoSuspend])
           (set_endTimers (delete (_id s) (_endTimers h1))
              (set_heap
                 (alter (fun s0 =>
                           set_node (set_bufferSource false (_node s0))
                             (set_rateSeek (Some 0%Q) (set_seek (Some (_start s0))
                                (set_ended true (set_paused true s0)))))
                    a (heap h1)) h1))) ;;
       ret VSelf) h).
  { etransitivity.
    - change (exec (S (S (S fuel))) (CEnded a) h) with (Howl_ended (exec (S (S fuel))) a h).
      unfold Howl_ended.
      erewrite bind_normal by reflexivity.
      erewrite bind_normal by (apply deref_at; exact Hs).
      cbv zeta. rewrite Hw. cbn [negb andb]. rewrite Hl.
      erewrite bind_normal.
      2:{ erewrite bind_normal by (apply sprite_of_at; exact Hsp). reflexivity. }
      rewrite Hspl.
      erewrite bind_normal by (apply emit_unqueued; apply event_not_end).
      unfold update, _clearTimer, _cleanBuffer, update_node, update, log_backend.
      repeat first
        [ progress cbn [_webAudio set_emitted set_heap set_endTimers set_backend
                          negb andb when]
        | rewrite Hw
        | erewrite bind_normal by reflexivity ].
      reflexivity.
    - symmetry.
      erewrite bind_normal by (apply emit_unqueued; apply event_not_end).
      unfold modify, ret, mbind, M_bind, bind. cbn. rewrite !alter_twice. reflexivity. }
  split; [exact He|].
  rewrite He.
  erewrite bind_normal by (apply emit_unqueued; apply event_not_end).
  cbn. split_and!; reflexivity.
Qed.

(** X13: the natural end of a Web Audio sound that loops, by its own flag
    or by its sprite, is the emission of [end], then the emission of
    [play], then one update: the position goes back to the start of the
    sprite, the start time is the current time of the context, and the end
    timer is armed again for a whole sprite,
    [(stop - start) * 1000 / |rate|] ms.  The update does not pause or end
    the sound and makes no backend call: the buffer source loops by
    itself.  With nothing queued, the play lock and the array of sounds
    are what they were, whatever the emissions do. *)
Theorem ended_web_audio_loop fuel h a s :
  _webAudio h = true ->
  heap h !! a = Some s ->
  _loop s = true \/
  (exists sp, (_sprite s ≫= fun name => howl_sprite h !! name) = Some sp /\ sp_loop sp = true) ->
  _queue h = [] ->
  exec (S (S (S fuel))) (CEnded a) h
  = (exec (S (S fuel)) (CEmit Eend (Some (_id s)) MsgNone) ≫= fun _ =>
     exec (S (S fuel)) (CEmit Eplay (Some (_id s)) MsgNone) ≫= fun _ =>
     modify (fun h1 =>
       set_endTimers
         (<[_id s := TimeoutTimer a (js_div ((_stop s - _start s) * 1000)%Q (Qabs (_rate s)))]>
            (_endTimers h1))
         (set_heap
            (alter (fun s0 => set_playStart (ctxTime (howler h1))
                               (set_rateSeek (Some 0%Q) (set_seek (Some (_start s0)) s0)))
               a (heap h1)) h1)) ;;
     ret VSelf) h /\
  ipost (fun h' => _playLock h' = _playLock h /\ _sounds h' = _sounds h /\
                   backend h' = backend h)
        (exec (S (S (S fuel))) (CEnded a) h).
Proof.
  intros Hw Hs Hloop Hq.
  assert (Hl : (if _loop s then ret true
                else sp ← sprite_of (_sprite s); ret (sp_loop sp)) h = Normal true h).
  { destruct Hloop as [-> | (sp & Hsp & Hspl)]; [reflexivity|].
    destruct (_loop s); [reflexivity|].
    erewrite bind_normal by (apply sprite_of_at; exact Hsp). now rewrite Hspl. }
  assert (He : exec (S (S (S fuel))) (CEnded a) h
    = (exec (S (S fuel)) (CEmit Eend (Some (_id s)) MsgNone) ≫= fun _ =>
       exec (S (S fuel)) (CEmit Eplay (Some (_id s)) MsgNone) ≫= fun _ =>
       modify (fun h1 =>
         set_endTimers
           (<[_id s := TimeoutTimer a (js_div ((_stop s - _start s) * 1000)%Q (Qabs (_rate s)))]>
              (_endTimers h1))
           (set_heap
              (alter (fun s0 => set_playStart (ctxTime (howler h1))
                                 (set_rateSeek (Some 0%Q) (set_seek (Some (_start s0)) s0)))
                 a (heap h1)) h1)) ;;
       ret VSelf) h).
  { etransitivity.
    - change (exec (S (S (S fuel))) (CEnded a) h) with (Howl_ended (exec (S (S fuel))) a h).
      unfold Howl_ended.
      erewrite bind_normal by reflexivity.
      erewrite bind_normal by (apply deref_at; exact Hs).
      cbv zeta. rewrite Hw. cbn [negb andb].
      erewrite bind_normal by exact Hl.
      erewrite bind_normal by (apply emit_unqueued; apply event_not_end).
      erewrite bind_normal by reflexivity.
      cbn [_webAudio set_emitted]. rewrite Hw. cbn [negb andb when].
      erewrite bind_normal by reflexivity.
      erewrite bind_normal by reflexivity.
      cbn [_webAudio set_emitted]. rewrite Hw. cbn [negb andb when].
      erewrite bind_normal.
      2:{ erewrite bind_normal by (apply emit_idle; exact Hq).
          erewrite bind_normal by reflexivity.
          erewrite bind_normal by (apply deref_at; exact Hs).
          unfold update, arm_timer.
          erewrite bind_normal by reflexivity. reflexivity. }
      repeat first
        [ progress cbn [_webAudio set_emitted set_heap set_endTimers set_backend
                          negb andb when]
        | rewrite Hw
        | erewrite bind_normal by reflexivity ].
      reflexivity.
    - symmetry.
      erewrite bind_normal by (apply emit_unqueued; apply event_not_end).
      erewrite bind_normal by (apply emit_idle; exact Hq).
      unfold modify, ret, mbind, M_bind, bind. cbn. reflexivity. }
  split; [exact He|].
  rewrite He.
  erewrite bind_normal by (apply emit_unqueued; apply event_not_end).
  erewrite bind_normal by (apply emit_idle; exact Hq).
  cbn. split_and!; reflexivity.
Qed.

Lemma play_target_id n h a s :
  _sounds h !! n = Some a -> heap h !! a = Some s -> n <> 0 ->
  play_target (PId n) h = Normal (Some (Some n, a, or_default (_sprite s))) h.
Proof.
  intros Hn Hs Hn0. destruct n as [|n]; [congruence|].
  unfold play_target. erewrite bind_normal by reflexivity.
  cbn [truthy]. erewrite bind_normal by reflexivity.
  rewrite soundById_lookup, Hn.
  erewrite bind_normal by (apply deref_at; exact Hs). reflexivity.
Qed.

(** X14: [play(n)] on a sound that is already playing changes nothing and
    starts nothing.  The sound is the one at position [n] of the array, and
    the value returned is the id of that sound. *)
Theorem play_playing_sound_is_noop fuel h n internal a s :
  _state h = loaded ->
  _sounds h !! n = Some a -> heap h !! a = Some s ->
  n <> 0 -> _paused s = false ->
  internal = true \/ _queue h = [] ->
  exec (S (S fuel)) (CPlay (PId n) internal) h = Normal (VId (_id s)) h.
Proof.
  intros Hst Hn Hs Hn0 Hp Hq.
  cbn [exec dispatch]. unfold play.
  erewrite bind_normal by (apply (play_target_id n h a s); assumption).
  cbv beta iota.
  erewrite bind_normal by (apply deref_at; exact Hs).
  erewrite bind_normal by reflexivity.
  unfold is_loaded. rewrite bool_decide_eq_true_2 by exact Hst.
  destruct n as [|n]; [congruence|]. cbn [negb truthy andb].
  rewrite Hp. cbn [negb].
  destruct Hq as [-> | Hq]; [reflexivity|].
  destruct internal; [reflexivity|]. cbn [negb when].
  erewrite bind_normal.
  2:{ erewrite bind_normal by (apply loadQueue_idle; exact Hq). reflexivity. }
  reflexivity.
Qed.

(** * Further properties: control calls that name no sound *)

Lemma Qclamp_unit x :
  Qle_bool 0%Q (Qmin (Qmax 0%Q x) 1%Q) && Qle_bool (Qmin (Qmax 0%Q x) 1%Q) 1%Q = true.
Proof.
  unfold Qmin, Qmax.
  destruct (Qle_bool 0 x) eqn:E0.
  - destruct (Qle_bool x 1) eqn:E1; [now rewrite E0, E1|reflexivity].
  - reflexivity.
Qed.

Lemma volume_untargeted fuel h v kf :
  must_wait h = false ->
  exec (S fuel) (CVolume v None kf) h
  = Normal (match v with
            | Some q => if Qle_bool 0%Q q && Qle_bool q 1%Q then VSelf
                        else VNum (match _sounds h !! 0 ≫= (fun a => heap h !! a) with
                                   | Some sound => _volume sound | None => 0%Q end)
            | None => VNum (match _sounds h !! 0 ≫= (fun a => heap h !! a) with
                            | Some sound => _volume sound | None => 0%Q end)
            end)
      (group_setting (AVolume v None kf) h).
Proof.
  intros Hw. cbn [exec dispatch]. unfold volume.
  erewrite bind_normal by reflexivity.
  destruct v as [q|]; cbn [truthy group_setting].
  - destruct (Qle_bool 0 q && Qle_bool q 1).
    + rewrite Hw. cbn [bool_decide decide_rel]. unfold _getSoundIds. cbn [truthy].
      repeat (erewrite bind_normal by reflexivity). cbn [for_each].
      erewrite bind_normal.
      2:{ erewrite bind_normal.
          2:{ erewrite bind_normal by reflexivity. rewrite soundById_None. reflexivity. }
          reflexivity. }
      reflexivity.
    + destruct (_sounds h !! 0 ≫= _); reflexivity.
  - destruct (_sounds h !! 0 ≫= _); reflexivity.
Qed.

Lemma untargeted_call fuel h a :
  must_wait h = false -> untargeted a = true ->
  exists v, exec (S (S fuel)) (call_of_action a) h = Normal v (group_setting a h).
Proof.
  intros Hw Ha. destruct a as [arg|id|id|m id|v id kf|r id|args|from to len id];
    try discriminate; destruct id; try discriminate; cbn [call_of_action].
  - (* stop() *)
    exists VSelf. cbn [exec dispatch group_setting]. unfold stop.
    erewrite bind_normal by reflexivity. rewrite Hw.
    unfold _getSoundIds. cbn [truthy].
    erewrite bind_normal by reflexivity. cbn [for_each _clearTimer].
    erewrite bind_normal.
    2:{ erewrite bind_normal.
        2:{ erewrite bind_normal by reflexivity. erewrite bind_normal by reflexivity.
            rewrite soundById_None. reflexivity. }
        reflexivity. }
    reflexivity.
  - (* mute(m) *)
    cbn [exec dispatch]. unfold mute.
    destruct m as [m|].
    + exists VSelf. erewrite bind_normal by reflexivity. rewrite Hw.
      cbn [bool_decide decide_rel]. unfold _getSoundIds. cbn [truthy].
      repeat (erewrite bind_normal by reflexivity). reflexivity.
    + exists (VBool (howl_muted h)). erewrite bind_normal by reflexivity. now rewrite Hw.
  - (* volume(v) *)
    eexists. apply volume_untargeted. exact Hw.
  - (* rate(r) *)
    exists VSelf. cbn [exec dispatch group_setting]. unfold rate.
    erewrite bind_normal by reflexivity. rewrite Hw.
    cbn [bool_decide decide_rel]. unfold _getSoundIds. cbn [truthy].
    repeat (erewrite bind_normal by reflexivity). cbn [for_each].
    erewrite bind_normal.
    2:{ erewrite bind_normal.
        2:{ erewrite bind_normal by reflexivity. rewrite soundById_None. reflexivity. }
        reflexivity. }
    reflexivity.
  - (* fade(from, to, len) *)
    exists VSelf. cbn [exec dispatch group_setting]. unfold fade.
    erewrite bind_normal by reflexivity. rewrite Hw.
    erewrite bind_normal.
    2:{ apply volume_untargeted. exact Hw. }
    cbn [group_setting]. rewrite Qclamp_unit.
    unfold _getSoundIds. cbn [truthy].
    erewrite bind_normal by reflexivity. cbn [for_each].
    erewrite bind_normal.
    2:{ erewrite bind_normal.
        2:{ erewrite bind_normal by reflexivity. rewrite soundById_None. reflexivity. }
        reflexivity. }
    reflexivity.
Qed.

Lemma group_setting_frame a h :
  _state (group_setting a h) = _state h /\ _playLock (group_setting a h) = _playLock h /\
  _queue (group_setting a h) = _queue h /\ heap (group_setting a h) = heap h /\
  _sounds (group_setting a h) = _sounds h /\ emitted (group_setting a h) = emitted h /\
  backend (group_setting a h) = backend h /\ pending (group_setting a h) = pending h /\
  _endTimers (group_setting a h) = _endTimers h /\ ran (group_setting a h) = ran h.
Proof.
  destruct a as [arg|id|id|m id|v id kf|r id|args|from to len id];
    try destruct id; try destruct m; try destruct v as [q|]; cbn;
    try destruct (Qle_bool 0 q && Qle_bool q 1); split_and!; reflexivity.
Qed.

(** X15: on a loaded group with the play lock open, [stop()], [mute(m)],
    [rate(r)], [volume(v)] and [fade(from, to, len)] called without an id
    reach no sound.  Only the default of the group changes (its volume, its
    rate or its mute flag; for a fade, the volume is set to [from], clamped
    to [[0, 1]], and stays there); no timer is touched, no backend call is
    made and no event is emitted. *)
Theorem untargeted_call_sets_default_only fuel h a :
  _state h = loaded -> _playLock h = false -> untargeted a = true ->
  exists v h',
    exec (S (S fuel)) (call_of_action a) h = Normal v h' /\
    h' = group_setting a h /\
    heap h' = heap h /\ _sounds h' = _sounds h /\ emitted h' = emitted h /\
    backend h' = backend h /\ _queue h' = _queue h /\ _endTimers h' = _endTimers h.
Proof.
  intros Hst Hl Ha.
  destruct (untargeted_call fuel h a (must_wait_quiet h Hst Hl) Ha) as [v Hv].
  destruct (group_setting_frame a h) as (_ & _ & F3 & F4 & F5 & F6 & F7 & _ & F9 & _).
  exists v, (group_setting a h). split_and!; auto.
Qed.

Lemma loadQueue_replays_untargeted fuel h a st rest :
  _state h = loaded -> _playLock h = false -> untargeted a = true ->
  _queue h = mkTask a st :: rest ->
  exec (S (S (S fuel))) (CLoadQueue None) h
  = Normal VSelf (group_setting a (set_ran (ran h ++ [st]) h)).
Proof.
  intros Hst Hl Ha Hq.
  change (exec (S (S (S fuel))) (CLoadQueue None) h)
    with (_loadQueue (exec (S (S fuel))) None h).
  unfold _loadQueue. erewrite bind_normal by reflexivity. rewrite Hq.
  destruct (decide (Some (event (mkTask a st)) = None)); [discriminate|].
  erewrite bind_normal by reflexivity.
  destruct (decide (@None EventName = None)); [|congruence].
  erewrite bind_normal.
  2:{ erewrite bind_normal by reflexivity. cbn [action stamp].
      destruct (untargeted_call fuel (set_ran (ran h ++ [st]) h) a) as [v Hv];
        [apply must_wait_quiet; assumption | exact Ha |].
      erewrite bind_normal by exact Hv. reflexivity. }
  reflexivity.
Qed.

(** X16: such a call, deferred before the load, never leaves the queue.
    Each [_loadQueue()] runs it again, but it emits no event of its own
    kind, so the head is never shifted: however often the queue is stepped,
    the queue is what it was and only this one closure has run. *)
Theorem untargeted_call_blocks_queue fuel h a st rest n :
  _state h = loaded -> _playLock h = false -> untargeted a = true ->
  _queue h = mkTask a st :: rest ->
  exists h',
    run (S (S (S fuel))) (replicate (S n) (CLoadQueue None)) h = Normal VSelf h' /\
    _queue h' = _queue h /\ ran h' = ran h ++ replicate (S n) st /\
    emitted h' = emitted h /\ heap h' = heap h /\ backend h' = backend h.
Proof.
  revert h. induction n as [|n IH]; intros h Hst Hl Ha Hq.
  - eexists. split.
    { cbn [replicate run]. rewrite (loadQueue_replays_untargeted fuel h a st rest) by assumption.
      reflexivity. }
    destruct (group_setting_frame a (set_ran (ran h ++ [st]) h))
      as (_ & _ & F3 & F4 & _ & F6 & F7 & _ & _ & F10).
    rewrite F3, F4, F6, F7, F10. split_and!; reflexivity.
  - set (h1 := group_setting a (set_ran (ran h ++ [st]) h)).
    destruct (group_setting_frame a (set_ran (ran h ++ [st]) h))
      as (F1 & F2 & F3 & F4 & _ & F6 & F7 & _ & _ & F10).
    fold h1 in F1, F2, F3, F4, F6, F7, F10. cbn in F1, F2, F3, F4, F6, F7, F10.
    destruct (IH h1) as (h' & Hrun & G1 & G2 & G3 & G4 & G5).
    { now rewrite F1. } { now rewrite F2. } { exact Ha. } { now rewrite F3. }
    exists h'. split.
    { change (replicate (S (S n)) (CLoadQueue None))
        with (CLoadQueue None :: replicate (S n) (CLoadQueue None)).
      cbn [run]. rewrite (loadQueue_replays_untargeted fuel h a st rest) by assumption.
      fold h1. exact Hrun. }
    rewrite G1, G2, G3, G4, G5, F3, F4, F6, F7, F10.
    split_and!; try reflexivity.
    rewrite <- app_assoc. reflexivity.
Qed.

(** * Further properties: invariants of every call *)

Section Walk.
Variable I : Howl -> Prop.

Lemma preserves_get_bind {B} (f : Howl -> M B) :
  (forall h0, I h0 -> preserves I (f h0)) -> preserves I (get ≫= f).
Proof. intros H h Hh. apply ipost_get. now apply H. Qed.

End Walk.

(** A walk through a method body that remembers what it learns: the state
    read by [get] satisfies the invariant, and a test that was passed is
    kept as an equation. *)
Ltac walk fr :=
  lazymatch goal with
  | |- preserves _ (get ≫= _) =>
      apply preserves_get_bind; intros ? ?; walk fr
  | |- preserves _ (mbind _ _) =>
      apply preserves_bind; [walk fr | intros ?; walk fr]
  | |- preserves _ (ret _) => apply preserves_ret
  | |- preserves _ get => apply preserves_get
  | |- preserves _ throw => apply preserves_throw
  | |- preserves _ (modify _) => apply preserves_modify; fr
  | |- preserves _ (deref _) => apply preserves_deref
  | |- preserves _ (when ?b _) =>
      let E := fresh "E" in destruct b eqn:E; cbn [when]; walk fr
  | |- preserves _ (for_each _ _) =>
      apply preserves_for_each; intros ?; walk fr
  | |- preserves _ (try_catch _ _) => apply preserves_try_catch; walk fr
  | |- preserves _ (foldl _ _ _) =>
      apply preserves_foldl; [intros ? ? ?; walk fr | walk fr]
  | |- preserves _ (if ?b then _ else _) =>
      let E := fresh "E" in destruct b eqn:E; walk fr
  | |- preserves _ (match ?x with _ => _ end) =>
      let E := fresh "E" in destruct x eqn:E; walk fr
  | |- preserves _ (let _ := _ in _) => cbv zeta; walk fr
  | |- _ => solve [eauto with pres]
  end.

Ltac walk_unfold fr :=
  repeat first
    [ progress unfold update, update_node, log_backend, defer, arm_timer, _clearTimer,
        _cleanBuffer, _refreshBuffer, sprite_of, _getSoundIds, register, new_Sound,
        count_ended, _drain, _inactiveSound, setParams, _startFadeInterval, enqueue
    | progress walk fr ].

Lemma unit_volume_0 : unit_volume 0%Q = true.
Proof. reflexivity. Qed.

Lemma volumes_ok_alter f a h :
  (forall s, unit_volume (_volume s) = true /\ unit_volume (cfg_volume (configCopy s)) = true ->
             unit_volume (_volume (f s)) = true /\
             unit_volume (cfg_volume (configCopy (f s))) = true) ->
  volumes_ok h -> volumes_ok (set_heap (alter f a (heap h)) h).
Proof.
  intros Hf (H1 & H2 & H3). unfold volumes_ok. cbn. split_and!; [exact H1 | exact H2 |].
  apply Forall_alter; [exact H3|]. intros s _. apply Hf.
Qed.

Lemma volumes_ok_frame h h' :
  howl_volume h' = howl_volume h -> howler h' = howler h -> heap h' = heap h ->
  volumes_ok h -> volumes_ok h'.
Proof. unfold volumes_ok. intros -> -> ->. auto. Qed.

Lemma volumes_ok_new c (x : bool) hx h :
  unit_volume (cfg_volume c) = true ->
  volumes_ok hx -> volumes_ok h ->
  volumes_ok (set_heap (heap hx ++ [if x then set_volume 0%Q (sound_of_config 0 c)
                                    else sound_of_config 0 c]) h).
Proof.
  intros Hc (_ & _ & H3) (H1 & H2 & _). unfold volumes_ok. cbn.
  split_and!; [exact H1 | exact H2 |].
  apply Forall_app. split; [exact H3|]. apply Forall_singleton.
  destruct x; cbn; split; auto.
Qed.

Ltac vol_sound :=
  intros [] []; unfold unit_volume in *; cbn in *; split;
  first [ assumption | apply Qclamp_unit | reflexivity ].

Ltac vol_frame :=
  intro; intro;
  lazymatch goal with
  | H : volumes_ok _ |- _ =>
    first
      [ eapply volumes_ok_frame; [reflexivity | reflexivity | reflexivity | exact H]
      | apply volumes_ok_alter; [vol_sound | exact H]
      | apply volumes_ok_new; [ | | exact H];
        match goal with Hx : volumes_ok _ |- _ => first [exact Hx | apply Hx] end
      | destruct H as (? & ? & ?); unfold volumes_ok, unit_volume in *; cbn; split_and!;
        first [ assumption | apply Qclamp_unit ] ]
  end.

Ltac walk_vol := walk_unfold vol_frame.

Lemma vol_drain_loop n limit count : preserves volumes_ok (_drain_loop n limit count).
Proof. revert count. induction n as [|i IH]; intros count; simpl; walk_vol. Qed.

#[local] Hint Resolve vol_drain_loop : pres.

Lemma vol_drain : preserves volumes_ok _drain.
Proof. unfold _drain. walk_vol. Qed.

#[local] Hint Resolve vol_drain : pres.

Lemma vol_new_Sound h0 : volumes_ok h0 -> preserves volumes_ok (new_Sound (newSound (howler h0))).
Proof. intros H0. unfold new_Sound. walk_vol. Qed.

Lemma vol_inactiveSound : preserves volumes_ok _inactiveSound.
Proof. unfold _inactiveSound. walk_vol. Qed.

#[local] Hint Resolve vol_inactiveSound : pres.

Lemma vol_play_target arg : preserves volumes_ok (play_target arg).
Proof. unfold play_target. walk_vol. Qed.

Section VolBodies.
Variable rec : Call -> M Value.
Hypothesis Hrec : forall c, preserves volumes_ok (rec c).
#[local] Hint Resolve Hrec vol_play_target : pres.







Lemma vol_playWebAudio c : preserves volumes_ok (playWebAudio c).
Proof. unfold playWebAudio. walk_vol. Qed.

Lemma vol_playHtml5 c : preserves volumes_ok (playHtml5 rec c).
Proof. unfold playHtml5. walk_vol. Qed.

#[local] Hint Resolve vol_playWebAudio vol_playHtml5 : pres.



Lemma vol_seekAndEmit id k : preserves volumes_ok (seekAndEmit rec id k).
Proof. unfold seekAndEmit. walk_vol. Qed.

#[local] Hint Resolve vol_seekAndEmit : pres.





Lemma vol_pick_source l : preserves volumes_ok (pick_source rec l).
Proof. induction l as [|src l IH]; simpl; walk_vol. Qed.

#[local] Hint Resolve vol_pick_source : pres.


Lemma vol_fire cb ok : preserves volumes_ok (fire rec cb ok).
Proof. unfold fire. walk_vol. Qed.

#[local] Hint Resolve vol_fire : pres.


End VolBodies.



Lemma keeps_ids_refl h : keeps_ids h h.
Proof. intros a s Hs. now exists s. Qed.

Lemma keeps_ids_frame h0 h h' : heap h' = heap h -> keeps_ids h0 h -> keeps_ids h0 h'.
Proof. unfold keeps_ids. intros ->. auto. Qed.

Lemma keeps_ids_alter h0 f a h :
  (forall s, _id (f s) = _id s /\ configCopy (f s) = configCopy s) ->
  keeps_ids h0 h -> keeps_ids h0 (set_heap (alter f a (heap h)) h).
Proof.
  intros Hf H b s0 Hs0. destruct (H b s0 Hs0) as (s & Hs & Hi & Hc). cbn.
  destruct (decide (a = b)) as [->|Hne].
  - exists (f s). rewrite list_lookup_alter_eq, Hs. destruct (Hf s) as [-> ->]. auto.
  - exists s. rewrite list_lookup_alter_ne by exact Hne. auto.
Qed.

Lemma keeps_ids_alter_fresh h0 f hx h :
  keeps_ids h0 hx -> keeps_ids h0 h ->
  keeps_ids h0 (set_heap (alter f (length (heap hx)) (heap h)) h).
Proof.
  intros Hx H b s0 Hs0. destruct (H b s0 Hs0) as (s & Hs & Hi & Hc). cbn.
  exists s. rewrite list_lookup_alter_ne; [auto|].
  destruct (Hx b s0 Hs0) as (sx & Hsx & _). apply lookup_lt_Some in Hsx. lia.
Qed.

Lemma keeps_ids_new h0 s hx h :
  keeps_ids h0 hx -> keeps_ids h0 (set_heap (heap hx ++ [s]) h).
Proof.
  intros Hx b s0 Hs0. destruct (Hx b s0 Hs0) as (sx & Hsx & Hi & Hc). cbn.
  exists sx. rewrite lookup_app_l by (now apply lookup_lt_Some in Hsx). auto.
Qed.

Ltac ids_frame :=
  intro; intro;
  lazymatch goal with
  | H : keeps_ids _ _ |- _ =>
    first
      [ eapply keeps_ids_frame; [reflexivity | exact H]
      | apply keeps_ids_alter; [intros []; split; reflexivity | exact H]
      | apply keeps_ids_alter_fresh; [ | exact H];
        match goal with Hx : keeps_ids _ _ |- _ => exact Hx end
      | apply keeps_ids_new;
        match goal with Hx : keeps_ids _ _ |- _ => exact Hx end ]
  end.

Ltac walk_ids := walk_unfold ids_frame.

Section IdsStable.
Variable h0 : Howl.

Lemma ids_drain_loop n limit count : preserves (keeps_ids h0) (_drain_loop n limit count).
Proof. revert count. induction n as [|i IH]; intros count; simpl; walk_ids. Qed.

#[local] Hint Resolve ids_drain_loop : pres.

Lemma ids_drain : preserves (keeps_ids h0) _drain.
Proof. unfold _drain. walk_ids. Qed.

#[local] Hint Resolve ids_drain : pres.

Lemma ids_new_Sound c : preserves (keeps_ids h0) (new_Sound c).
Proof. unfold new_Sound. walk_ids. Qed.

Lemma ids_inactiveSound : preserves (keeps_ids h0) _inactiveSound.
Proof. unfold _inactiveSound. walk_ids. Qed.

#[local] Hint Resolve ids_inactiveSound : pres.

Lemma ids_play_target arg : preserves (keeps_ids h0) (play_target arg).
Proof. unfold play_target. walk_ids. Qed.

Section IdsBodies.
Variable rec : Call -> M Value.
Hypothesis Hrec : forall c, preserves (keeps_ids h0) (rec c).
#[local] Hint Resolve Hrec ids_play_target : pres.

Lemma ids_emit ev id msg : preserves (keeps_ids h0) (_emit rec ev id msg).
Proof. unfold _emit. walk_ids. Qed.

Lemma ids_loadQueue ev : preserves (keeps_ids h0) (_loadQueue rec ev).
Proof. unfold _loadQueue. walk_ids. Qed.

Lemma ids_stopFade id : preserves (keeps_ids h0) (_stopFade rec id).
Proof. unfold _stopFade. walk_ids. Qed.

Lemma ids_volume v id k : preserves (keeps_ids h0) (volume rec v id k).
Proof. unfold volume. walk_ids. Qed.

Lemma ids_stop id k : preserves (keeps_ids h0) (stop rec id k).
Proof. unfold stop. walk_ids. Qed.

Lemma ids_ended a : preserves (keeps_ids h0) (Howl_ended rec a).
Proof. unfold Howl_ended. walk_ids. Qed.

Lemma ids_playWebAudio c : preserves (keeps_ids h0) (playWebAudio c).
Proof. unfold playWebAudio. walk_ids. Qed.

Lemma ids_playHtml5 c : preserves (keeps_ids h0) (playHtml5 rec c).
Proof. unfold playHtml5. walk_ids. Qed.

#[local] Hint Resolve ids_playWebAudio ids_playHtml5 : pres.

Lemma ids_play arg i : preserves (keeps_ids h0) (play rec arg i).
Proof. unfold play. walk_ids. Qed.

Lemma ids_pause id k : preserves (keeps_ids h0) (pause rec id k).
Proof. unfold pause. walk_ids. Qed.

Lemma ids_seekAndEmit id k : preserves (keeps_ids h0) (seekAndEmit rec id k).
Proof. unfold seekAndEmit. walk_ids. Qed.

#[local] Hint Resolve ids_seekAndEmit : pres.

Lemma ids_seek args : preserves (keeps_ids h0) (seek rec args).
Proof. unfold seek. walk_ids. Qed.

Lemma ids_rate r id : preserves (keeps_ids h0) (rate rec r id).
Proof. unfold rate. walk_ids. Qed.

Lemma ids_mute m id : preserves (keeps_ids h0) (mute m id).
Proof. unfold mute. walk_ids. Qed.

Lemma ids_fade f t l id : preserves (keeps_ids h0) (fade rec f t l id).
Proof. unfold fade. walk_ids. Qed.

Lemma ids_pick_source l : preserves (keeps_ids h0) (pick_source rec l).
Proof. induction l as [|src l IH]; simpl; walk_ids. Qed.

#[local] Hint Resolve ids_pick_source : pres.

Lemma ids_load : preserves (keeps_ids h0) (load rec).
Proof. unfold load. walk_ids. Qed.

Lemma ids_fire cb ok : preserves (keeps_ids h0) (fire rec cb ok).
Proof. unfold fire. walk_ids. Qed.

#[local] Hint Resolve ids_fire : pres.

Lemma ids_dispatch c : preserves (keeps_ids h0) (dispatch rec c).
Proof.
  destruct c; simpl;
    auto using ids_play, ids_pause, ids_stop, ids_mute, ids_volume, ids_rate,
      ids_seek, ids_fade, ids_stopFade, ids_emit, ids_loadQueue, ids_ended, ids_load.
  walk_ids.
Qed.

End IdsBodies.

End IdsStable.

Lemma ids_exec h0 fuel c : preserves (keeps_ids h0) (exec fuel c).
Proof.
  revert c. induction fuel as [|n IH]; intros c; simpl.
  - intros h _. exact Logic.I.
  - now apply ids_dispatch.
Qed.

(** X20: a sound object keeps its id and its construction snapshot.
    Whichever calls of [Call] are made, every object that was in the store
    is still there with the same id: [reset] recycles a sound without
    renaming it, and the only assignment to an id is the one of the
    constructor, on the object it has just made. *)
Theorem ids_never_change fuel cs h :
  match run fuel cs h with
  | Normal _ h' | TypeError h' =>
    forall a s, heap h !! a = Some s ->
      exists s', heap h' !! a = Some s' /\ _id s' = _id s /\ configCopy s' = configCopy s
  | OutOfFuel => True
  end.
Proof.
  assert (G : forall h', keeps_ids h h' ->
              ipost (keeps_ids h) (run fuel cs h')).
  { induction cs as [|c cs IH]; intros h' Hh'; simpl.
    - exact Hh'.
    - pose proof (ids_exec h fuel c h' Hh') as Hc.
      destruct (exec fuel c h') as [v h''| |]; simpl in *; auto.
      destruct cs; [exact Hc | now apply IH]. }
  specialize (G h (keeps_ids_refl h)).
  destruct (run fuel cs h); simpl in G; auto.
Qed.

(** * Further properties: the configuration classes *)

Section ConfigKeys.
#[local] Arguments String.eqb : simpl never.

Ltac split_keys :=
  repeat match goal with
         | |- context [String.eqb ?a ?b] =>
           destruct (String.eqb_spec a b); [subst|]; cbn; try congruence
         end.

Lemma SoundConfig_assign_property key k v c :
  property key (SoundConfigClass.getObjectCopy (SoundConfigClass.assign k v c))
  = if String.eqb key k
    then match property key (SoundConfigClass.getObjectCopy c) with
         | Some _ => Some v
         | None => None
         end
    else property key (SoundConfigClass.getObjectCopy c).
Proof.
  unfold SoundConfigClass.assign.
  repeat match goal with
         | |- context [String.eqb k ?s] =>
           destruct (String.eqb_spec k s); [subst k|]
         end; cbn; split_keys; reflexivity.
Qed.

Lemma HowlConfig_assign_property key k v c :
  property key (HowlConfigClass.getObjectCopy (HowlConfigClass.assign k v c))
  = if String.eqb key k
    then match property key (HowlConfigClass.getObjectCopy c) with
         | Some _ => Some v
         | None => None
         end
    else property key (HowlConfigClass.getObjectCopy c).
Proof.
  unfold HowlConfigClass.assign.
  repeat match goal with
         | |- context [String.eqb k ?s] =>
           destruct (String.eqb_spec k s); [subst k|]
         end; cbn; split_keys; reflexivity.
Qed.

Lemma property_absent key (l : list (string * JsValue)) :
  ~ In key (map fst l) -> property key l = None.
Proof.
  induction l as [|[k v] l IH]; cbn; [reflexivity|]. intros H.
  destruct (String.eqb_spec key k) as [->|_]; [exfalso; apply H; now left|].
  apply IH. intros Hin. apply H. now right.
Qed.

(** The effect of a loop of assignments on one property, given the effect
    of one assignment. *)
Lemma exchange_by_key {C} (assign : string -> JsValue -> C -> C)
    (copy : C -> list (string * JsValue)) :
  (forall key k v c,
     property key (copy (assign k v c))
     = if String.eqb key k
       then match property key (copy c) with Some _ => Some v | None => None end
       else property key (copy c)) ->
  forall entries c key,
    NoDup (map fst entries) ->
    property key (copy (foldl (fun c '(key, value) => assign key value c) c entries))
    = match property key (copy c) with
      | Some old => Some (default old (property key entries))
      | None => None
      end.
Proof.
  intros Hassign entries. induction entries as [|[k v] rest IH]; intros c key Hnd.
  - cbn. destruct (property key (copy c)); reflexivity.
  - cbn [map fst] in Hnd. apply NoDup_cons in Hnd as [Hk Hnd].
    cbn [foldl property]. rewrite IH by exact Hnd. rewrite Hassign.
    destruct (String.eqb_spec key k) as [->|_].
    + rewrite (property_absent k rest) by (rewrite <- list_elem_of_In; exact Hk).
      destruct (property k (copy c)); reflexivity.
    + reflexivity.
Qed.

End ConfigKeys.

(** X22: [SoundConfig.exchangeObject] changes the properties the object
    names and no other.  After the loop, a property of the class holds the
    value the object gives for its name, or what it held before when the
    object does not name it; a key that is not a property of the class is
    ignored.  Hence a configuration rebuilt from its own [getObjectCopy()]
    is the same configuration.  With [null], the default of the
    constructor, [Object.entries] throws. *)
Theorem SoundConfig_exchangeObject_by_key entries c key :
  NoDup (map fst entries) ->
  (exists c',
     SoundConfigClass.exchangeObject (Some entries) c = Some c' /\
     property key (SoundConfigClass.getObjectCopy c')
     = match property key (SoundConfigClass.getObjectCopy c) with
       | Some old => Some (default old (property key entries))
       | None => None
       end) /\
  SoundConfigClass.exchangeObject (Some (SoundConfigClass.getObjectCopy c))
    SoundConfigClass.initial = Some c /\
  SoundConfigClass.new (Some (SoundConfigClass.getObjectCopy c)) = Some c /\
  SoundConfigClass.new None = None.
Proof.
  intros Hnd. split.
  - eexists. split; [reflexivity|].
    now apply (exchange_by_key SoundConfigClass.assign SoundConfigClass.getObjectCopy
                 SoundConfig_assign_property).
  - destruct c. split_and!; reflexivity.
Qed.

(** X23: [new HowlConfig(config)] starts from the initialisers of the class
    (no autoplay, Web Audio preferred, not muted, no loop, a pool of 5,
    preload, rate 1, volume 1) and overrides exactly the properties [config]
    names; keys that are not properties of the class are ignored.  The result
    is rebuilt unchanged from its [getObjectCopy()], and [new HowlConfig()],
    whose argument defaults to [null], throws. *)
Theorem HowlConfig_new_by_key entries key :
  NoDup (map fst entries) ->
  exists c,
    HowlConfigClass.new (Some entries) = Some c /\
    property key (HowlConfigClass.getObjectCopy c)
    = match property key (HowlConfigClass.getObjectCopy HowlConfigClass.initial) with
      | Some old => Some (default old (property key entries))
      | None => None
      end /\
    HowlConfigClass.exchangeObject (Some (HowlConfigClass.getObjectCopy c))
      HowlConfigClass.initial = Some c /\
    HowlConfigClass.new None = None.
Proof.
  intros Hnd. eexists. split; [reflexivity|]. split.
  - now apply (exchange_by_key HowlConfigClass.assign HowlConfigClass.getObjectCopy
                 HowlConfig_assign_property).
  - split; [|reflexivity].
    generalize (foldl (fun c '(key, value) => HowlConfigClass.assign key value c)
                  HowlConfigClass.initial entries).
    intros []. reflexivity.
Qed.

(** * Further properties: event listeners *)


Lemma off_loop_head fn id visit events :
  off_loop fn id visit events
  = if existsb (off_matches fn id) visit then delete 0 events else events.
Proof.
  induction visit as [|l visit IH]; cbn; [reflexivity|].
  destruct (off_matches fn id l); [reflexivity|exact IH].
Qed.

(** The [id] that [off] compares with: [undefined] has become [null]. *)
Lemma off_function event f id st :
  off event (FnFunction f) id st event
  = off_loop (Some f) (match id with IdUndefined => IdNull | _ => id end)
      (st event) (st event).
Proof.
  unfold off, set_listeners. cbn.
  destruct id; cbn; destruct (decide (event = event)); congruence.
Qed.

(** X24: [off(event, fn, id)] with a function removes at most one listener
    of that event and leaves the other events alone; the index given to
    [splice] is never advanced, so whenever some listener of the array
    matches it is the first listener of the array that goes, and a matching
    listener further down stays. *)
Theorem off_removes_the_first_listener event f id st :
  let id' := match id with IdUndefined => IdNull | _ => id end in
  off event (FnFunction f) id st event
  = (if existsb (off_matches (Some f) id') (st event) then delete 0 (st event)
     else st event) /\
  (forall e, e <> event -> off event (FnFunction f) id st e = st e) /\
  (forall first rest l,
     st event = first :: rest -> l ∈ rest -> off_matches (Some f) id' l = true ->
     off event (FnFunction f) id st event = rest).
Proof.
  intros id'. rewrite off_function, off_loop_head. fold id'. split_and!.
  - reflexivity.
  - intros e He. unfold off, set_listeners.
    destruct id; cbn; destruct (decide (e = event)); congruence.
  - intros first rest l Hst Hl Hm. rewrite Hst.
    assert (Hex : existsb (off_matches (Some f) id') (first :: rest) = true).
    { apply existsb_exists. exists l. split; [|exact Hm].
      right. now apply list_elem_of_In. }
    now rewrite Hex.
Qed.

(** X25: a listener registered by [on(event, f)] has the id [undefined],
    which the [null] of [off(event, f)] never equals, so [off] leaves it in
    place; one registered by [once(event, f)] has the id [null] and is
    matched, and [off(event, f)] then drops the head of the array (the
    listener itself only when it is alone).  No earlier listener is assumed
    to match [f] with a [null] id. *)
Theorem on_then_off_keeps_the_listener event f st :
  (forall l, l ∈ st event -> off_matches (Some f) IdNull l = false) ->
  off event (FnFunction f) IdUndefined (on event (FnFunction f) IdUndefined false st) event
  = st event ++ [mkListener IdUndefined f false] /\
  off event (FnFunction f) IdUndefined (once event (FnFunction f) IdUndefined st) event
  = delete 0 (st event ++ [mkListener IdNull f true]).
Proof.
  intros Hno.
  assert (Hex : existsb (off_matches (Some f) IdNull) (st event) = false).
  { destruct (existsb _ (st event)) eqn:E; [|reflexivity].
    apply existsb_exists in E as (l & Hl & Hm).
    rewrite Hno in Hm by (now apply list_elem_of_In). discriminate. }
  split.
  - rewrite off_function, off_loop_head. unfold on, set_listeners.
    destruct (decide (event = event)); [|congruence].
    rewrite existsb_app, Hex. cbn.
    unfold off_matches. cbn. rewrite andb_false_r. reflexivity.
  - rewrite off_function, off_loop_head. unfold once, on, set_listeners.
    destruct (decide (event = event)); [|congruence].
    rewrite existsb_app, Hex. cbn.
    unfold off_matches. cbn.
    rewrite !bool_decide_eq_true_2 by reflexivity. reflexivity.
Qed.

(** * Further properties: [mute] with an id *)

(** The loop of [mute] over the ids: it stops at the first id that is not
    0, on the assignment to a property of a number. *)
Lemma mute_loop ids h :
  for_each ids (fun sound => if truthy sound then throw else ret tt) h
  = if existsb truthy ids then TypeError h else Normal tt h.
Proof.
  induction ids as [|i ids IH]; [reflexivity|].
  cbn [for_each existsb]. unfold mbind, M_bind, bind in *.
  destruct (truthy i); [reflexivity|]. cbn. exact IH.
Qed.

(** X26: [mute(muted, id)] with an id other than 0 mutes no sound.  In a
    group that is loaded and not locked it ends in a [TypeError] as soon as
    one sound of the group has an id other than 0 (the loop assigns
    [_muted] on the id, a number), and otherwise returns; either way the
    group and its sounds are as they were. *)
Theorem mute_with_id_throws fuel h muted id :
  _state h = loaded -> _playLock h = false -> heap_ok h -> id <> 0 ->
  exec (S fuel) (CMute muted (Some id)) h
  = (if existsb (fun s => negb (_id s =? 0)) (live h) then TypeError h
     else Normal VSelf h) /\
  (forall n a s, _sounds h !! n = Some a -> heap h !! a = Some s -> _id s <> 0 ->
     exec (S fuel) (CMute muted (Some id)) h = TypeError h).
Proof.
  intros Hl Hp Hok Hid.
  assert (Hids : _getSoundIds (Some id) h
                 = Normal (map (fun s => Some (_id s)) (live h)) h).
  { destruct id as [|n]; [congruence|]. unfold _getSoundIds. cbn [truthy].
    change (foldl (fun acc sound => ids ← acc; s ← deref sound; ret (ids ++ [Some (_id s)]))
                  (ret []) (_sounds h) h
            = Normal (map (fun s => Some (_id s)) (live h)) h).
    now rewrite (getSoundIds_fold h (_sounds h) (ret []) [] Hok eq_refl). }
  assert (Hex : existsb truthy (map (fun s => Some (_id s)) (live h))
                = existsb (fun s => negb (_id s =? 0)) (live h)).
  { generalize (live h). intros l. induction l as [|s l IH]; [reflexivity|].
    cbn [map existsb]. rewrite IH. destruct (_id s); reflexivity. }
  assert (Hrun : exec (S fuel) (CMute muted (Some id)) h
                 = if existsb (fun s => negb (_id s =? 0)) (live h) then TypeError h
                   else Normal VSelf h).
  { cbn [exec dispatch]. unfold mute.
    erewrite bind_normal by reflexivity.
    rewrite (must_wait_quiet h Hl Hp).
    erewrite bind_normal by reflexivity.
    erewrite bind_normal by exact Hids.
    unfold mbind at 1, M_bind, bind. rewrite mute_loop, Hex.
    destruct (existsb _ (live h)); reflexivity. }
  split; [exact Hrun|].
  intros n a s Hn Ha Hs. rewrite Hrun.
  assert (Hin : s ∈ live h).
  { unfold live. apply list_elem_of_omap. exists a. split; [|exact Ha].
    now apply list_elem_of_lookup_2 in Hn. }
  assert (E : existsb (fun s => negb (_id s =? 0)) (live h) = true).
  { apply existsb_exists. exists s. split; [now apply list_elem_of_In|].
    destruct (_id s); [congruence|reflexivity]. }
  now rewrite E.
Qed.

(** * Which sounds a control call reaches *)

Lemma stop_unfold rec id internal :
  stop rec id internal
  = (h ← get;
     if must_wait h then enqueue (AStop id) ;; ret VSelf
     else ids ← _getSoundIds id; for_each ids (stop_body rec internal) ;; ret VSelf).
Proof. reflexivity. Qed.


Lemma stopFade_idle fuel id h a s :
  _soundById id h = Some a -> heap h !! a = Some s -> _interval s = None ->
  exec (S fuel) (CStopFade id) h = Normal VSelf h.
Proof.
  intros Ha Hs Hi. cbn [exec dispatch]. unfold _stopFade.
  erewrite bind_normal by reflexivity. rewrite Ha.
  erewrite bind_normal by (apply deref_at; exact Hs). now rewrite Hi.
Qed.

(** One turn of the loop of [stop] that finds no sound at index [i]. *)
Lemma stop_turn_none rec internal h i :
  _sounds h !! i = None ->
  stop_body rec internal (Some i) h
  = Normal tt (set_endTimers (delete i (_endTimers h)) h).
Proof.
  intros Hk. unfold stop_body, _clearTimer.
  erewrite bind_normal by reflexivity.
  erewrite bind_normal by reflexivity.
  rewrite soundById_lookup. cbn [_sounds set_endTimers]. now rewrite Hk.
Qed.

(** One turn of the loop of [stop] that finds the sound at address [a]. *)
Lemma stop_turn_some fuel internal h i a s :
  internal = true \/ _queue h = [] ->
  _sounds h !! i = Some a -> heap h !! a = Some s -> _interval s = None ->
  exists h1,
    stop_body (exec (S (S fuel))) internal (Some i) h = Normal tt h1 /\
    heap h1 = alter (stopped (_webAudio h)) a (heap h) /\
    _endTimers h1 = delete i (_endTimers h) /\
    emitted h1 = emitted h ++ (if internal then [] else [mkEmitted Estop (Some (_id s)) MsgNone]) /\
    backend h1 = backend h ++ stop_ops (_webAudio h) a s /\
    _sounds h1 = _sounds h /\ _queue h1 = _queue h /\ _state h1 = _state h /\
    _playLock h1 = _playLock h /\ _webAudio h1 = _webAudio h /\ pending h1 = pending h.
Proof.
  intros Hq Hk Hs Hi. unfold stop_body, _clearTimer.
  erewrite bind_normal by reflexivity.
  erewrite bind_normal by reflexivity.
  rewrite soundById_lookup. cbn [_sounds set_endTimers]. rewrite Hk.
  erewrite bind_normal by reflexivity.
  set (halted := fun s0 : Sound => set_ended true (set_paused true
                   (set_rateSeek (Some 0%Q) (set_seek (Some (_start s0)) s0)))).
  cbn [heap set_endTimers].
  set (h2 := set_heap (alter halted a (heap h))
               (set_endTimers (delete i (_endTimers h)) h)).
  assert (Hs2 : heap h2 !! a = Some (halted s)).
  { unfold h2. cbn [heap set_heap]. now rewrite list_lookup_alter_eq, Hs. }
  erewrite bind_normal
    by (apply (stopFade_idle _ _ _ a (halted s));
        [rewrite soundById_lookup; exact Hk | exact Hs2 | exact Hi]).
  erewrite bind_normal by reflexivity.
  erewrite bind_normal by (apply deref_at; exact Hs2).
  assert (Hw : _webAudio h2 = _webAudio h) by reflexivity.
  rewrite Hw. unfold stopped, stop_ops. fold (halted s).
  change (_node (halted s)) with (_node s). change (_start (halted s)) with (_start s).
  change (_id (halted s)) with (_id s).
  unfold log_backend, _cleanBuffer, update_node, update.
  destruct internal.
  - destruct (_webAudio h) eqn:Hwa; destruct (bufferSource (_node s)) eqn:Hb;
      destruct (hasDuration (_node s)) eqn:Hd;
      cbn [negb when];
      repeat (erewrite bind_normal by reflexivity);
      eexists; (split; [reflexivity|]);
      unfold h2;
      cbn [heap _endTimers emitted backend _sounds _queue _state _playLock _webAudio pending
           set_heap set_endTimers set_emitted set_backend];
      rewrite ?app_nil_r, ?alter_twice;
      (split_and!; try reflexivity; try exact Hwa);
      apply list_alter_ext; try reflexivity;
      intros x Hx; rewrite Hs in Hx; injection Hx as <-; fold (halted s);
      change (_node (halted s)) with (_node s); rewrite ?Hb, ?Hd; reflexivity.
  - destruct Hq as [Hq|Hq]; [discriminate|].
    destruct (_webAudio h) eqn:Hwa; destruct (bufferSource (_node s)) eqn:Hb;
      destruct (hasDuration (_node s)) eqn:Hd;
      cbn [negb when];
      repeat (erewrite bind_normal by reflexivity);
      try (erewrite bind_normal by (apply emit_idle; exact Hq));
      repeat (erewrite bind_normal by reflexivity);
      eexists; (split; [reflexivity|]);
      unfold h2;
      cbn [heap _endTimers emitted backend _sounds _queue _state _playLock _webAudio pending
           set_heap set_endTimers set_emitted set_backend];
      rewrite ?app_nil_r, ?alter_twice;
      (split_and!; try reflexivity; try exact Hwa);
      apply list_alter_ext; try reflexivity;
      intros x Hx; rewrite Hs in Hx; injection Hx as <-; fold (halted s);
      change (_node (halted s)) with (_node s); rewrite ?Hb, ?Hd; reflexivity.
Qed.

Lemma stopped_interval w s : _interval (stopped w s) = _interval s.
Proof.
  unfold stopped. cbn.
  repeat (match goal with |- context [if ?b then _ else _] => destruct b end); reflexivity.
Qed.


(** The loop of [stop] keeps what it relies on. *)
Lemma stop_turn_keeps w a h h1 :
  heap h1 = alter (stopped w) a (heap h) -> _sounds h1 = _sounds h ->
  heap_ok h -> no_fade h -> heap_ok h1 /\ no_fade h1.
Proof.
  intros Hh Hso Hok Hnf. split.
  - unfold heap_ok in *. rewrite Hh, Hso, length_alter. exact Hok.
  - intros b s Hb. rewrite Hh in Hb.
    destruct (decide (a = b)) as [<-|Hne].
    + rewrite list_lookup_alter_eq in Hb.
      destruct (heap h !! a) as [s0|] eqn:E; [|discriminate].
      injection Hb as <-. rewrite stopped_interval. exact (Hnf a s0 E).
    + rewrite list_lookup_alter_ne in Hb by exact Hne. exact (Hnf b s Hb).
Qed.

(** The loop of [stop] over the ids [ids]: the store and the timers it
    leaves.  An internal call emits nothing. *)
Lemma stop_loop fuel internal ids : forall h,
  internal = true \/ _queue h = [] -> heap_ok h -> no_fade h ->
  exists h',
    for_each (map Some ids) (stop_body (exec (S (S fuel))) internal) h = Normal tt h' /\
    heap h' = foldl (stop_turn (_sounds h) (_webAudio h)) (heap h) ids /\
    _endTimers h' = timers_cleared ids (_endTimers h) /\
    (internal = true -> emitted h' = emitted h) /\
    _sounds h' = _sounds h /\ _queue h' = _queue h /\ _state h' = _state h /\
    _playLock h' = _playLock h /\ _webAudio h' = _webAudio h /\ pending h' = pending h.
Proof.
  induction ids as [|i ids IH]; intros h Hq Hok Hnf.
  - exists h. cbn. split_and!; reflexivity.
  - cbn [map for_each foldl timers_cleared]. fold (timers_cleared ids).
    destruct (_sounds h !! i) as [a|] eqn:Hk.
    + assert (Ha : a < length (heap h)).
      { unfold heap_ok in Hok. exact (Forall_lookup_1 _ _ _ _ Hok Hk). }
      destruct (lookup_lt_is_Some_2 _ _ Ha) as [s Hs].
      destruct (stop_turn_some fuel internal h i a s Hq Hk Hs (Hnf a s Hs))
        as (h1 & He & Hh & Ht & Hem & _ & Hso & Hq1 & Hst & Hpl & Hw & Hpe).
      destruct (stop_turn_keeps _ _ _ _ Hh Hso Hok Hnf) as (Hok1 & Hnf1).
      assert (Hq1' : internal = true \/ _queue h1 = []).
      { destruct Hq as [Hq|Hq]; [now left|right; now rewrite Hq1]. }
      destruct (IH h1 Hq1' Hok1 Hnf1)
        as (h' & He' & Hh' & Ht' & Hem' & Hso' & Hq' & Hst' & Hpl' & Hw' & Hpe').
      exists h'. erewrite bind_normal by exact He. split; [exact He'|].
      rewrite Hh', Ht', Hso', Hq', Hst', Hpl', Hw', Hpe'.
      rewrite Hso, Hw, Hh, Ht, Hq1, Hst, Hpl, Hpe.
      assert (Et : stop_turn (_sounds h) (_webAudio h) (heap h) i
                   = alter (stopped (_webAudio h)) a (heap h))
        by (unfold stop_turn; now rewrite Hk).
      rewrite Et.
      split_and!; try reflexivity.
      intros Hi. rewrite (Hem' Hi), Hem, Hi. apply app_nil_r.
    + erewrite bind_normal by (apply stop_turn_none; exact Hk).
      set (h1 := set_endTimers (delete i (_endTimers h)) h).
      destruct (IH h1 Hq Hok Hnf)
        as (h' & He' & Hh' & Ht' & Hem' & Hso' & Hq' & Hst' & Hpl' & Hw' & Hpe').
      exists h'. split; [exact He'|].
      rewrite Hh', Ht', Hso', Hq', Hst', Hpl', Hw', Hpe'.
      assert (Et : stop_turn (_sounds h) (_webAudio h) (heap h) i = heap h)
        by (unfold stop_turn; now rewrite Hk).
      rewrite Et.
      split_and!; try reflexivity. exact Hem'.
Qed.



Lemma cleared_stays (ids : list nat) : forall (t : gmap nat Timer) j,
  t !! j = None -> timers_cleared ids t !! j = None.
Proof.
  induction ids as [|i ids IH]; intros t j Hj; [exact Hj|].
  cbn [timers_cleared foldl]. apply IH. destruct (decide (i = j)) as [<-|Hne].
  - apply lookup_delete_eq.
  - rewrite lookup_delete_ne by exact Hne. exact Hj.
Qed.

Lemma cleared_all (ids : list nat) : forall (t : gmap nat Timer) i,
  i ∈ ids -> timers_cleared ids t !! i = None.
Proof.
  induction ids as [|i0 ids IH]; intros t i Hi; [now apply elem_of_nil in Hi|].
  cbn [timers_cleared foldl]. apply elem_of_cons in Hi as [->|Hi].
  - apply cleared_stays, lookup_delete_eq.
  - now apply IH.
Qed.

Section StopStore.
Variables (sounds : list nat) (w : bool).

Lemma unreached_stays (ids : list nat) : forall hp a,
  (forall i, i ∈ ids -> sounds !! i <> Some a) ->
  foldl (stop_turn sounds w) hp ids !! a = hp !! a.
Proof.
  induction ids as [|i ids IH]; intros hp a Hun; [reflexivity|].
  cbn [foldl]. rewrite IH by (intros i' Hi'; apply Hun; now right).
  unfold stop_turn. destruct (sounds !! i) as [b|] eqn:E; [|reflexivity].
  apply list_lookup_alter_ne. intros ->. exact (Hun i (list_elem_of_here _ _) E).
Qed.

Lemma reached_stopped (ids : list nat) : forall hp i a,
  NoDup sounds -> NoDup ids -> i ∈ ids -> sounds !! i = Some a ->
  foldl (stop_turn sounds w) hp ids !! a = stopped w <$> hp !! a.
Proof.
  induction ids as [|i0 ids IH]; intros hp i a Hnd Hks Hi Ha;
    [now apply elem_of_nil in Hi|].
  apply NoDup_cons in Hks as [Hi0 Hks].
  cbn [foldl]. apply elem_of_cons in Hi as [->|Hi].
  - rewrite unreached_stays.
    + unfold stop_turn. rewrite Ha. apply list_lookup_alter_eq.
    + intros i' Hi' E. pose proof (NoDup_lookup _ _ _ _ Hnd E Ha) as ->. contradiction.
  - rewrite (IH _ i a Hnd Hks Hi Ha). f_equal.
    unfold stop_turn. destruct (sounds !! i0) as [b|] eqn:E; [|reflexivity].
    apply list_lookup_alter_ne. intros ->.
    pose proof (NoDup_lookup _ _ _ _ Hnd E Ha) as ->. contradiction.
Qed.



End StopStore.

(** With a truthy id, [_getSoundIds] hands back the id of every sound. *)
Lemma getSoundIds_all h id :
  heap_ok h -> id <> 0 ->
  _getSoundIds (Some id) h = Normal (map Some (map _id (live h))) h.
Proof.
  intros Hok Hid. destruct id as [|n]; [congruence|]. unfold _getSoundIds. cbn [truthy].
  erewrite bind_normal by reflexivity.
  rewrite (getSoundIds_fold h (_sounds h) (ret []) [] Hok eq_refl).
  cbn [app]. now rewrite map_map.
Qed.




(** With the ids in array order, the ids of the sounds are 1 to n. *)
Lemma ids_of_ordered (hp : list Sound) (l : list nat) : forall off,
  Forall (fun a => a < length hp) l ->
  (forall k a s, l !! k = Some a -> hp !! a = Some s -> _id s = S (off + k)) ->
  map _id (omap (fun a => hp !! a) l) = seq (S off) (length l).
Proof.
  induction l as [|a l IH]; intros off Hok Hio; [reflexivity|].
  apply Forall_cons in Hok as [Ha Hok].
  destruct (lookup_lt_is_Some_2 hp a Ha) as [s Hs].
  simpl. rewrite Hs. simpl.
  rewrite (Hio 0 a s eq_refl Hs), Nat.add_0_r. f_equal.
  apply (IH (S off)); [exact Hok|].
  intros k b s' Hk Hb. rewrite (Hio (S k) b s' Hk Hb). f_equal. lia.
Qed.


(** X27: an internal [stop(id)] with an id other than 0 reaches the wrong
    sounds.  In a loaded group that is not locked, with no fade running,
    whose sounds are distinct and carry the ids [register] gave them in
    array order, it returns the group having stopped every sound of the
    array but the first, whichever id was named: the first sound is left
    exactly as it was, every other sound is ended, paused and back at the
    start of its sprite, the end timers of all the ids are cleared, that
    of the first sound included, and nothing is emitted.  A call that
    reports its stops, on an empty queue, leaves the first sound as it was
    as well, whether it returns or fails in one of its emissions. *)
Theorem stop_with_id_spares_the_first fuel h id :
  _state h = loaded -> _playLock h = false -> heap_ok h -> NoDup (_sounds h) ->
  ids_in_order h -> no_fade h -> id <> 0 ->
  (exists h',
     exec (S (S (S fuel))) (CStop (Some id) true) h = Normal VSelf h' /\
     _sounds h' = _sounds h /\
     (forall a, _sounds h !! 0 = Some a -> heap h' !! a = heap h !! a) /\
     (forall k a s, _sounds h !! S k = Some a -> heap h !! a = Some s ->
        heap h' !! a = Some (stopped (_webAudio h) s)) /\
     (forall k, k < length (_sounds h) -> _endTimers h' !! S k = None) /\
     emitted h' = emitted h /\ _queue h' = _queue h /\ _playLock h' = false /\
     pending h' = pending h) /\
  (_queue h = [] ->
   ipost (fun h' => _sounds h' = _sounds h /\
                    forall a, _sounds h !! 0 = Some a -> heap h' !! a = heap h !! a)
         (exec (S (S (S fuel))) (CStop (Some id) false) h)).
Proof.
  intros Hl Hp Hok Hnd Hio Hnf Hid.
  pose proof (must_wait_quiet h Hl Hp) as Hw.
  set (n := length (_sounds h)).
  assert (Hids : map _id (live h) = seq 1 n).
  { apply (ids_of_ordered (heap h) (_sounds h) 0); [exact Hok|exact Hio]. }
  assert (Hrun : forall internal h',
             for_each (map Some (seq 1 n)) (stop_body (exec (S (S fuel))) internal) h
             = Normal tt h' ->
             exec (S (S (S fuel))) (CStop (Some id) internal) h = Normal VSelf h').
  { intros internal h' He. cbn [exec dispatch]. rewrite stop_unfold.
    erewrite bind_normal by reflexivity. rewrite Hw.
    erewrite bind_normal by (apply getSoundIds_all; assumption).
    rewrite Hids. erewrite bind_normal by exact He. reflexivity. }
  assert (Hfirst : forall hp a, _sounds h !! 0 = Some a ->
             foldl (stop_turn (_sounds h) (_webAudio h)) hp (seq 1 n) !! a = hp !! a).
  { intros hp a Ha. apply unreached_stays.
    intros i Hi E. apply elem_of_seq in Hi.
    pose proof (NoDup_lookup _ _ _ _ Hnd E Ha). lia. }
  split.
  - destruct (stop_loop fuel true (seq 1 n) h (or_introl eq_refl) Hok Hnf)
      as (h' & He & Hh & Ht & Hem & Hso & Hq' & _ & Hpl & _ & Hpe).
    exists h'. split_and!.
    + now apply Hrun.
    + exact Hso.
    + intros a Ha. rewrite Hh. now apply Hfirst.
    + intros k a s Hk Hs. rewrite Hh.
      rewrite (reached_stopped _ _ _ _ (S k) a Hnd (NoDup_seq 1 n)); [now rewrite Hs| |exact Hk].
      apply elem_of_seq. apply lookup_lt_Some in Hk. fold n in Hk. lia.
    + intros k Hk. rewrite Ht. apply cleared_all. apply elem_of_seq. fold n in Hk. lia.
    + now apply Hem.
    + exact Hq'.
    + now rewrite Hpl.
    + exact Hpe.
  - intros Hq.
    destruct (stop_loop fuel false (seq 1 n) h (or_intror Hq) Hok Hnf)
      as (h' & He & Hh & _ & _ & Hso & _).
    rewrite (Hrun false h' He). cbn [ipost]. split; [exact Hso|].
    intros a Ha. rewrite Hh. now apply Hfirst.
Qed.

(** * Further properties: the theorems at concrete groups *)

Ltac computed := vm_compute; reflexivity.

Lemma load_picks_first_supported_witness :
  noAudio (howler group_strings) = false /\
  _src group_strings = [url_source "a.ogg"] ++ url_source picked_url :: [url_source "c.mp3"] /\
  Forall (unsupported (howler group_strings)) [url_source "a.ogg"] /\
  Forall (fun s => source_ext s <> None) [url_source "a.ogg"] /\
  source_ext (url_source picked_url) = Some (Some "mp3"%string) /\
  codecs (howler group_strings) "mp3" = true /\
  src_url (url_source picked_url) = Some picked_url /\ picked_url <> ""%string /\
  exists h',
    exec 3 CLoad group_strings = Normal VSelf h' /\
    _state h' = loading /\ _url h' = Some picked_url /\
    map src_url (_src h') = [Some picked_url] /\
    emitted h' = [] /\ _queue h' = [].
Proof.
  assert (Hskip : Forall (unsupported (howler group_strings)) [url_source "a.ogg"]).
  { repeat constructor. }
  assert (Hstr : Forall (fun s => source_ext s <> None) [url_source "a.ogg"]).
  { repeat constructor. vm_compute. discriminate. }
  split_and!; [computed | computed | exact Hskip | exact Hstr | computed | computed
              | computed | discriminate |].
  destruct (load_picks_first_supported 0 group_strings [url_source "a.ogg"]
              (url_source picked_url) [url_source "c.mp3"] "mp3" picked_url)
    as (h' & He & Hs & Hu & Hsrc & Hem & Hq & _);
    [computed | computed | exact Hskip | exact Hstr | computed | computed | computed
    | discriminate |].
  exists h'. split_and!; [exact He | exact Hs | exact Hu | exact Hsrc | exact Hem | exact Hq].
Defined.


Lemma source_ext_ignores_query_witness :
  strip_prefix_ci "data:audio/" "sounds/Track.MP3" = None /\
  ~ In "?"%char (list_ascii_of_string "sounds/Track.MP3") /\
  source_ext (url_source "sounds/Track.MP3?v=2&x=.ogg") = Some (Some "mp3"%string).
Proof.
  assert (Hq : ~ In "?"%char (list_ascii_of_string "sounds/Track.MP3")).
  { cbn. intuition discriminate. }
  split_and!; [computed | exact Hq |].
  change "sounds/Track.MP3?v=2&x=.ogg"%string
    with ("sounds/Track.MP3" ++ String "?" "v=2&x=.ogg")%string.
  rewrite (source_ext_ignores_query "sounds/Track.MP3" "v=2&x=.ogg");
    [computed | computed | exact Hq].
Defined.

Lemma source_ext_ignores_case_witness :
  source_ext (url_source "Track.MP3") = Some (Some "mp3"%string) /\
  source_ext (url_source (toLowerCase "Track.MP3")) = source_ext (url_source "Track.MP3") /\
  toLowerCase "mp3" = "mp3"%string.
Proof.
  assert (He : source_ext (url_source "Track.MP3") = Some (Some "mp3"%string)) by computed.
  destruct (source_ext_ignores_case "Track.MP3") as [Hsame Hlow].
  split_and!; [exact He | exact Hsame | exact (Hlow "mp3"%string He)].
Defined.

Lemma play_starts_web_audio_witness :
  exists s sp,
    _state (group_example loaded true 5) = loaded /\
    play_target (PSprite "foo") (group_example loaded true 5)
    = Normal (Some (None, 0, Some "foo"%string))
        (targeted (PSprite "foo") (group_example loaded true 5)) /\
    heap (targeted (PSprite "foo") (group_example loaded true 5)) !! 0 = Some s /\
    truthy None && negb (_paused s) = false /\
    (Some "foo"%string ≫= fun name =>
       howl_sprite (targeted (PSprite "foo") (group_example loaded true 5)) !! name)
    = Some sp /\
    Qle_bool (sprite_stop sp) (play_seek s sp) = false /\
    _webAudio (targeted (PSprite "foo") (group_example loaded true 5)) = true /\
    ctxRunning (howler (targeted (PSprite "foo") (group_example loaded true 5))) = true /\
    exists h2 s2,
      exec 1 (CPlay (PSprite "foo") false) (group_example loaded true 5)
      = Normal (VId (_id s)) h2 /\
      heap h2 !! 0 = Some s2 /\ _paused s2 = false /\ _ended s2 = false /\
      _seek s2 = Some (play_seek s sp) /\
      _playLock h2 = false.
Proof.
  eexists. eexists.
  split; [computed|]. split; [computed|]. split; [computed|]. split; [computed|].
  split; [computed|]. split; [computed|]. split; [computed|]. split; [computed|].
  edestruct (play_starts_web_audio 0 (group_example loaded true 5) (PSprite "foo") false
               None 0 (Some "foo"%string)
               (targeted (PSprite "foo") (group_example loaded true 5)))
    as (h2 & s2 & He & Hh & Hp & Hen & _ & Hsk & _ & _ & _ & _ & _ & _ & _ & Hpl & _);
    [computed | computed | computed | computed | computed | computed | computed
    | computed |].
  exists h2, s2.
  split_and!; [exact He | exact Hh | exact Hp | exact Hen | exact Hsk | exact Hpl].
Defined.


Lemma play_html5_throw_is_reported_witness :
  exists s sp,
    _state throwing_example = loaded /\
    play_target (PId 1) throwing_example
    = Normal (Some (Some 1, 1, Some "beat"%string)) throwing_example /\
    heap throwing_example !! 1 = Some s /\
    truthy (Some 1) && negb (_paused s) = false /\
    (Some "beat"%string ≫= fun name => howl_sprite throwing_example !! name) = Some sp /\
    Qle_bool (sprite_stop sp) (play_seek s sp) = false /\
    _webAudio throwing_example = false /\ isReady (_node s) = true /\
    nodePlay (howler throwing_example) = PlayThrows /\
    exists h2 s2,
      exec 3 (CPlay (PId 1) false) throwing_example
      = (exec 2 (CEmit Eplayerror (Some (_id s)) MsgException) ≫= fun _ =>
         ret (VId (_id s))) h2 /\
      emitted h2 = emitted throwing_example /\
      heap h2 !! 1 = Some s2 /\ _paused s2 = _paused s /\
      starts h2 = starts throwing_example /\
      _endTimers h2 = _endTimers throwing_example.
Proof.
  eexists. eexists.
  split; [computed|]. split; [computed|]. split; [computed|]. split; [computed|].
  split; [computed|]. split; [computed|]. split; [computed|]. split; [computed|].
  split; [computed|].
  edestruct (play_html5_throw_is_reported 0 throwing_example (PId 1) false
               (Some 1) 1 (Some "beat"%string) throwing_example)
    as (h2 & s2 & He & Hem & Hh & Hp & _ & _ & Hst & _ & Het & _);
    [computed | computed | computed | computed | computed | computed | computed
    | computed | computed |].
  exists h2, s2.
  split_and!; [exact He | exact Hem | exact Hh | exact Hp | exact Hst | exact Het].
Defined.

Lemma play_promise_rejected_witness :
  exists s sp,
    _state rejected_example = loaded /\
    play_target (PId 1) rejected_example
    = Normal (Some (Some 1, 1, Some "foo"%string)) rejected_example /\
    heap rejected_example !! 1 = Some s /\
    truthy (Some 1) && negb (_paused s) = false /\
    (Some "foo"%string ≫= fun name => howl_sprite rejected_example !! name) = Some sp /\
    Qle_bool (sprite_stop sp) (play_seek s sp) = false /\
    _webAudio rejected_example = false /\ isReady (_node s) = true /\
    nodePlay (howler rejected_example) = PlayPromise /\
    playBlocked (howler rejected_example) = false /\
    exists h2 s2,
      exec 1 (CPlay (PId 1) false) rejected_example = Normal (VId (_id s)) h2 /\
      _playLock h2 = true /\ heap h2 !! 1 = Some s2 /\ _paused s2 = false /\
      exec 3 (CFire (length (pending rejected_example)) false) h2
      = (exec 2 (CEmit Eplayerror (Some (_id s)) MsgPlayback) ≫= fun _ =>
         update 1 (fun s => set_paused true (set_ended true s)) ;;
         ret VUndefined)
          (set_playLock false (set_pending (pending rejected_example) h2)) /\
      ipost (fun h' => _playLock h' = false /\ _endTimers h' = _endTimers h2)
            (exec 3 (CFire (length (pending rejected_example)) false) h2).
Proof.
  eexists. eexists.
  split; [computed|]. split; [computed|]. split; [computed|]. split; [computed|].
  split; [computed|]. split; [computed|]. split; [computed|]. split; [computed|].
  split; [computed|]. split; [computed|].
  edestruct (play_promise_rejected 0 rejected_example (PId 1) false
               (Some 1) 1 (Some "foo"%string) rejected_example)
    as (h2 & s2 & He & Hpl & _ & _ & Hh & Hp & _ & _ & He3 & Hpost);
    [computed | computed | computed | computed | computed | computed | computed
    | computed | computed | computed |].
  exists h2, s2.
  split_and!; [exact He | exact Hpl | exact Hh | exact Hp | exact He3 | exact Hpost].
Defined.

Lemma play_promise_resolved_witness :
  exists s sp,
    _state rejected_example = loaded /\
    play_target (PId 1) rejected_example
    = Normal (Some (Some 1, 1, Some "foo"%string)) rejected_example /\
    heap rejected_example !! 1 = Some s /\
    truthy (Some 1) && negb (_paused s) = false /\
    (Some "foo"%string ≫= fun name => howl_sprite rejected_example !! name) = Some sp /\
    Qle_bool (sprite_stop sp) (play_seek s sp) = false /\
    _webAudio rejected_example = false /\ isReady (_node s) = true /\
    nodePlay (howler rejected_example) = PlayPromise /\
    playBlocked (howler rejected_example) = false /\
    _queue rejected_example = [] /\
    exists h2 h3 s3,
      exec 1 (CPlay (PId 1) false) rejected_example = Normal (VId (_id s)) h2 /\
      _playLock h2 = true /\ emitted h2 = emitted rejected_example /\
      h3 = set_playLock false (set_pending (pending rejected_example) h2) /\
      exec 3 (CFire (length (pending rejected_example)) true) h2
      = (try_catch
           (when (negb false)
              (exec 2 (CEmit Eplay (Some (_id s)) MsgNone) ;;
               exec 2 (CLoadQueue None) ;; ret tt))
           (modify (set_playLock false) ;;
            exec 2 (CEmit Eplayerror (Some (_id s)) MsgPlayback) ;;
            update 1 (fun s => set_paused true (set_ended true s))) ;;
         ret VUndefined) h3 /\
      heap h3 !! 1 = Some s3 /\ _paused s3 = false /\ _ended s3 = false /\
      ipost (fun h' => _playLock h' = false /\ _endTimers h' = _endTimers h2)
            (exec 3 (CFire (length (pending rejected_example)) true) h2).
Proof.
  eexists. eexists.
  split; [computed|]. split; [computed|]. split; [computed|]. split; [computed|].
  split; [computed|]. split; [computed|]. split; [computed|]. split; [computed|].
  split; [computed|]. split; [computed|]. split; [computed|].
  edestruct (play_promise_resolved 0 rejected_example (PId 1) false
               (Some 1) 1 (Some "foo"%string) rejected_example)
    as (h2 & h3 & s3 & He & Hpl & Hem & _ & H3 & He3 & _ & Hh3 & Hp3 & Hen3 & _ & _ & _
        & _ & _ & _ & Hpost);
    [computed | computed | computed | computed | computed | computed | computed
    | computed | computed | computed | computed |].
  exists h2, h3, s3.
  split_and!; [exact He | exact Hpl | exact Hem | exact H3 | exact He3
              | exact Hh3 | exact Hp3 | exact Hen3 | exact Hpost].
Defined.

Lemma ended_web_audio_once_witness :
  exists s sp,
    _webAudio playing_example = true /\
    heap playing_example !! 0 = Some s /\ _loop s = false /\
    (_sprite s ≫= fun name => howl_sprite playing_example !! name) = Some sp /\
    sp_loop sp = false /\
    exec 3 (CEnded 0) playing_example
    = (exec 2 (CEmit Eend (Some (_id s)) MsgNone) ≫= fun _ =>
       modify (fun h1 =>
         set_backend (backend h1 ++ [BAutoSuspend])
           (set_endTimers (delete (_id s) (_endTimers h1))
              (set_heap
                 (alter (fun s0 =>
                           set_node (set_bufferSource false (_node s0))
                             (set_rateSeek (Some 0%Q) (set_seek (Some (_start s0))
                                (set_ended true (set_paused true s0)))))
                    0 (heap h1)) h1))) ;;
       ret VSelf) playing_example /\
    ipost (fun h' => _queue h' = _queue playing_example /\
                     _playLock h' = _playLock playing_example /\
                     _sounds h' = _sounds playing_example)
          (exec 3 (CEnded 0) playing_example).
Proof.
  eexists. eexists.
  split; [computed|]. split; [computed|]. split; [computed|]. split; [computed|].
  split; [computed|].
  eapply (ended_web_audio_once 0 playing_example 0);
    [computed | computed | computed | computed | computed].
Defined.

Lemma ended_web_audio_loop_witness :
  exists s,
    _webAudio beating_example = true /\
    heap beating_example !! 0 = Some s /\ _loop s = true /\
    _queue beating_example = [] /\
    exec 3 (CEnded 0) beating_example
    = (exec 2 (CEmit Eend (Some (_id s)) MsgNone) ≫= fun _ =>
       exec 2 (CEmit Eplay (Some (_id s)) MsgNone) ≫= fun _ =>
       modify (fun h1 =>
         set_endTimers
           (<[_id s := TimeoutTimer 0 (js_div ((_stop s - _start s) * 1000)%Q (Qabs (_rate s)))]>
              (_endTimers h1))
           (set_heap
              (alter (fun s0 => set_playStart (ctxTime (howler h1))
                                 (set_rateSeek (Some 0%Q) (set_seek (Some (_start s0)) s0)))
                 0 (heap h1)) h1)) ;;
       ret VSelf) beating_example /\
    ipost (fun h' => _playLock h' = _playLock beating_example /\
                     _sounds h' = _sounds beating_example /\
                     backend h' = backend beating_example)
          (exec 3 (CEnded 0) beating_example).
Proof.
  eexists.
  split; [computed|]. split; [computed|]. split; [computed|]. split; [computed|].
  eapply (ended_web_audio_loop 0 beating_example 0);
    [computed | computed | left; computed | computed].
Defined.

Lemma play_playing_sound_is_noop_witness :
  exists s,
    _state duet_example = loaded /\
    _sounds duet_example !! 1 = Some 1 /\ heap duet_example !! 1 = Some s /\
    1 <> 0 /\ _paused s = false /\ _queue duet_example = [] /\
    exec 2 (CPlay (PId 1) false) duet_example = Normal (VId (_id s)) duet_example.
Proof.
  eexists.
  split; [computed|]. split; [computed|]. split; [computed|].
  split; [discriminate|]. split; [computed|]. split; [computed|].
  eapply (play_playing_sound_is_noop 0 duet_example 1 false 1);
    [computed | computed | computed | discriminate | computed | right; computed].
Defined.

Lemma untargeted_call_sets_default_only_witness :
  _state (group_example loaded true 5) = loaded /\
  _playLock (group_example loaded true 5) = false /\
  untargeted (AVolume (Some (1 # 2)%Q) None false) = true /\
  exists v h',
    exec 2 (CVolume (Some (1 # 2)%Q) None false) (group_example loaded true 5)
    = Normal v h' /\
    howl_volume h' = (1 # 2)%Q /\
    heap h' = heap (group_example loaded true 5) /\
    emitted h' = emitted (group_example loaded true 5) /\
    _queue h' = _queue (group_example loaded true 5).
Proof.
  split; [computed|]. split; [computed|]. split; [computed|].
  destruct (untargeted_call_sets_default_only 0 (group_example loaded true 5)
              (AVolume (Some (1 # 2)%Q) None false))
    as (v & h' & He & Hs & Hh & _ & Hem & _ & Hq & _);
    [computed | computed | computed |].
  exists v, h'. split_and!; [exact He | | exact Hh | exact Hem | exact Hq].
  rewrite Hs. computed.
Defined.

Lemma untargeted_call_blocks_queue_witness :
  exists st rest,
    _state decoded_example = loaded /\ _playLock decoded_example = false /\
    untargeted (AVolume (Some (1 # 2)%Q) None false) = true /\
    _queue decoded_example = mkTask (AVolume (Some (1 # 2)%Q) None false) st :: rest /\
    exists h',
      run 3 (replicate 3 (CLoadQueue None)) decoded_example = Normal VSelf h' /\
      _queue h' = _queue decoded_example /\
      ran h' = ran decoded_example ++ replicate 3 st /\
      emitted h' = emitted decoded_example.
Proof.
  eexists. eexists.
  split; [computed|]. split; [computed|]. split; [computed|]. split; [computed|].
  edestruct (untargeted_call_blocks_queue 0 decoded_example
               (AVolume (Some (1 # 2)%Q) None false)) with (n := 2)
    as (h' & He & Hq & Hr & Hem & _);
    [computed | computed | computed | computed |].
  exists h'. split_and!; [exact He | exact Hq | exact Hr | exact Hem].
Defined.


Lemma ids_never_change_witness :
  run 8 [play_foo; CStop None false] crowded_example
  = Normal VSelf (after [play_foo; CStop None false] crowded_example) /\
  first_ended (heap crowded_example) (_sounds crowded_example) = Some 1 /\
  forall a s, heap crowded_example !! a = Some s ->
    exists s', heap (after [play_foo; CStop None false] crowded_example) !! a = Some s' /\
               _id s' = _id s /\ configCopy s' = configCopy s.
Proof.
  assert (Hrun : run 8 [play_foo; CStop None false] crowded_example
                 = Normal VSelf (after [play_foo; CStop None false] crowded_example))
    by computed.
  split_and!; [exact Hrun | computed |].
  pose proof (ids_never_change 8 [play_foo; CStop None false] crowded_example) as H.
  rewrite Hrun in H. exact H.
Defined.

Lemma SoundConfig_exchangeObject_by_key_witness :
  NoDup (map fst literal_example) /\
  exists c',
    SoundConfigClass.exchangeObject (Some literal_example) SoundConfigClass.initial
    = Some c' /\
    property "volume" (SoundConfigClass.getObjectCopy c') = Some (JNumber (1 # 2)%Q).
Proof.
  assert (Hnd : NoDup (map fst literal_example)).
  { apply (bool_decide_unpack _). vm_compute. exact I. }
  split; [exact Hnd|].
  destruct (SoundConfig_exchangeObject_by_key literal_example SoundConfigClass.initial
              "volume" Hnd) as ((c' & He & Hp) & _).
  exists c'. split; [exact He|]. rewrite Hp. computed.
Defined.

Lemma HowlConfig_new_by_key_witness :
  NoDup (map fst literal_example) /\
  exists c,
    HowlConfigClass.new (Some literal_example) = Some c /\
    property "pool" (HowlConfigClass.getObjectCopy c) = Some (JNumber 5%Q) /\
    HowlConfigClass.new (Some (HowlConfigClass.getObjectCopy c)) = Some c.
Proof.
  assert (Hnd : NoDup (map fst literal_example)).
  { apply (bool_decide_unpack _). vm_compute. exact I. }
  split; [exact Hnd|].
  destruct (HowlConfig_new_by_key literal_example "pool" Hnd) as (c & He & Hp & Hr & _).
  exists c. split_and!; [exact He | | exact Hr]. rewrite Hp. computed.
Defined.

Lemma off_removes_the_first_listener_witness :
  listeners_example Eplay = [mkListener IdNull 1 true; mkListener IdNull 2 true] /\
  off_matches (Some 2) IdNull (mkListener IdNull 2 true) = true /\
  off Eplay (FnFunction 2) IdUndefined listeners_example Eplay
  = [mkListener IdNull 2 true].
Proof.
  destruct (off_removes_the_first_listener Eplay 2 IdUndefined listeners_example)
    as (_ & _ & Hrest).
  split_and!; [computed | computed |].
  apply (Hrest (mkListener IdNull 1 true) [mkListener IdNull 2 true]
               (mkListener IdNull 2 true));
    [computed | apply list_elem_of_here | computed].
Defined.

Lemma on_then_off_keeps_the_listener_witness :
  (forall l, l ∈ listeners_example Eplay -> off_matches (Some 3) IdNull l = false) /\
  off Eplay (FnFunction 3) IdUndefined
    (on Eplay (FnFunction 3) IdUndefined false listeners_example) Eplay
  = [mkListener IdNull 1 true; mkListener IdNull 2 true; mkListener IdUndefined 3 false] /\
  off Eplay (FnFunction 3) IdUndefined
    (once Eplay (FnFunction 3) IdUndefined listeners_example) Eplay
  = [mkListener IdNull 2 true; mkListener IdNull 3 true].
Proof.
  assert (Hno : forall l, l ∈ listeners_example Eplay ->
                          off_matches (Some 3) IdNull l = false).
  { intros l Hl. apply list_elem_of_In in Hl. vm_compute in Hl.
    destruct Hl as [<-|[<-|[]]]; reflexivity. }
  split; [exact Hno|].
  destruct (on_then_off_keeps_the_listener Eplay 3 listeners_example Hno) as [Hon Honce].
  split; [rewrite Hon | rewrite Honce]; computed.
Defined.

Lemma mute_with_id_throws_witness :
  exists s,
    _state duet_example = loaded /\ _playLock duet_example = false /\
    heap_ok duet_example /\ 2 <> 0 /\
    _sounds duet_example !! 0 = Some 0 /\ heap duet_example !! 0 = Some s /\
    _id s <> 0 /\
    exec 1 (CMute (Some true) (Some 2)) duet_example = TypeError duet_example.
Proof.
  assert (Hok : heap_ok duet_example).
  { unfold heap_ok. vm_compute. repeat constructor. }
  eexists.
  split; [computed|]. split; [computed|]. split; [exact Hok|].
  split; [discriminate|]. split; [computed|]. split; [computed|].
  split; [vm_compute; discriminate|].
  destruct (mute_with_id_throws 0 duet_example (Some true) 2) as [_ Hthrow];
    [computed | computed | exact Hok | discriminate |].
  eapply (Hthrow 0 0); [computed | computed | vm_compute; discriminate].
Defined.


Lemma stop_with_id_spares_the_first_witness :
  _state trio_example = loaded /\ _playLock trio_example = false /\
  heap_ok trio_example /\ NoDup (_sounds trio_example) /\
  ids_in_order trio_example /\ no_fade trio_example /\ 3 <> 0 /\
  _queue trio_example = [] /\
  (exists h' s0 s1 s2,
     exec 3 (CStop (Some 3) true) trio_example = Normal VSelf h' /\
     heap h' !! 0 = Some s0 /\ _paused s0 = false /\ _ended s0 = false /\
     _endTimers trio_example !! 1 <> None /\ _endTimers h' !! 1 = None /\
     heap h' !! 1 = Some s1 /\ _paused s1 = true /\ _ended s1 = true /\
     heap h' !! 2 = Some s2 /\ _paused s2 = true /\ _ended s2 = true /\
     emitted h' = emitted trio_example) /\
  ipost (fun h' => _sounds h' = _sounds trio_example /\
                   heap h' !! 0 = heap trio_example !! 0)
        (exec 3 (CStop (Some 3) false) trio_example).
Proof.
  assert (Hl : _state trio_example = loaded) by computed.
  assert (Hp : _playLock trio_example = false) by computed.
  assert (Hq : _queue trio_example = []) by computed.
  assert (Hso : _sounds trio_example = [0; 1; 2]) by computed.
  assert (Hok : heap_ok trio_example).
  { unfold heap_ok. vm_compute. repeat constructor. }
  assert (Hnd : NoDup (_sounds trio_example)).
  { rewrite Hso. apply (bool_decide_unpack _). vm_compute. exact I. }
  assert (Hio : ids_in_order trio_example).
  { intros k a s Hk Hs. rewrite Hso in Hk.
    destruct k as [|[|[|k]]]; vm_compute in Hk; try discriminate Hk;
      injection Hk as <-; vm_compute in Hs; injection Hs as <-; reflexivity. }
  assert (Hnf : no_fade trio_example).
  { intros a s Hs.
    destruct a as [|[|[|a]]]; vm_compute in Hs; try discriminate Hs;
      injection Hs as <-; reflexivity. }
  split_and!; [exact Hl | exact Hp | exact Hok | exact Hnd | exact Hio | exact Hnf
              | discriminate | exact Hq | |].
  - destruct (stop_with_id_spares_the_first 0 trio_example 3 Hl Hp Hok Hnd Hio Hnf)
      as ((h' & He & _ & Hfirst & Hrest & Ht & Hem & _) & _); [discriminate|].
    eexists h', _, _, _.
    split; [exact He|].
    split; [rewrite (Hfirst 0) by computed; computed|].
    split; [computed|]. split; [computed|].
    split; [vm_compute; discriminate|].
    split; [apply (Ht 0); vm_compute; lia|].
    split; [eapply (Hrest 0 1); computed|].
    split; [computed|]. split; [computed|].
    split; [eapply (Hrest 1 2); computed|].
    split; [computed|]. split; [computed|].
    exact Hem.
  - destruct (stop_with_id_spares_the_first 0 trio_example 3 Hl Hp Hok Hnd Hio Hnf)
      as (_ & Hext); [discriminate|].
    specialize (Hext Hq).
    destruct (exec 3 (CStop (Some 3) false) trio_example) as [v h'|h'|];
      cbn [ipost] in *; [| |exact Hext].
    + destruct Hext as [H1 H2]. split; [exact H1|]. apply H2. computed.
    + destruct Hext as [H1 H2]. split; [exact H1|]. apply H2. computed.
Defined.
